(** * Distance-aware gradual domain ensemble: a shallow embedding

    This development embeds [src/adapter/dagde.py] (class
    [DistanceAwareGradualDomainEnsemble]) and states the properties of its
    ensemble update, momentum scheduler, confidence threshold, pseudo-label
    loss and per-domain sweep; it also embeds the supervised training loop
    of [src/train.py] ([train], [source_train]).

    Numbers.  Tensor entries and Python floats that the code only combines
    with [+], [*], [/], [exp], [log] are idealised as real numbers (no
    rounding).  Python floats on which the control flow depends through a
    non-finite value (the initial [-np.inf] best score, the validator's
    score, the mean of an empty tensor) are [pyfloat]s, which keep [inf] and
    [nan] apart from the finite values.

    Tensors.  A 2-D tensor is a list of rows; a batch of a data loader is a
    list of [(idx, data, y)] samples, so the three collated tensors of a
    batch have the same first dimension by construction.  Shapes must agree
    exactly where torch requires compatible shapes; broadcasting of size-1
    dimensions is not modelled and is reported as [RuntimeError].

    Effects.  Methods of the adapter are state-passing functions into the
    error monad [res]: a Python exception is a [Raise].  Logging
    ([print], [SummaryWriter]) is omitted. *)

From Stdlib Require Import Reals Lra List ZArith Lia Bool Sorted.
Import ListNotations.
Local Open Scope R_scope.

(** Python's [int]; the adapter has a field named [Z], which hides the
    name of Rocq's integers further down. *)
Abbreviation int := BinNums.Z.

(** ** Exceptions and the error monad *)

Inductive exn : Type :=
| IndexError
| ZeroDivisionError
| UnboundLocalError
| AttributeError
| ValueError
| RuntimeError.

Inductive res (A : Type) : Type :=
| Ok (a : A)
| Raise (e : exn).
Arguments Ok {A} a.
Arguments Raise {A} e.

Definition bind {A B : Type} (c : res A) (k : A -> res B) : res B :=
  match c with
  | Ok a => k a
  | Raise e => Raise e
  end.

Notation "x <- c ;; k" := (bind c (fun x => k))
  (at level 61, c at next level, right associativity).
Notation "' pat <- c ;; k" := (bind c (fun x => match x with pat => k end))
  (at level 61, pat pattern, c at next level, right associativity).

(** ** Python floats with their non-finite values *)

Inductive pyfloat : Type :=
| Fin (r : R)
| PInf
| NInf
| NaN.

Definition Rleb (x y : R) : bool := if Rle_dec x y then true else false.
Definition Rltb (x y : R) : bool := if Rlt_dec x y then true else false.

(** [a > b] on Python floats: every comparison with [nan] is [False]. *)
Definition fgt (a b : pyfloat) : bool :=
  match a, b with
  | NaN, _ => false
  | _, NaN => false
  | Fin x, Fin y => Rltb y x
  | Fin _, NInf => true
  | Fin _, PInf => false
  | PInf, PInf => false
  | PInf, _ => true
  | NInf, _ => false
  end.

(** [a + b] on Python floats. *)
Definition fadd (a b : pyfloat) : pyfloat :=
  match a, b with
  | NaN, _ => NaN
  | _, NaN => NaN
  | Fin x, Fin y => Fin (x + y)
  | PInf, NInf => NaN
  | NInf, PInf => NaN
  | PInf, _ => PInf
  | _, PInf => PInf
  | NInf, _ => NInf
  | _, NInf => NInf
  end.

(** [a * n] for a Python float [a] and a non-negative Python int [n]. *)
Definition fmul_nat (a : pyfloat) (n : nat) : pyfloat :=
  match a, n with
  | NaN, _ => NaN
  | Fin x, _ => Fin (x * INR n)
  | _, O => NaN
  | PInf, S _ => PInf
  | NInf, S _ => NInf
  end.

(** [a / n] for a Python float [a] and a Python int [n]: division by zero
    raises. *)
Definition fdiv_nat (a : pyfloat) (n : nat) : res pyfloat :=
  match n with
  | O => Raise ZeroDivisionError
  | S _ =>
      Ok (match a with
          | Fin x => Fin (x / INR n)
          | other => other
          end)
  end.

(** ** Python sequence indexing: negative indices count from the end *)

Definition py_getitem {A : Type} (l : list A) (i : int) : res A :=
  let n := Z.of_nat (length l) in
  let j := if (i <? 0)%Z then (i + n)%Z else i in
  if ((0 <=? j)%Z && (j <? n)%Z)%bool
  then match nth_error l (Z.to_nat j) with
       | Some a => Ok a
       | None => Raise IndexError
       end
  else Raise IndexError.

(** ** Tensor operations (torch) *)

Definition row : Type := list R.
Definition tensor : Type := list row.

Definition sum (r : row) : R := fold_right Rplus 0 r.

(** [torch.amax] and [torch.amin] along the class dimension of one row.
    The tables of the adapter have at least one class; on an empty row the
    functions return 0. *)
Fixpoint amax (r : row) : R :=
  match r with
  | [] => 0
  | x :: r' => match r' with
               | [] => x
               | _ :: _ => Rmax x (amax r')
               end
  end.

Fixpoint amin (r : row) : R :=
  match r with
  | [] => 0
  | x :: r' => match r' with
               | [] => x
               | _ :: _ => Rmin x (amin r')
               end
  end.

(** [torch.argmax] along the class dimension of one row: the index of the
    first maximal entry. *)
Fixpoint argmax_from (best_i : nat) (best : R) (i : nat) (r : row) : nat :=
  match r with
  | [] => best_i
  | x :: r' =>
      if Rltb best x
      then argmax_from i x (S i) r'
      else argmax_from best_i best (S i) r'
  end.

Definition argmax (r : row) : nat :=
  match r with
  | [] => O
  | x :: r' => argmax_from O x 1%nat r'
  end.

(** [max(row) - min(row)], the confidence of one ensemble row. *)
Definition confidence_of (r : row) : R := amax r - amin r.

(** [F.softmax(output, dim=1)] on one row. *)
Definition softmax (r : row) : row :=
  let s := sum (map exp r) in
  map (fun x => exp x / s) r.

(** [F.log_softmax(logits, dim=1)] on one row. *)
Definition log_softmax (r : row) : row :=
  let s := sum (map exp r) in
  map (fun x => x - ln s) r.

(** [F.nll_loss(log_probs, target, reduction='none')]: minus the
    log-probability of the target class, per sample. *)
Fixpoint nll_loss (log_probs : tensor) (target : list nat) : res (list R) :=
  match log_probs, target with
  | [], [] => Ok []
  | lp :: log_probs', t :: target' =>
      match nth_error lp t with
      | Some v =>
          rest <- nll_loss log_probs' target' ;;
          Ok (- v :: rest)
      | None => Raise IndexError
      end
  | _, _ => Raise ValueError
  end.

(** Product of a float tensor with a boolean tensor of the same shape. *)
Fixpoint mul_mask (v : list R) (mask : list bool) : list R :=
  match v, mask with
  | x :: v', b :: mask' => (x * (if b then 1 else 0)) :: mul_mask v' mask'
  | _, _ => []
  end.

(** [tensor.mean()]: the mean over all elements; [nan] when there are
    none. *)
Definition mean (v : list R) : pyfloat :=
  match v with
  | [] => NaN
  | _ :: _ => Fin (sum v / INR (length v))
  end.

(** [mask.sum().item()] *)
Definition mask_sum (mask : list bool) : nat := length (filter (fun b : bool => b) mask).

(** [F.normalize(row, p=1)]: [v / max(||v||_1, eps)] with torch's default
    [eps = 1e-12]. *)
Definition normalize_eps : R := 1e-12.

Definition norm1 (r : row) : R := sum (map Rabs r).

Definition normalize (r : row) : row :=
  let d := Rmax (norm1 r) normalize_eps in
  map (fun x => x / d) r.

(** [tensor[idx]] for a tensor of indices. *)
Fixpoint gather (t : tensor) (idx : list nat) : res tensor :=
  match idx with
  | [] => Ok []
  | i :: idx' =>
      match nth_error t i with
      | Some r =>
          rest <- gather t idx' ;;
          Ok (r :: rest)
      | None => Raise IndexError
      end
  end.

Fixpoint set_row (t : tensor) (i : nat) (r : row) : tensor :=
  match t, i with
  | [], _ => []
  | _ :: t', O => r :: t'
  | x :: t', S i' => x :: set_row t' i' r
  end.

(** [tensor[idx] = rows]: the rows are written in order. *)
Fixpoint scatter (t : tensor) (idx : list nat) (rows : tensor) : res tensor :=
  match idx, rows with
  | [], [] => Ok t
  | i :: idx', r :: rows' =>
      if (i <? length t)%nat
      then scatter (set_row t i r) idx' rows'
      else Raise IndexError
  | _, _ => Raise RuntimeError
  end.

(** [a * x + b * y] on two rows of the same length. *)
Fixpoint row_axpby (a : R) (x : row) (b : R) (y : row) : res row :=
  match x, y with
  | [], [] => Ok []
  | xi :: x', yi :: y' =>
      rest <- row_axpby a x' b y' ;;
      Ok ((a * xi + b * yi) :: rest)
  | _, _ => Raise RuntimeError
  end.

Fixpoint rows_axpby (a : R) (X : tensor) (b : R) (Y : tensor) : res tensor :=
  match X, Y with
  | [], [] => Ok []
  | x :: X', y :: Y' =>
      r <- row_axpby a x b y ;;
      rest <- rows_axpby a X' b Y' ;;
      Ok (r :: rest)
  | _, _ => Raise RuntimeError
  end.

(** [torch.quantile(input, q)] with the default linear interpolation. *)
Fixpoint insert_sorted (x : R) (l : list R) : list R :=
  match l with
  | [] => [x]
  | y :: l' => if Rleb x y then x :: l else y :: insert_sorted x l'
  end.

Definition sort (l : list R) : list R := fold_right insert_sorted [] l.

Definition lerp (a b w : R) : R := a + w * (b - a).

Definition quantile (input : list R) (q : R) : res R :=
  match input with
  | [] => Raise RuntimeError
  | _ :: _ =>
      if (Rleb 0 q && Rleb q 1)%bool
      then
        let sorted := sort input in
        let rank := q * INR (length input - 1) in
        let below := Z.to_nat (Zfloor rank) in
        let above := Z.to_nat (Zceil rank) in
        let weight := rank - INR below in
        Ok (lerp (nth below sorted 0) (nth above sorted 0) weight)
      else Raise RuntimeError
  end.

(** [torch.cat(list_of_tensors)]: an empty list is rejected. *)
Definition cat (ts : list tensor) : res tensor :=
  match ts with
  | [] => Raise RuntimeError
  | _ :: _ => Ok (concat ts)
  end.

(** [torch.eq(a, b).sum().item()] on two 1-D integer tensors. *)
Fixpoint count_eq (a b : list nat) : res nat :=
  match a, b with
  | [], [] => Ok O
  | x :: a', y :: b' =>
      n <- count_eq a' b' ;;
      Ok (if Nat.eqb x y then S n else n)
  | _, _ => Raise RuntimeError
  end.

(** A Python [dict] keyed by floats: insertion-ordered, and assigning to a
    key that is present replaces its value in place. *)
Fixpoint dict_set {V : Type} (d : list (R * V)) (k : R) (v : V)
    : list (R * V) :=
  match d with
  | [] => [(k, v)]
  | (k', v') :: d' =>
      if Req_dec_T k' k then (k', v) :: d' else (k', v') :: dict_set d' k v
  end.

(** ** The pseudo-label loss ([_pseudo_label_loss], lines 144-149) *)

Definition _pseudo_label_loss (student_logits ensemble_probs : tensor)
    (alpha : R) : res (pyfloat * list bool) :=
  let confidence := map confidence_of ensemble_probs in
  let mask := map (fun c => Rleb alpha c) confidence in
  let teacher_pred := map argmax ensemble_probs in
  per_sample <- nll_loss (map log_softmax student_logits) teacher_pred ;;
  let pseudo_loss := mean (mul_mask per_sample mask) in
  Ok (pseudo_loss, mask).

(** ** The momentum value ([_calc_momentum], line 137) *)

Definition momentum_of (beta norm_dist : R) : R := exp (- beta * norm_dist).

(** ** The adapter *)

Section Adapter.

(** The external collaborators: the classifier, its optimizer and the
    unsupervised validator. *)
Variable Input : Type.
Variable Model : Type.
Variable Optimizer : Type.

(** [model(data)] on a batch, after [model.train()] when the flag is
    [true] and after [model.eval()] otherwise. *)
Variable forward : bool -> Model -> list Input -> tensor.

(** [torch.optim.Adam(model.parameters(), lr=...)] *)
Variable Adam : Model -> R -> Optimizer.

(** [optimizer.zero_grad(); loss.backward(); optimizer.step()] for the
    pseudo-label loss of the batch [data] against [ensemble_probs] and
    [alpha]: the parameters and the optimizer state after the step. *)
Variable optimizer_step :
  Optimizer -> Model -> list Input -> tensor -> R -> Model * Optimizer.

(** [IMValidator()(target_train={"logits": logits})] *)
Variable validator : tensor -> pyfloat.

Definition sample : Type := (nat * Input * nat)%type.
Definition batch : Type := list sample.
Definition loader : Type := list batch.

Definition batch_idx (b : batch) : list nat := map (fun s => fst (fst s)) b.
Definition batch_data (b : batch) : list Input := map (fun s => snd (fst s)) b.
Definition batch_y (b : batch) : list nat := map (fun s => snd s) b.

Record args : Type := {
  adapt_lr : R;
  adapt_epochs : int
}.

Record adapter : Type := {
  model : Model;
  Z : tensor;
  z : tensor;
  beta : R;
  trainloader_list : list loader;
  norm_dist_list : list R;
  momentum : R;
  pl_acc_list : list R;
  momentum_record_list : list R
}.

(** [__init__] (lines 12-23) *)
Definition __init__ (model0 : Model) (Z0 z0 : tensor) (beta0 : R)
    (trainloader_list0 : list loader) (norm_dist_list0 : list R) : adapter :=
  {| model := model0; Z := Z0; z := z0; beta := beta0;
     trainloader_list := trainloader_list0;
     norm_dist_list := norm_dist_list0;
     momentum := 0; pl_acc_list := []; momentum_record_list := [] |}.

Definition set_tables (self : adapter) (Z' z' : tensor) : adapter :=
  {| model := model self; Z := Z'; z := z'; beta := beta self;
     trainloader_list := trainloader_list self;
     norm_dist_list := norm_dist_list self;
     momentum := momentum self; pl_acc_list := pl_acc_list self;
     momentum_record_list := momentum_record_list self |}.

Definition set_model (self : adapter) (m : Model) : adapter :=
  {| model := m; Z := Z self; z := z self; beta := beta self;
     trainloader_list := trainloader_list self;
     norm_dist_list := norm_dist_list self;
     momentum := momentum self; pl_acc_list := pl_acc_list self;
     momentum_record_list := momentum_record_list self |}.

Definition append_pl_acc (self : adapter) (pl_acc : R) : adapter :=
  {| model := model self; Z := Z self; z := z self; beta := beta self;
     trainloader_list := trainloader_list self;
     norm_dist_list := norm_dist_list self;
     momentum := momentum self;
     pl_acc_list := pl_acc_list self ++ [pl_acc];
     momentum_record_list := momentum_record_list self |}.

Definition set_momentum (self : adapter) (m : R) : adapter :=
  {| model := model self; Z := Z self; z := z self; beta := beta self;
     trainloader_list := trainloader_list self;
     norm_dist_list := norm_dist_list self;
     momentum := m; pl_acc_list := pl_acc_list self;
     momentum_record_list := momentum_record_list self ++ [m] |}.

(** [_adapt_train_epoch] (lines 25-44): the loop over the batches, then
    the division by [total_num] and the score. *)
Fixpoint train_batches (self : adapter) (alpha : R) (train_loader : loader)
    (model : Model) (optimizer : Optimizer)
    (total_loss : pyfloat) (total_num : nat) (total_logits : list tensor)
    : res (Model * Optimizer * pyfloat * nat * list tensor) :=
  match train_loader with
  | [] => Ok (model, optimizer, total_loss, total_num, total_logits)
  | b :: rest =>
      let data := batch_data b in
      let student_logits := forward true model data in
      ensemble_probs <- gather (z self) (batch_idx b) ;;
      '(loss, mask) <- _pseudo_label_loss student_logits ensemble_probs alpha ;;
      let '(model', optimizer') :=
        optimizer_step optimizer model data ensemble_probs alpha in
      train_batches self alpha rest model' optimizer'
        (fadd total_loss (fmul_nat loss (mask_sum mask)))
        (total_num + mask_sum mask)
        (total_logits ++ [student_logits])
  end.

Definition _adapt_train_epoch (self : adapter) (model : Model)
    (train_loader : loader) (optimizer : Optimizer) (alpha : R)
    : res (Model * Optimizer * pyfloat * pyfloat) :=
  '(model', optimizer', total_loss, total_num, total_logits) <-
    train_batches self alpha train_loader model optimizer (Fin 0) O [] ;;
  total_loss <- fdiv_nat total_loss total_num ;;
  total_logits <- cat total_logits ;;
  let score := validator total_logits in
  Ok (model', optimizer', total_loss, score).

(** [_oracle_eval_epoch] (lines 64-81) *)
Fixpoint oracle_batches (self : adapter) (model : Model) (val_loader : loader)
    (total_correct total_pl_correct total_num : nat)
    : res (nat * nat * nat) :=
  match val_loader with
  | [] => Ok (total_correct, total_pl_correct, total_num)
  | b :: rest =>
      let output := forward false model (batch_data b) in
      let pred := map argmax output in
      correct <- count_eq pred (batch_y b) ;;
      rows <- gather (z self) (batch_idx b) ;;
      let pl := map argmax rows in
      pl_correct <- count_eq pl (batch_y b) ;;
      oracle_batches self model rest
        (total_correct + correct) (total_pl_correct + pl_correct)
        (total_num + length b)
  end.

Definition _oracle_eval_epoch (self : adapter) (model : Model)
    (val_loader : loader) : res (R * R) :=
  '(total_correct, total_pl_correct, total_num) <-
    oracle_batches self model val_loader O O O ;;
  match total_num with
  | O => Raise ZeroDivisionError
  | S _ => Ok (INR total_correct / INR total_num,
               INR total_pl_correct / INR total_num)
  end.

(** [_update_Z] (lines 105-117): the body of the inner loop for one batch,
    the loop over a loader, and the loop over the enumerated loaders. *)
Definition update_batch (self : adapter) (b : batch) : res adapter :=
  let output := forward false (model self) (batch_data b) in
  let probs := map softmax output in
  old <- gather (Z self) (batch_idx b) ;;
  new <- rows_axpby (momentum self) old (1 - momentum self) probs ;;
  Z' <- scatter (Z self) (batch_idx b) new ;;
  rows <- gather Z' (batch_idx b) ;;
  z' <- scatter (z self) (batch_idx b) (map normalize rows) ;;
  Ok (set_tables self Z' z').

Fixpoint update_loader (self : adapter) (l : loader) : res adapter :=
  match l with
  | [] => Ok self
  | b :: rest =>
      self' <- update_batch self b ;;
      update_loader self' rest
  end.

Fixpoint update_loaders (self : adapter) (domain_idx : int) (d : nat)
    (loaders : list loader) : res adapter :=
  match loaders with
  | [] => Ok self
  | l :: rest =>
      if (Z.of_nat d <? domain_idx)%Z
      then update_loaders self domain_idx (S d) rest
      else
        self' <- update_loader self l ;;
        update_loaders self' domain_idx (S d) rest
  end.

Definition _update_Z (self : adapter) (domain_idx : int) : res adapter :=
  update_loaders self domain_idx O (trainloader_list self).

(** [_calc_alpha] (lines 122-132) *)
Fixpoint gather_batches (t : tensor) (l : loader) : res (list tensor) :=
  match l with
  | [] => Ok []
  | b :: rest =>
      rows <- gather t (batch_idx b) ;;
      more <- gather_batches t rest ;;
      Ok (rows :: more)
  end.

Definition _calc_alpha (self : adapter) (l : loader) (confidence_q : R)
    : res R :=
  total_prob <- gather_batches (Z self) l ;;
  total_prob <- cat total_prob ;;
  let confidence := map confidence_of total_prob in
  quantile confidence confidence_q.

(** [_calc_momentum] (lines 134-140) *)
Definition _calc_momentum (self : adapter) (domain_idx : int) : res adapter :=
  norm_dist <- py_getitem (norm_dist_list self) (domain_idx - 1)%Z ;;
  let momentum := momentum_of (beta self) norm_dist in
  Ok (set_momentum self momentum).

(** [_adapt_train_eval] (lines 83-101): the loop over the epochs keeps the
    last [train_score] and [pl_acc]; they are unbound when there is no
    epoch. *)
Fixpoint epochs_loop (self : adapter) (train_loader : loader) (alpha : R)
    (n : nat) (model : Model) (optimizer : Optimizer)
    (last : option (pyfloat * R)) : res (Model * option (pyfloat * R)) :=
  match n with
  | O => Ok (model, last)
  | S n' =>
      '(model', optimizer', train_loss, train_score) <-
        _adapt_train_epoch self model train_loader optimizer alpha ;;
      '(train_acc, pl_acc) <- _oracle_eval_epoch self model' train_loader ;;
      epochs_loop self train_loader alpha n' model' optimizer'
        (Some (train_score, pl_acc))
  end.

Definition _adapt_train_eval (self : adapter) (domain_idx : int)
    (confidence_q : R) (a : args) : res (adapter * (Model * pyfloat)) :=
  self <- _update_Z self domain_idx ;;
  train_loader <- py_getitem (trainloader_list self) domain_idx ;;
  alpha <- _calc_alpha self train_loader confidence_q ;;
  let model0 := model self in
  let optimizer := Adam model0 (adapt_lr a) in
  '(model', last) <-
    epochs_loop self train_loader alpha (Z.to_nat (adapt_epochs a))
      model0 optimizer None ;;
  match last with
  | None => Raise UnboundLocalError
  | Some (train_score, pl_acc) =>
      let self := append_pl_acc self pl_acc in
      self <- _calc_momentum self domain_idx ;;
      Ok (self, (model', train_score))
  end.

(** [adapt] (lines 151-167): the sweep filling [performance_dict], the
    selection loop, and the assignment of the live model. *)
Definition performance_dict : Type := list (R * (Model * pyfloat)).

Fixpoint sweep (self : adapter) (domain_idx : int)
    (confidence_q_list : list R) (a : args) (perf : performance_dict)
    : res (adapter * performance_dict) :=
  match confidence_q_list with
  | [] => Ok (self, perf)
  | confidence_q :: rest =>
      '(self', (model', val_score)) <-
        _adapt_train_eval self domain_idx confidence_q a ;;
      sweep self' domain_idx rest a
        (dict_set perf confidence_q (model', val_score))
  end.

Fixpoint select_best (items : performance_dict) (best_score : pyfloat)
    (best_model : option Model) : option Model :=
  match items with
  | [] => best_model
  | (_, (m, score)) :: rest =>
      if fgt score best_score
      then select_best rest score (Some m)
      else select_best rest best_score best_model
  end.

Definition adapt (self : adapter) (domain_idx : int)
    (confidence_q_list : list R) (a : args) : res adapter :=
  '(self, perf) <- sweep self domain_idx confidence_q_list a [] ;;
  match select_best perf NInf None with
  | None => Raise AttributeError
  | Some best_model => Ok (set_model self best_model)
  end.

Definition get_model (self : adapter) : Model := model self.

(** [_adapt_eval_epoch] (lines 46-62): as [_adapt_train_epoch], in
    evaluation mode and without the optimizer. *)
Fixpoint eval_batches (self : adapter) (alpha : R) (val_loader : loader)
    (model : Model)
    (total_loss : pyfloat) (total_num : nat) (total_logits : list tensor)
    : res (pyfloat * nat * list tensor) :=
  match val_loader with
  | [] => Ok (total_loss, total_num, total_logits)
  | b :: rest =>
      let data := batch_data b in
      let student_logits := forward false model data in
      ensemble_probs <- gather (z self) (batch_idx b) ;;
      '(loss, mask) <- _pseudo_label_loss student_logits ensemble_probs alpha ;;
      eval_batches self alpha rest model
        (fadd total_loss (fmul_nat loss (mask_sum mask)))
        (total_num + mask_sum mask)
        (total_logits ++ [student_logits])
  end.

Definition _adapt_eval_epoch (self : adapter) (model : Model)
    (val_loader : loader) (alpha : R) : res (pyfloat * pyfloat) :=
  '(total_loss, total_num, total_logits) <-
    eval_batches self alpha val_loader model (Fin 0) O [] ;;
  total_loss <- fdiv_nat total_loss total_num ;;
  total_logits <- cat total_logits ;;
  let score := validator total_logits in
  Ok (total_loss, score).

End Adapter.

(** ** Training on the source domain ([src/train.py])

    [train] (lines 30-50) and the loop of [source_train] over the epochs,
    with early stopping (lines 71-90).  A batch of the source loaders is a
    list of [(data, y)] samples.  [eval] stands for
    [eval(val_loader, encoder, head)] of [utils], of which only the
    validation accuracy is used; the losses and the training accuracy are
    only printed. *)
Section SourceTrain.

Variable Input : Type.
Variable Encoder : Type.
Variable Head : Type.
Variable Optim : Type.

(** [head(encoder(data))] on a batch, in training mode. *)
Variable net_forward : Encoder * Head -> list Input -> tensor.

(** [optimizer.zero_grad(); loss.backward(); optimizer.step()] for the
    supervised loss of the batch. *)
Variable sup_step :
  Optim -> Encoder * Head -> list Input -> list nat
  -> Encoder * Head * Optim.

Variable eval : Encoder * Head -> res R.

Definition labelled_batch : Type := list (Input * nat).

(** [train] (lines 30-50) *)
Fixpoint train_loop (l : list labelled_batch) (net : Encoder * Head * Optim)
    (total_loss : pyfloat) (total_correct total_num : nat)
    : res (Encoder * Head * Optim * pyfloat * nat * nat) :=
  match l with
  | [] => Ok (net, total_loss, total_correct, total_num)
  | b :: rest =>
      let data := map fst b in
      let y := map snd b in
      let output := net_forward (fst net) data in
      per_sample <- nll_loss (map log_softmax output) y ;;
      let loss := mean per_sample in
      let net' := sup_step (snd net) (fst net) data y in
      let pred := map argmax output in
      correct <- count_eq pred y ;;
      train_loop rest net'
        (fadd total_loss (fmul_nat loss (length b)))
        (total_correct + correct) (total_num + length b)
  end.

Definition train (l : list labelled_batch) (net : Encoder * Head * Optim)
    : res (Encoder * Head * Optim * pyfloat * R) :=
  '(net', total_loss, total_correct, total_num) <-
    train_loop l net (Fin 0) O O ;;
  total_loss <- fdiv_nat total_loss total_num ;;
  Ok (net', total_loss, INR total_correct / INR total_num).

(** The loop of [source_train] (lines 71-90) *)
Definition patience : nat := 5.

Fixpoint source_train_loop (train_loader : list labelled_batch)
    (epochs : nat) (net : Encoder * Head * Optim)
    (best_val_acc : R) (best : option (Encoder * Head)) (staleness : nat)
    : res (option (Encoder * Head)) :=
  match epochs with
  | O => Ok best
  | S epochs' =>
      '(net, train_loss, train_acc) <- train train_loader net ;;
      val_acc <- eval (fst net) ;;
      let '(best_val_acc, best, staleness) :=
        if Rltb best_val_acc val_acc
        then (val_acc, Some (fst net), O)
        else (best_val_acc, best, S staleness) in
      if (patience <? staleness)%nat
      then Ok best
      else source_train_loop train_loader epochs' net best_val_acc best
             staleness
  end.

Definition source_train (train_loader : list labelled_batch)
    (train_epochs : int) (net : Encoder * Head * Optim)
    : res (option (Encoder * Head)) :=
  source_train_loop train_loader (Z.to_nat train_epochs) net 0 None O.

End SourceTrain.

Arguments sample Input : clear implicits.
Arguments batch Input : clear implicits.
Arguments loader Input : clear implicits.
Arguments adapter Input Model : clear implicits.
Arguments batch_idx {Input} b.
Arguments batch_data {Input} b.
Arguments batch_y {Input} b.
Arguments model {Input Model} a.
Arguments Z {Input Model} a.
Arguments z {Input Model} a.
Arguments beta {Input Model} a.
Arguments trainloader_list {Input Model} a.
Arguments norm_dist_list {Input Model} a.
Arguments momentum {Input Model} a.
Arguments pl_acc_list {Input Model} a.
Arguments momentum_record_list {Input Model} a.
Arguments __init__ {Input Model} model0 Z0 z0 beta0 trainloader_list0
  norm_dist_list0.
Arguments set_tables {Input Model} self Z' z'.
Arguments set_model {Input Model} self m.
Arguments append_pl_acc {Input Model} self pl_acc.
Arguments set_momentum {Input Model} self m.
Arguments train_batches {Input Model Optimizer} forward optimizer_step self
  alpha train_loader model optimizer total_loss total_num total_logits.
Arguments _adapt_train_epoch {Input Model Optimizer} forward optimizer_step
  validator self model train_loader optimizer alpha.
Arguments oracle_batches {Input Model} forward self model val_loader
  total_correct total_pl_correct total_num.
Arguments _oracle_eval_epoch {Input Model} forward self model val_loader.
Arguments update_batch {Input Model} forward self b.
Arguments update_loader {Input Model} forward self l.
Arguments update_loaders {Input Model} forward self domain_idx d loaders.
Arguments _update_Z {Input Model} forward self domain_idx.
Arguments gather_batches {Input} t l.
Arguments _calc_alpha {Input Model} self l confidence_q.
Arguments _calc_momentum {Input Model} self domain_idx.
Arguments epochs_loop {Input Model Optimizer} forward optimizer_step
  validator self train_loader alpha n model optimizer last.
Arguments _adapt_train_eval {Input Model Optimizer} forward Adam
  optimizer_step validator self domain_idx confidence_q a.
Arguments performance_dict Model : clear implicits.
Arguments sweep {Input Model Optimizer} forward Adam optimizer_step validator
  self domain_idx confidence_q_list a perf.
Arguments select_best {Model} items best_score best_model.
Arguments adapt {Input Model Optimizer} forward Adam optimizer_step validator
  self domain_idx confidence_q_list a.
Arguments get_model {Input Model} self.
Arguments eval_batches {Input Model} forward self alpha val_loader model
  total_loss total_num total_logits.
Arguments _adapt_eval_epoch {Input Model} forward validator self model
  val_loader alpha.
Arguments labelled_batch Input : clear implicits.
Arguments train_loop {Input Encoder Head Optim} net_forward sup_step l net
  total_loss total_correct total_num.
Arguments train {Input Encoder Head Optim} net_forward sup_step l net.
Arguments source_train_loop {Input Encoder Head Optim} net_forward sup_step
  eval train_loader epochs net best_val_acc best staleness.
Arguments source_train {Input Encoder Head Optim} net_forward sup_step eval
  train_loader train_epochs net.

(** * Definitions for the statements *)

Definition nonneg_row (r : row) : Prop := Forall (fun x => 0 <= x) r.
Definition zero_row (r : row) : Prop := Forall (fun x => x = 0) r.

(** The tensor operations of the update raise no [ZeroDivisionError]. *)
Definition no_zero_division {A : Type} (c : res A) : Prop :=
  c <> Raise ZeroDivisionError.

(** The negative log-likelihood of the teacher label (the argmax of the
    ensemble row) under the log-softmax of the student logits. *)
Definition teacher_nll (logits target : row) : R :=
  - nth (argmax target) (log_softmax logits) 0.

(** A sample is masked in when the confidence of its ensemble row reaches
    [alpha]. *)
Definition masked_in (alpha : R) (target : row) : bool :=
  Rleb alpha (confidence_of target).

(** The sum of the negative log-likelihoods of the masked-in samples. *)
Fixpoint masked_nll_sum (alpha : R) (student_logits ensemble_probs : tensor)
    : R :=
  match student_logits, ensemble_probs with
  | l :: sl, p :: ep =>
      (if masked_in alpha p then teacher_nll l p else 0)
      + masked_nll_sum alpha sl ep
  | _, _ => 0
  end.

Definition masked_count (alpha : R) (ensemble_probs : tensor) : nat :=
  length (filter (masked_in alpha) ensemble_probs).

(** The loss in the words of the specification: the mean over the
    masked-in samples, with the count of masked-in samples as
    denominator. *)
Definition masked_mean_loss (alpha : R) (student_logits ensemble_probs : tensor)
    : R :=
  masked_nll_sum alpha student_logits ensemble_probs
  / INR (masked_count alpha ensemble_probs).

(** The two tensors have the same number of rows and every teacher label
    is a class of the student. *)
Definition well_shaped (student_logits ensemble_probs : tensor) : Prop :=
  Forall2 (fun l p => (argmax p < length l)%nat) student_logits ensemble_probs.

Fixpoint teacher_nlls (student_logits ensemble_probs : tensor) : list R :=
  match student_logits, ensemble_probs with
  | l :: sl, p :: ep => teacher_nll l p :: teacher_nlls sl ep
  | _, _ => []
  end.

(** The score of an entry of [performance_dict]. *)
Definition score_of {Model : Type} (item : R * (Model * pyfloat)) : pyfloat :=
  snd (snd item).

Section Statements.

Context {Input Model : Type}.
Variable forward : bool -> Model -> list Input -> tensor.
Implicit Types self : adapter Input Model.

(** The rows of [z] follow the rows of [Z] at index [i]. *)
Definition normalized_at self (i : nat) : Prop :=
  forall r, nth_error (Z self) i = Some r ->
            nth_error (z self) i = Some (normalize r).

(** Rows of [Z] that are all-zero have an all-zero row of [z]. *)
Definition zero_rows_kept self : Prop :=
  forall i r, nth_error (Z self) i = Some r -> zero_row r ->
              nth_error (z self) i = Some r.



(** Every sample of the batch is masked out at the threshold [alpha], for
    the rows of [z] the batch reads and the logits of any classifier. *)
Definition batch_masked_out self (alpha : R) (b : batch Input) : Prop :=
  exists ep,
    gather (z self) (batch_idx b) = Ok ep /\
    Forall (fun p => confidence_of p < alpha) ep /\
    forall m, well_shaped (forward true m (batch_data b)) ep.

(** The adapter with another momentum, everything else as it is. *)
Definition with_momentum self (m : R) : adapter Input Model :=
  {| model := model self; Z := Z self; z := z self; beta := beta self;
     trainloader_list := trainloader_list self;
     norm_dist_list := norm_dist_list self;
     momentum := m; pl_acc_list := pl_acc_list self;
     momentum_record_list := momentum_record_list self |}.

(** [n] runs of [_update_Z] in a row on one adapter, each in place on the
    tables the previous run left and each with the same live model: the
    first run with the momentum the adapter holds, every later run with
    the momentum [m]. *)
Fixpoint update_Z_times (n : nat) self (domain_idx : int) (m : R)
    : res (adapter Input Model) :=
  match n with
  | O => Ok self
  | S n' =>
      u <- _update_Z forward self domain_idx ;;
      update_Z_times n' (with_momentum u m) domain_idx m
  end.

(** Two adapters agree on all that [_update_Z] reads: the live model, the
    two tables, the momentum and the loaders. *)
Definition same_run self self' : Prop :=
  model self' = model self /\ Z self' = Z self /\ z self' = z self /\
  momentum self' = momentum self /\
  trainloader_list self' = trainloader_list self.

(** The fields that [_update_Z] leaves alone. *)
Definition same_settings self self' : Prop :=
  model self' = model self /\ beta self' = beta self /\
  trainloader_list self' = trainloader_list self /\
  norm_dist_list self' = norm_dist_list self.

(** The sample ids that [_update_Z] visits: those of the batches of the
    loaders whose index is at least [domain_idx]. *)
Fixpoint visited_from (domain_idx : int) (d : nat)
    (loaders : list (loader Input)) : list nat :=
  match loaders with
  | [] => []
  | l :: rest =>
      if (Z.of_nat d <? domain_idx)%Z
      then visited_from domain_idx (S d) rest
      else concat (map batch_idx l) ++ visited_from domain_idx (S d) rest
  end.

Definition visited self (domain_idx : int) : list nat :=
  visited_from domain_idx O (trainloader_list self).

(** Every row of [Z] is a probability vector and [z] is equal to [Z]. *)
Definition prob_row (r : row) : Prop := nonneg_row r /\ sum r = 1.

Definition prob_tables self : Prop :=
  z self = Z self /\ Forall prob_row (Z self).

End Statements.

(** ** A small instance of the collaborators

    A classifier that answers every input with the same logits row (its
    only parameter), an optimizer step that moves the parameters to the
    logits [[ln 3; 0]], and a validator that scores every candidate 0.
    Three domains: the source domain, whose loader is never read, and two
    target domains with one batch of one sample each, of ids 0 and 1 and
    label 0.  Both transitions have distance [ln 2] and [beta] is 1. *)
Module Toy.

Definition forward (training : bool) (m : row) (data : list unit) : tensor :=
  map (fun _ => m) data.

Definition Adam (m : row) (lr : R) : unit := tt.

Definition trained : row := [ln 3; 0].

Definition optimizer_step (o : unit) (m : row) (data : list unit)
    (ensemble_probs : tensor) (alpha : R) : row * unit := (trained, o).

Definition validator (logits : tensor) : pyfloat := Fin 0.

Definition loaders : list (loader unit) :=
  [ []; [[(0%nat, tt, 0%nat)]]; [[(1%nat, tt, 0%nat)]] ].

Definition state (model0 : row) (Z0 z0 : tensor) (momentum0 : R)
    (pl ml : list R) : adapter unit row :=
  {| model := model0; Z := Z0; z := z0; beta := 1;
     trainloader_list := loaders; norm_dist_list := [ln 2; ln 2];
     momentum := momentum0; pl_acc_list := pl; momentum_record_list := ml |}.

Definition zeros : tensor := [[0; 0]; [0; 0]].

Definition halves : tensor := [[1 / 2; 1 / 2]; [1 / 2; 1 / 2]].

(** The adapter as [__init__] leaves it, on all-zero tables. *)
Definition fresh : adapter unit row :=
  __init__ [0; 0] zeros zeros 1 loaders [ln 2; ln 2].

Definition one_epoch : args := {| adapt_lr := 1e-3; adapt_epochs := 1 |}.



End Toy.

(** ** A small instance of supervised training

    A network that answers every input with the logits [[0; 0]], an
    optimizer step that leaves it as it is, and a training loader with one
    batch of one sample of label 0. *)
Module ToySource.

Definition net_forward (n : unit * unit) (data : list unit) : tensor :=
  map (fun _ => [0; 0]) data.

Definition sup_step (o : unit) (n : unit * unit) (data : list unit)
    (y : list nat) : unit * unit * unit := (n, o).

Definition train_loader : list (labelled_batch unit) := [[(tt, 0%nat)]].

(** A validation accuracy of 1, and one of 0, for every network. *)
Definition eval_one (n : unit * unit) : res R := Ok 1.

Definition eval_zero (n : unit * unit) : res R := Ok 0.

End ToySource.

(** * Properties *)

(** ** Comparisons and the error monad *)

Lemma Rleb_true (x y : R) : x <= y -> Rleb x y = true.
Proof. intros H. unfold Rleb. destruct (Rle_dec x y); [reflexivity | lra]. Qed.

Lemma Rleb_false (x y : R) : y < x -> Rleb x y = false.
Proof. intros H. unfold Rleb. destruct (Rle_dec x y); [lra | reflexivity]. Qed.

Lemma Rltb_true (x y : R) : x < y -> Rltb x y = true.
Proof. intros H. unfold Rltb. destruct (Rlt_dec x y); [reflexivity | lra]. Qed.

Lemma Rltb_false (x y : R) : y <= x -> Rltb x y = false.
Proof. intros H. unfold Rltb. destruct (Rlt_dec x y); [lra | reflexivity]. Qed.

Lemma Rltb_spec (x y : R) : Rltb x y = true <-> x < y.
Proof.
  unfold Rltb. destruct (Rlt_dec x y); split; intros; try assumption;
    try reflexivity; try discriminate; contradiction.
Qed.

Lemma bind_Ok {A B : Type} (c : res A) (k : A -> res B) (b : B) :
  bind c k = Ok b -> exists a, c = Ok a /\ k a = Ok b.
Proof.
  destruct c as [a | e]; simpl; intros H; [eauto | discriminate].
Qed.

(** Inverts a hypothesis stating that a monadic computation returned. *)
Ltac inv_bind H :=
  let a := fresh "a" in
  let Ha := fresh "Ha" in
  apply bind_Ok in H; destruct H as (a & Ha & H).

(** ** The momentum scheduler *)

Lemma momentum_of_exp (b d : R) : momentum_of b d = exp (- (b * d)).
Proof. unfold momentum_of. f_equal. ring. Qed.

Lemma momentum_of_lt (b d b' d' : R) :
  b * d < b' * d' -> momentum_of b' d' < momentum_of b d.
Proof.
  intros H. rewrite !momentum_of_exp. apply exp_increasing. lra.
Qed.

Lemma momentum_of_le (b d b' d' : R) :
  b * d <= b' * d' -> momentum_of b' d' <= momentum_of b d.
Proof.
  intros [H | H].
  - left. now apply momentum_of_lt.
  - right. rewrite !momentum_of_exp. now rewrite H.
Qed.

(** C8, as stated, fails: with [beta = 0] the momentum is the same at the
    distances 0 and 1, so it is not strictly decreasing in the distance
    for every non-negative [beta]. *)
Lemma momentum_flat_at_beta_zero :
  0 <= 0 /\ 0 <= 0 < 1 /\ ~ momentum_of 0 1 < momentum_of 0 0.
Proof.
  repeat split; try lra.
  rewrite !momentum_of_exp.
  replace (0 * 1) with 0 by ring. replace (0 * 0) with 0 by ring.
  lra.
Qed.

(** C8, amended: the momentum is strictly decreasing in the distance for
    every positive [beta], strictly decreasing in [beta] for every positive
    distance, non-increasing in either for non-negative values of the
    other, and 1 at distance 0. *)
Theorem momentum_monotone :
  (forall beta d1 d2 : R,
      0 < beta -> d1 < d2 -> momentum_of beta d2 < momentum_of beta d1) /\
  (forall d beta1 beta2 : R,
      0 < d -> beta1 < beta2 -> momentum_of beta2 d < momentum_of beta1 d) /\
  (forall beta d1 d2 : R,
      0 <= beta -> d1 <= d2 -> momentum_of beta d2 <= momentum_of beta d1) /\
  (forall d beta1 beta2 : R,
      0 <= d -> beta1 <= beta2 ->
      momentum_of beta2 d <= momentum_of beta1 d) /\
  (forall beta : R, momentum_of beta 0 = 1).
Proof.
  repeat split.
  - intros b d1 d2 Hb Hd. apply momentum_of_lt. nra.
  - intros d b1 b2 Hd Hb. apply momentum_of_lt. nra.
  - intros b d1 d2 Hb Hd. apply momentum_of_le. nra.
  - intros d b1 b2 Hd Hb. apply momentum_of_le. nra.
  - intros b. rewrite momentum_of_exp.
    replace (b * 0) with 0 by ring. rewrite Ropp_0. apply exp_0.
Qed.

Lemma momentum_monotone_witness :
  momentum_of 1 2 < momentum_of 1 1 /\ momentum_of 2 1 < momentum_of 1 1.
Proof.
  split.
  - apply (proj1 momentum_monotone 1 1 2); lra.
  - apply (proj1 (proj2 momentum_monotone) 1 1 2); lra.
Defined.

Lemma py_getitem_nonneg {A : Type} (l : list A) (i : int) (a : A) :
  (0 <= i)%Z -> nth_error l (Z.to_nat i) = Some a -> py_getitem l i = Ok a.
Proof.
  intros Hi Hn. unfold py_getitem.
  assert (Hlt : (Z.to_nat i < length l)%nat).
  { apply nth_error_Some. rewrite Hn. discriminate. }
  destruct (Z.ltb_spec i 0); [lia |].
  destruct (Z.leb_spec 0 i); [| lia].
  destruct (Z.ltb_spec i (Z.of_nat (length l))); [| lia].
  simpl. now rewrite Hn.
Qed.

Lemma py_getitem_last {A : Type} (l : list A) (a : A) :
  py_getitem (l ++ [a]) (-1) = Ok a.
Proof.
  unfold py_getitem. rewrite length_app. simpl length.
  replace (-1 <? 0)%Z with true by reflexivity.
  destruct (Z.leb_spec 0 (-1 + Z.of_nat (length l + 1))); [| lia].
  destruct (Z.ltb_spec (-1 + Z.of_nat (length l + 1))
              (Z.of_nat (length l + 1))); [| lia].
  cbv [andb].
  replace (Z.to_nat (-1 + Z.of_nat (length l + 1))) with (length l) by lia.
  rewrite nth_error_app2 by apply Nat.le_refl. now rewrite Nat.sub_diag.
Qed.

Section SchedulerProperties.

Context {Input Model : Type}.
Implicit Types self : adapter Input Model.

(** C9: for a domain index between 1 and the number of distances, the
    scheduler returns with [momentum = exp(-beta * distance)], where
    [distance] is the entry at index [domain_idx - 1] of [norm_dist_list],
    and records that value; with [beta = 1] the momentum is 1 at distance 0
    and 1/2 at distance [ln 2]. *)
Theorem calc_momentum_spec self (domain_idx : int) (distance : R) :
  (1 <= domain_idx)%Z ->
  nth_error (norm_dist_list self) (Z.to_nat (domain_idx - 1))
    = Some distance ->
  exists self',
    _calc_momentum self domain_idx = Ok self' /\
    momentum self' = exp (- (beta self * distance)) /\
    momentum_record_list self'
      = momentum_record_list self ++ [exp (- (beta self * distance))] /\
    (beta self = 1 -> distance = 0 -> momentum self' = 1) /\
    (beta self = 1 -> distance = ln 2 -> momentum self' = 1 / 2).
Proof.
  intros Hd Hn.
  exists (set_momentum self (momentum_of (beta self) distance)).
  unfold _calc_momentum.
  rewrite (py_getitem_nonneg _ _ distance) by (assumption || lia).
  simpl. rewrite momentum_of_exp. repeat split.
  - intros Hb H0. rewrite Hb, H0.
    replace (1 * 0) with 0 by ring. rewrite Ropp_0. apply exp_0.
  - intros Hb H2. rewrite Hb, H2. rewrite Rmult_1_l, exp_Ropp, exp_ln; lra.
Qed.

(** At domain index 0 the index is -1, which in Python reads the last
    distance of the list. *)
Lemma calc_momentum_domain_zero self (ds : list R) (distance : R) :
  norm_dist_list self = ds ++ [distance] ->
  _calc_momentum self 0
  = Ok (set_momentum self (momentum_of (beta self) distance)).
Proof.
  intros Hl. unfold _calc_momentum. rewrite Hl.
  change (0 - 1)%Z with (-1)%Z. now rewrite py_getitem_last.
Qed.

End SchedulerProperties.

Lemma calc_momentum_spec_witness :
  exists self' : adapter unit unit,
    _calc_momentum (@__init__ unit unit tt [] [] 1 [] [ln 2]) 1 = Ok self' /\
    momentum self' = 1 / 2.
Proof.
  destruct (calc_momentum_spec (@__init__ unit unit tt [] [] 1 [] [ln 2])
              1 (ln 2))
    as (self' & Hrun & _ & _ & _ & Hhalf).
  - lia.
  - reflexivity.
  - exists self'. split; [exact Hrun | now apply Hhalf].
Defined.

(** ** Indexed reads and writes of the tables *)

Lemma length_set_row (t : tensor) (i : nat) (r : row) :
  length (set_row t i r) = length t.
Proof.
  revert i; induction t as [| x t IH]; intros [| i]; simpl; auto.
Qed.

Lemma nth_error_set_row_eq (t : tensor) (i : nat) (r : row) :
  (i < length t)%nat -> nth_error (set_row t i r) i = Some r.
Proof.
  revert i; induction t as [| x t IH]; intros [| i] H; simpl in *;
    try lia; auto.
  apply IH. lia.
Qed.

Lemma nth_error_set_row_neq (t : tensor) (i j : nat) (r : row) :
  i <> j -> nth_error (set_row t i r) j = nth_error t j.
Proof.
  revert i j; induction t as [| x t IH]; intros [| i] [| j] H; simpl;
    try reflexivity; try congruence.
  apply IH. congruence.
Qed.

Lemma scatter_other (idx : list nat) :
  forall (t : tensor) (rows t' : tensor) (i : nat),
    scatter t idx rows = Ok t' -> ~ In i idx ->
    nth_error t' i = nth_error t i.
Proof.
  induction idx as [| i0 idx IH]; intros t rows t' i Hs Hi.
  - destruct rows; simpl in Hs; [| discriminate]. now inversion Hs.
  - destruct rows as [| r rows]; simpl in Hs; [discriminate |].
    destruct (i0 <? length t)%nat; [| discriminate].
    rewrite (IH _ _ _ i Hs).
    + apply nth_error_set_row_neq. intros ->. apply Hi. now left.
    + intros H. apply Hi. now right.
Qed.

(** Every row of a table after a write is a row of the table before it or
    one of the written rows. *)
Lemma scatter_Forall (P : row -> Prop) (idx : list nat) :
  forall (t rows t' : tensor),
    scatter t idx rows = Ok t' -> Forall P t -> Forall P rows -> Forall P t'.
Proof.
  induction idx as [| i0 idx IH]; intros t rows t' Hs Ht Hr.
  - destruct rows; simpl in Hs; [| discriminate]. now inversion Hs; subst.
  - destruct rows as [| r rows]; simpl in Hs; [discriminate |].
    destruct (i0 <? length t)%nat; [| discriminate].
    inversion Hr; subst.
    apply (IH _ _ _ Hs); [| assumption].
    clear - Ht H1. revert i0.
    induction Ht as [| x t Hx Ht IHt]; intros [| i0]; simpl;
      constructor; auto.
Qed.

Lemma gather_Forall (P : row -> Prop) (t : tensor) (idx : list nat) :
  forall rows, gather t idx = Ok rows -> Forall P t -> Forall P rows.
Proof.
  induction idx as [| i idx IH]; intros rows Hg Ht; simpl in Hg.
  - inversion Hg. constructor.
  - destruct (nth_error t i) as [r |] eqn:Hi; [| discriminate].
    inv_bind Hg. inversion Hg; subst. constructor.
    + rewrite Forall_forall in Ht. apply Ht. eapply nth_error_In; eauto.
    + now apply IH.
Qed.

(** Reading the rows [idx] of [T], mapping [f] over them and writing the
    result at [idx] into [t] leaves, at every index of [idx], the image
    under [f] of the row of [T]. *)
Lemma scatter_map_gather (f : row -> row) (T : tensor) (idx : list nat) :
  forall (rows t t' : tensor) (i : nat) (r : row),
    gather T idx = Ok rows ->
    scatter t idx (map f rows) = Ok t' ->
    In i idx -> nth_error T i = Some r ->
    nth_error t' i = Some (f r).
Proof.
  induction idx as [| i0 idx IH]; intros rows t t' i r Hg Hs Hin HT.
  - contradiction.
  - simpl in Hg. destruct (nth_error T i0) as [r0 |] eqn:H0; [| discriminate].
    inv_bind Hg. inversion Hg; subst rows; clear Hg.
    simpl in Hs. destruct (Nat.ltb_spec i0 (length t)); [| discriminate].
    destruct (in_dec Nat.eq_dec i idx) as [Hi | Hi].
    + eapply IH; eauto.
    + destruct Hin as [-> | Hin]; [| contradiction].
      rewrite (scatter_other _ _ _ _ i Hs Hi).
      rewrite nth_error_set_row_eq by assumption. congruence.
Qed.

(** ** L1 normalisation *)

Lemma sum_cons (x : R) (r : row) : sum (x :: r) = x + sum r.
Proof. reflexivity. Qed.

Lemma sum_map_div (r : row) (d : R) :
  sum (map (fun x => x / d) r) = sum r / d.
Proof.
  induction r as [| x r IH].
  - unfold sum; simpl. unfold Rdiv. ring.
  - rewrite map_cons, !sum_cons, IH. unfold Rdiv. ring.
Qed.

Lemma norm1_nonneg (r : row) :
  Forall (fun x => 0 <= x) r -> norm1 r = sum r.
Proof.
  unfold norm1. induction 1 as [| x r Hx Hr IH].
  - reflexivity.
  - rewrite map_cons, !sum_cons, IH. now rewrite Rabs_pos_eq.
Qed.

Lemma normalize_eps_pos : 0 < normalize_eps.
Proof. unfold normalize_eps. lra. Qed.

Lemma normalize_zero_row (r : row) :
  Forall (fun x => x = 0) r -> normalize r = r.
Proof.
  intros H. unfold normalize.
  induction H as [| x r Hx Hr IH]; simpl.
  - reflexivity.
  - f_equal.
    + subst x. unfold Rdiv. ring.
    + rewrite <- IH at 2. apply map_ext_in. intros y Hy.
      rewrite Forall_forall in Hr. rewrite (Hr y Hy).
      unfold Rdiv. ring.
Qed.


Lemma sum_map_exp_nonneg (r : row) : 0 <= sum (map exp r).
Proof.
  induction r as [| z r IH].
  - unfold sum; simpl. lra.
  - rewrite map_cons, sum_cons. pose proof (exp_pos z). lra.
Qed.

Lemma sum_map_exp_pos (r : row) (x : R) : In x r -> 0 < sum (map exp r).
Proof.
  destruct r as [| y r]; [contradiction |].
  intros _. rewrite map_cons, sum_cons.
  pose proof (exp_pos y). pose proof (sum_map_exp_nonneg r). lra.
Qed.

Lemma softmax_nonneg (r : row) : Forall (fun p => 0 <= p) (softmax r).
Proof.
  unfold softmax. rewrite Forall_forall. intros p Hp.
  apply in_map_iff in Hp. destruct Hp as (x & <- & Hx).
  pose proof (sum_map_exp_pos r x Hx). pose proof (exp_pos x).
  apply Rlt_le. now apply Rdiv_lt_0_compat.
Qed.

Lemma row_axpby_nonneg (a b : R) (x : row) :
  forall (y out : row),
    0 <= a -> 0 <= b -> nonneg_row x -> nonneg_row y ->
    row_axpby a x b y = Ok out -> nonneg_row out.
Proof.
  induction x as [| xi x IH]; intros [| yi y] out Ha Hb Hx Hy H;
    simpl in H; try discriminate.
  - inversion H. constructor.
  - apply bind_Ok in H. destruct H as (rest & Hrest & H).
    inversion H; subst out.
    inversion Hx as [| ? ? Hxi Hx']; subst.
    inversion Hy as [| ? ? Hyi Hy']; subst.
    constructor.
    + nra.
    + exact (IH y rest Ha Hb Hx' Hy' Hrest).
Qed.


Lemma bind_no_zero_division {A B : Type} (c : res A) (k : A -> res B) :
  no_zero_division c -> (forall a, no_zero_division (k a)) ->
  no_zero_division (bind c k).
Proof.
  unfold no_zero_division. destruct c as [a | e]; simpl; intros Hc Hk.
  - apply Hk.
  - intros H. apply Hc. now inversion H.
Qed.

Lemma gather_no_zero_division (t : tensor) (idx : list nat) :
  no_zero_division (gather t idx).
Proof.
  induction idx as [| i idx IH]; simpl; [discriminate |].
  destruct (nth_error t i); [| discriminate].
  apply bind_no_zero_division; [exact IH | discriminate].
Qed.

Lemma scatter_no_zero_division (idx : list nat) :
  forall t rows, no_zero_division (scatter t idx rows).
Proof.
  induction idx as [| i idx IH]; intros t [| r rows]; simpl;
    try discriminate.
  destruct (i <? length t)%nat; [apply IH | discriminate].
Qed.

Lemma row_axpby_no_zero_division (a b : R) (x : row) :
  forall y, no_zero_division (row_axpby a x b y).
Proof.
  induction x as [| xi x IH]; intros [| yi y]; simpl; try discriminate.
  apply bind_no_zero_division; [apply IH | discriminate].
Qed.

Lemma rows_axpby_no_zero_division (a b : R) (X : tensor) :
  forall Y, no_zero_division (rows_axpby a X b Y).
Proof.
  induction X as [| x X IH]; intros [| y Y]; simpl; try discriminate.
  apply bind_no_zero_division; [apply row_axpby_no_zero_division |].
  intros r. apply bind_no_zero_division; [apply IH | discriminate].
Qed.

(** ** The ensemble update *)

Section UpdateProperties.

Context {Input Model : Type}.
Variable forward : bool -> Model -> list Input -> tensor.
Implicit Types self : adapter Input Model.

Lemma update_batch_inv self (b : batch Input) self' :
  update_batch forward self b = Ok self' ->
  exists old new Z' rows z',
    gather (Z self) (batch_idx b) = Ok old /\
    rows_axpby (momentum self) old (1 - momentum self)
      (map softmax (forward false (model self) (batch_data b))) = Ok new /\
    scatter (Z self) (batch_idx b) new = Ok Z' /\
    gather Z' (batch_idx b) = Ok rows /\
    scatter (z self) (batch_idx b) (map normalize rows) = Ok z' /\
    self' = set_tables self Z' z'.
Proof.
  unfold update_batch. intros H.
  inv_bind H. inv_bind H. inv_bind H. inv_bind H. inv_bind H.
  inversion H; subst self'. repeat eexists; eauto.
Qed.

Lemma update_batch_normalized self b self' (i : nat) :
  update_batch forward self b = Ok self' ->
  In i (batch_idx b) -> normalized_at self' i.
Proof.
  intros H Hi r Hr.
  apply update_batch_inv in H.
  destruct H as (old & new & Z' & rows & z' & _ & _ & _ & Hg & Hs & ->).
  simpl in *. eapply scatter_map_gather; eauto.
Qed.

Lemma update_batch_untouched self b self' (i : nat) :
  update_batch forward self b = Ok self' ->
  ~ In i (batch_idx b) ->
  nth_error (Z self') i = nth_error (Z self) i /\
  nth_error (z self') i = nth_error (z self) i.
Proof.
  intros H Hi.
  apply update_batch_inv in H.
  destruct H as (old & new & Z' & rows & z' & _ & _ & HZ & _ & Hz & ->).
  simpl. split; eapply scatter_other; eauto.
Qed.

Lemma update_batch_frame self b self' :
  update_batch forward self b = Ok self' ->
  model self' = model self /\ momentum self' = momentum self /\
  beta self' = beta self /\
  trainloader_list self' = trainloader_list self /\
  norm_dist_list self' = norm_dist_list self /\
  pl_acc_list self' = pl_acc_list self /\
  momentum_record_list self' = momentum_record_list self.
Proof.
  intros H. apply update_batch_inv in H.
  destruct H as (old & new & Z' & rows & z' & _ & _ & _ & _ & _ & ->).
  simpl. repeat split.
Qed.


Lemma update_batch_no_zero_division self b :
  no_zero_division (update_batch forward self b).
Proof.
  unfold update_batch.
  apply bind_no_zero_division; [apply gather_no_zero_division | intros old].
  apply bind_no_zero_division;
    [apply rows_axpby_no_zero_division | intros new].
  apply bind_no_zero_division; [apply scatter_no_zero_division | intros Z'].
  apply bind_no_zero_division; [apply gather_no_zero_division | intros rows].
  apply bind_no_zero_division; [apply scatter_no_zero_division | intros z'].
  discriminate.
Qed.

(** A property of the adapter that every batch update preserves is
    preserved by [_update_Z]. *)
Lemma update_Z_preserves (P : adapter Input Model -> Prop) :
  (forall self b self',
      P self -> update_batch forward self b = Ok self' -> P self') ->
  forall self domain_idx self',
    P self -> _update_Z forward self domain_idx = Ok self' -> P self'.
Proof.
  intros Hstep.
  assert (Hloader : forall l self self',
             P self -> update_loader forward self l = Ok self' -> P self').
  { induction l as [| b l IH]; intros self self' HP H; simpl in H.
    - now inversion H; subst.
    - inv_bind H. eapply IH; [| exact H]. eapply Hstep; eauto. }
  assert (Hloaders : forall ls d domain_idx self self',
             P self ->
             update_loaders forward self domain_idx d ls = Ok self' ->
             P self').
  { induction ls as [| l ls IH]; intros d di self self' HP H; simpl in H.
    - now inversion H; subst.
    - destruct (Z.of_nat d <? di)%Z.
      + eapply IH; eauto.
      + inv_bind H. eapply IH; [| exact H]. eapply Hloader; eauto. }
  intros self di self' HP H. unfold _update_Z in H.
  eapply Hloaders; eauto.
Qed.

Lemma update_Z_no_zero_division self (domain_idx : int) :
  no_zero_division (_update_Z forward self domain_idx).
Proof.
  assert (Hloader : forall l self,
             no_zero_division (update_loader forward self l)).
  { induction l as [| b l IH]; intros s; simpl; [discriminate |].
    apply bind_no_zero_division;
      [apply update_batch_no_zero_division | intros; apply IH]. }
  unfold _update_Z. generalize (trainloader_list self) as ls.
  generalize O as d. revert self.
  intros self d ls; revert self d.
  induction ls as [| l ls IH]; intros s d; simpl; [discriminate |].
  destruct (Z.of_nat d <? domain_idx)%Z; [apply IH |].
  apply bind_no_zero_division; [apply Hloader | intros; apply IH].
Qed.

Lemma update_batch_zero_rows self b self' :
  zero_rows_kept self -> update_batch forward self b = Ok self' ->
  zero_rows_kept self'.
Proof.
  intros Hinv H i r Hr H0.
  destruct (in_dec Nat.eq_dec i (batch_idx b)) as [Hi | Hi].
  - rewrite (update_batch_normalized _ _ _ _ H Hi r Hr).
    now rewrite normalize_zero_row.
  - destruct (update_batch_untouched _ _ _ _ H Hi) as [HZ Hz].
    rewrite Hz. apply Hinv; [congruence | assumption].
Qed.

(** C10: normalising an all-zero row returns it unchanged (the
    denominator is clamped at [eps]); [_update_Z] never raises a division
    error; every batch update leaves, for each sample id of the batch whose
    row of [Z] is all-zero, an all-zero row of [z]; and when every all-zero
    row of [Z] has the same all-zero row in [z] before [_update_Z] (as in
    the all-zero tables the adapter starts from), this is so after it as
    well, for visited and unvisited ids. *)
Theorem update_Z_zero_rows self (domain_idx : int) self' :
  zero_rows_kept self ->
  _update_Z forward self domain_idx = Ok self' ->
  (forall r, zero_row r -> normalize r = r) /\
  no_zero_division (_update_Z forward self domain_idx) /\
  (forall s b s' i r,
      update_batch forward s b = Ok s' -> In i (batch_idx b) ->
      nth_error (Z s') i = Some r -> zero_row r ->
      nth_error (z s') i = Some r) /\
  zero_rows_kept self'.
Proof.
  intros Hinv H. split; [| split; [| split]].
  - apply normalize_zero_row.
  - apply update_Z_no_zero_division.
  - intros s b s' i r Hb Hi Hr H0.
    rewrite (update_batch_normalized _ _ _ _ Hb Hi r Hr).
    now rewrite normalize_zero_row.
  - eapply (update_Z_preserves zero_rows_kept); eauto.
    intros s b s' Hs Hb. eapply update_batch_zero_rows; eauto.
Qed.



End UpdateProperties.

Lemma softmax_zeros2 : softmax [0; 0] = [1 / 2; 1 / 2].
Proof.
  unfold softmax. cbn [map sum fold_right]. rewrite exp_0.
  repeat f_equal; lra.
Qed.

Lemma softmax_trained : softmax Toy.trained = [3 / 4; 1 / 4].
Proof.
  unfold softmax, Toy.trained. cbn [map sum fold_right].
  rewrite exp_0, exp_ln by lra. repeat f_equal; lra.
Qed.

(** Runs [_update_Z] on the instance. *)
Ltac run_update :=
  cbv [_update_Z update_loaders update_loader update_batch Toy.state
       Toy.fresh Toy.loaders Toy.zeros __init__];
  cbn [model Z z momentum trainloader_list batch_idx batch_data Toy.forward
       map fst snd gather nth_error bind Z.of_nat Z.ltb Z.compare
       Pos.of_succ_nat Pos.succ Pos.compare Pos.compare_cont];
  rewrite ?softmax_zeros2, ?softmax_trained;
  cbn [rows_axpby row_axpby bind scatter Nat.ltb Nat.leb length set_row
       gather nth_error map set_tables model Z z momentum];
  rewrite ?softmax_zeros2, ?softmax_trained;
  cbn [rows_axpby row_axpby bind scatter Nat.ltb Nat.leb length set_row
       gather nth_error map set_tables model Z z momentum].




Lemma update_Z_zero_rows_witness :
  exists self',
    _update_Z Toy.forward
      (Toy.state [0; 0] Toy.zeros Toy.zeros 1 [] []) 2 = Ok self' /\
    zero_rows_kept self'.
Proof.
  eexists. split; [run_update; reflexivity |].
  refine (proj2 (proj2 (proj2 (update_Z_zero_rows Toy.forward
                                 (Toy.state [0; 0] Toy.zeros Toy.zeros 1
                                    [] [])
                                 2 _ _ _)))).
  - intros i r Hr H0. exact Hr.
  - run_update. reflexivity.
Defined.

(** ** The pseudo-label loss *)

Lemma length_log_softmax (r : row) : length (log_softmax r) = length r.
Proof. unfold log_softmax. apply length_map. Qed.

Lemma nll_loss_well_shaped (sl ep : tensor) :
  well_shaped sl ep ->
  nll_loss (map log_softmax sl) (map argmax ep) = Ok (teacher_nlls sl ep).
Proof.
  induction 1 as [| l p sl ep Hlt Hrest IH]; simpl.
  - reflexivity.
  - destruct (nth_error (log_softmax l) (argmax p)) as [v |] eqn:Hv.
    + rewrite IH. simpl. unfold teacher_nll.
      now rewrite (nth_error_nth _ _ 0 Hv).
    + apply nth_error_None in Hv. rewrite length_log_softmax in Hv. lia.
Qed.

Lemma mul_mask_teacher_nlls (alpha : R) (sl ep : tensor) :
  well_shaped sl ep ->
  sum (mul_mask (teacher_nlls sl ep) (map (masked_in alpha) ep))
    = masked_nll_sum alpha sl ep /\
  length (mul_mask (teacher_nlls sl ep) (map (masked_in alpha) ep))
    = length sl.
Proof.
  induction 1 as [| l p sl ep Hlt Hrest [IHs IHl]].
  - split; reflexivity.
  - cbn [teacher_nlls map mul_mask masked_nll_sum length].
    rewrite sum_cons, IHs, IHl. split; [| reflexivity].
    destruct (masked_in alpha p); ring.
Qed.

Lemma mask_sum_masked_count (alpha : R) (ep : tensor) :
  mask_sum (map (masked_in alpha) ep) = masked_count alpha ep.
Proof.
  unfold mask_sum, masked_count.
  induction ep as [| p ep IH]; simpl; [reflexivity |].
  destruct (masked_in alpha p); simpl; congruence.
Qed.

(** The value [_pseudo_label_loss] returns on well-shaped tensors. *)
Lemma pseudo_label_loss_eval (sl ep : tensor) (alpha : R) :
  well_shaped sl ep ->
  _pseudo_label_loss sl ep alpha
    = Ok (match sl with
          | [] => NaN
          | _ :: _ => Fin (masked_nll_sum alpha sl ep / INR (length sl))
          end,
          map (masked_in alpha) ep).
Proof.
  intros Hw. unfold _pseudo_label_loss.
  rewrite (nll_loss_well_shaped sl ep Hw). cbn [bind].
  rewrite map_map.
  change (map (fun x : row => Rleb alpha (confidence_of x)) ep)
    with (map (masked_in alpha) ep).
  destruct (mul_mask_teacher_nlls alpha sl ep Hw) as [Hs Hl].
  f_equal. f_equal. unfold mean.
  destruct (mul_mask (teacher_nlls sl ep) (map (masked_in alpha) ep))
    as [| v vs] eqn:Hm.
  - destruct sl; [reflexivity | discriminate].
  - destruct sl as [| l sl]; [discriminate |].
    now rewrite Hs, Hl.
Qed.

Lemma masked_nll_sum_all_out (alpha : R) (sl ep : tensor) :
  Forall (fun p => confidence_of p < alpha) ep ->
  masked_nll_sum alpha sl ep = 0 /\
  map (masked_in alpha) ep = repeat false (length ep).
Proof.
  intros H. revert sl.
  induction H as [| p ep Hp Hrest IH]; intros sl.
  - split; [destruct sl; reflexivity | reflexivity].
  - assert (Hm : masked_in alpha p = false)
      by (unfold masked_in; now apply Rleb_false).
    cbn [map length repeat]. rewrite Hm.
    destruct sl as [| l sl].
    + destruct (IH []) as [_ Hr]. now rewrite Hr.
    + destruct (IH sl) as [Hs Hr]. cbn [masked_nll_sum].
      rewrite Hm, Hs, Hr. split; [ring | reflexivity].
Qed.

Lemma teacher_nll_zeros2 (p : row) :
  argmax p = O -> teacher_nll [0; 0] p = ln 2.
Proof.
  intros Hp. unfold teacher_nll, log_softmax. rewrite Hp.
  cbn [map sum fold_right nth]. rewrite exp_0.
  replace (1 + (1 + 0)) with 2 by ring. ring.
Qed.

Lemma ln_2_pos : 0 < ln 2.
Proof. pose proof ln_lt_2. lra. Qed.

(** Settles the comparisons of concrete real numbers in the goal,
    innermost first. *)
Ltac no_decision t :=
  lazymatch t with
  | context [Rle_dec _ _] => fail
  | context [Rlt_dec _ _] => fail
  | _ => idtac
  end.

Ltac Rdecide :=
  cbv [Rleb Rltb Rmax Rmin];
  repeat match goal with
         | |- context [Rle_dec ?a ?b] =>
             no_decision a; no_decision b;
             destruct (Rle_dec a b); try (exfalso; lra)
         | |- context [Rlt_dec ?a ?b] =>
             no_decision a; no_decision b;
             destruct (Rlt_dec a b); try (exfalso; lra)
         end;
  try lra.

(** C1, as stated, fails: on a batch of two samples of which one is masked
    in, the code returns [ln 2 / 2] (the sum over the masked-in sample
    divided by the batch size 2), while the mean over the masked-in
    samples is [ln 2]. *)
Lemma batch_mean_is_not_masked_mean :
  _pseudo_label_loss [[0; 0]; [0; 0]] [[1; 0]; [1 / 2; 1 / 2]] (1 / 2)
    = Ok (Fin (ln 2 / 2), [true; false]) /\
  masked_mean_loss (1 / 2) [[0; 0]; [0; 0]] [[1; 0]; [1 / 2; 1 / 2]] = ln 2 /\
  ln 2 / 2 <> ln 2.
Proof.
  assert (Ha : argmax [1; 0] = O) by (cbv [argmax argmax_from]; now Rdecide).
  assert (Hb : argmax [1 / 2; 1 / 2] = O)
    by (cbv [argmax argmax_from]; now Rdecide).
  assert (Hm1 : masked_in (1 / 2) [1; 0] = true)
    by (cbv [masked_in confidence_of amax amin]; now Rdecide).
  assert (Hm2 : masked_in (1 / 2) [1 / 2; 1 / 2] = false)
    by (cbv [masked_in confidence_of amax amin]; now Rdecide).
  pose proof ln_2_pos as Hln.
  split; [| split].
  - rewrite pseudo_label_loss_eval.
    + cbn [masked_nll_sum map length]. rewrite Hm1, Hm2.
      rewrite (teacher_nll_zeros2 _ Ha). do 3 f_equal. simpl. lra.
    + unfold well_shaped. repeat apply Forall2_cons; try apply Forall2_nil;
        rewrite ?Ha, ?Hb; simpl; lia.
  - unfold masked_mean_loss, masked_count.
    cbn [masked_nll_sum filter]. rewrite Hm1, Hm2.
    rewrite (teacher_nll_zeros2 _ Ha). simpl. lra.
  - lra.
Qed.

(** C1, amended: on well-shaped tensors of a non-empty batch the loss is
    the sum, over the masked-in samples only, of the negative
    log-likelihood of the teacher label under the log-softmax of the student
    logits, divided by the batch size: samples that are masked out add
    zero to the numerator and are counted in the denominator.  It is the
    mean over the masked-in samples when every sample is masked in. *)
Theorem pseudo_label_loss_batch_mean (sl ep : tensor) (alpha : R) :
  well_shaped sl ep -> sl <> [] ->
  _pseudo_label_loss sl ep alpha
    = Ok (Fin (masked_nll_sum alpha sl ep / INR (length sl)),
          map (masked_in alpha) ep) /\
  mask_sum (map (masked_in alpha) ep) = masked_count alpha ep /\
  (masked_count alpha ep = length sl ->
   masked_nll_sum alpha sl ep / INR (length sl)
     = masked_mean_loss alpha sl ep).
Proof.
  intros Hw Hne. split; [| split].
  - rewrite (pseudo_label_loss_eval sl ep alpha Hw).
    destruct sl; [contradiction | reflexivity].
  - apply mask_sum_masked_count.
  - intros Hall. unfold masked_mean_loss. now rewrite Hall.
Qed.

Lemma pseudo_label_loss_batch_mean_witness :
  _pseudo_label_loss [[0; 0]] [[1; 0]] (1 / 2)
    = Ok (Fin (masked_nll_sum (1 / 2) [[0; 0]] [[1; 0]] / INR 1),
          map (masked_in (1 / 2)) [[1; 0]]).
Proof.
  apply (pseudo_label_loss_batch_mean [[0; 0]] [[1; 0]] (1 / 2)).
  - unfold well_shaped. apply Forall2_cons; [| apply Forall2_nil].
    cbv [argmax argmax_from]. Rdecide. simpl. lia.
  - discriminate.
Defined.

(** C2, as stated, fails: on a batch whose only sample is masked out the
    loss computation returns normally, with the loss 0 and the all-False
    mask; no error is raised. *)
Lemma all_masked_out_returns_zero :
  confidence_of [1 / 2; 1 / 2] < 1 /\
  _pseudo_label_loss [[0; 0]] [[1 / 2; 1 / 2]] 1 = Ok (Fin 0, [false]).
Proof.
  assert (Hc : confidence_of [1 / 2; 1 / 2] < 1)
    by (cbv [confidence_of amax amin]; Rdecide).
  split; [exact Hc |].
  rewrite pseudo_label_loss_eval.
  - destruct (masked_nll_sum_all_out 1 [[0; 0]] [[1 / 2; 1 / 2]]) as [Hs Hm].
    + repeat constructor. exact Hc.
    + rewrite Hs, Hm. simpl. do 3 f_equal. lra.
  - unfold well_shaped. apply Forall2_cons; [| apply Forall2_nil].
    cbv [argmax argmax_from]. Rdecide. simpl. lia.
Qed.

Lemma mask_sum_repeat_false (n : nat) : mask_sum (repeat false n) = O.
Proof. unfold mask_sum. induction n; simpl; auto. Qed.

(** The loss and the mask on a batch of which every sample is masked out,
    whatever the size of the batch. *)
Lemma pseudo_label_loss_all_out (sl ep : tensor) (alpha : R) :
  well_shaped sl ep ->
  Forall (fun p => confidence_of p < alpha) ep ->
  exists loss,
    _pseudo_label_loss sl ep alpha = Ok (loss, repeat false (length ep)) /\
    (sl <> [] -> loss = Fin 0).
Proof.
  intros Hw Hout.
  destruct (masked_nll_sum_all_out alpha sl ep Hout) as [Hs Hm].
  rewrite (pseudo_label_loss_eval sl ep alpha Hw), Hm, Hs.
  eexists. split; [reflexivity |].
  intros Hne. destruct sl as [| l sl]; [contradiction |].
  f_equal. unfold Rdiv. ring.
Qed.

Section LossProperties.

Context {Input Model Optimizer : Type}.
Variable forward : bool -> Model -> list Input -> tensor.
Variable optimizer_step :
  Optimizer -> Model -> list Input -> tensor -> R -> Model * Optimizer.
Variable validator : tensor -> pyfloat.
Implicit Types self : adapter Input Model.

Lemma train_batches_all_out self (alpha : R) (l : loader Input) :
  Forall (batch_masked_out forward self alpha) l ->
  forall model optimizer total_loss total_num total_logits,
  exists model' optimizer' total_loss' total_logits',
    train_batches forward optimizer_step self alpha l model optimizer
      total_loss total_num total_logits
    = Ok (model', optimizer', total_loss', total_num, total_logits').
Proof.
  induction 1 as [| b l (ep & Hg & Hout & Hw) Hrest IH];
    intros mo opt tl tn tlog.
  - simpl. repeat eexists.
  - simpl. rewrite Hg. cbn [bind].
    destruct (pseudo_label_loss_all_out _ _ alpha (Hw mo) Hout)
      as (loss & Hloss & _).
    rewrite Hloss. cbn [bind].
    destruct (optimizer_step opt mo (batch_data b) ep alpha) as [mo' opt'].
    rewrite mask_sum_repeat_false, Nat.add_0_r. apply IH.
Qed.

(** The epoch raises [ZeroDivisionError] when no sample of any of its
    batches is masked in. *)
Lemma train_epoch_all_out self (alpha : R) (l : loader Input)
    (model : Model) (optimizer : Optimizer) :
  Forall (batch_masked_out forward self alpha) l ->
  _adapt_train_epoch forward optimizer_step validator self model l
    optimizer alpha = Raise ZeroDivisionError.
Proof.
  intros H. unfold _adapt_train_epoch.
  destruct (train_batches_all_out self alpha l H model optimizer (Fin 0) O [])
    as (mo' & opt' & tl' & tlog' & Hrun).
  rewrite Hrun. reflexivity.
Qed.

(** C2, amended: when every sample of a non-empty, well-shaped batch is
    masked out, [_pseudo_label_loss] raises nothing and returns the loss 0
    (not NaN) with the all-False mask; the only error is the
    [ZeroDivisionError] of [_adapt_train_epoch], raised when the batches of
    the whole epoch are all masked out. *)
Theorem masked_out_batch_loss (sl ep : tensor) (alpha : R) :
  well_shaped sl ep -> sl <> [] ->
  Forall (fun p => confidence_of p < alpha) ep ->
  _pseudo_label_loss sl ep alpha = Ok (Fin 0, repeat false (length ep)) /\
  forall self (l : loader Input) (model : Model) (optimizer : Optimizer),
    Forall (batch_masked_out forward self alpha) l ->
    _adapt_train_epoch forward optimizer_step validator self model l
      optimizer alpha = Raise ZeroDivisionError.
Proof.
  intros Hw Hne Hout. split.
  - destruct (pseudo_label_loss_all_out sl ep alpha Hw Hout)
      as (loss & Hloss & Hfin).
    now rewrite Hloss, (Hfin Hne).
  - intros self l mo opt H. now apply train_epoch_all_out.
Qed.

End LossProperties.

Lemma masked_out_batch_loss_witness :
  _pseudo_label_loss [[0; 0]] [[1 / 2; 1 / 2]] 1
    = Ok (Fin 0, repeat false (length [[1 / 2; 1 / 2]])).
Proof.
  refine (proj1 (masked_out_batch_loss Toy.forward Toy.optimizer_step
                   Toy.validator [[0; 0]] [[1 / 2; 1 / 2]] 1 _ _ _)).
  - unfold well_shaped. apply Forall2_cons; [| apply Forall2_nil].
    cbv [argmax argmax_from]. Rdecide. simpl. lia.
  - discriminate.
  - apply Forall_cons; [| apply Forall_nil].
    cbv [confidence_of amax amin]. Rdecide.
Defined.

(** ** The confidence threshold *)

Lemma quantile_rank_zero (x : R) (l : list R) (q : R) :
  0 <= q <= 1 -> q * INR (length l) = 0 ->
  quantile (x :: l) q = Ok (nth 0 (sort (x :: l)) 0).
Proof.
  intros Hq Hrank. unfold quantile.
  rewrite !Rleb_true by lra. cbn [andb length].
  rewrite Nat.sub_succ, Nat.sub_0_r, Hrank.
  rewrite (Zfloor_eq 0 0), (Zceil_eq 0 0) by (simpl; lra).
  simpl Z.to_nat. unfold lerp. simpl INR. f_equal. ring.
Qed.

Lemma quantile_singleton (c q : R) :
  0 <= q <= 1 -> quantile [c] q = Ok c.
Proof.
  intros Hq. rewrite quantile_rank_zero; [reflexivity | assumption |].
  simpl. ring.
Qed.

Lemma confidence_of_pair (a b : R) : b <= a -> confidence_of [a; b] = a - b.
Proof.
  intros H. unfold confidence_of, amax, amin.
  now rewrite Rmax_left, Rmin_right.
Qed.

Lemma argmax_pair (a b : R) : b <= a -> argmax [a; b] = O.
Proof. intros H. cbv [argmax argmax_from]. now rewrite Rltb_false. Qed.

Lemma normalize_pair (a b : R) :
  0 <= a -> 0 <= b -> normalize_eps <= a + b ->
  normalize [a; b] = [a / (a + b); b / (a + b)].
Proof.
  intros Ha Hb Hn. unfold normalize, norm1.
  cbn [map]. rewrite !sum_cons. unfold sum at 1 2. cbn [fold_right].
  rewrite !Rabs_pos_eq by assumption.
  rewrite Rplus_0_r, Rmax_left by lra. reflexivity.
Qed.

Lemma normalize_eps_small : normalize_eps <= 1.
Proof. unfold normalize_eps. lra. Qed.

(** ** The selection of the best candidate *)

Lemma fgt_not_nan_l (a b : pyfloat) : fgt a b = true -> a <> NaN.
Proof. destruct a; simpl; intros H; discriminate. Qed.

Lemma fgt_trans (a b c : pyfloat) :
  fgt a b = true -> fgt b c = true -> fgt a c = true.
Proof.
  destruct a, b, c; simpl; intros H1 H2; try discriminate; try reflexivity.
  apply Rltb_spec in H1, H2. apply Rltb_true. lra.
Qed.

(** A score that does not beat [b] is beaten by everything that beats
    [b], unless it is [nan]. *)
Lemma fgt_le_lt (s b w : pyfloat) :
  fgt s b = false -> b <> NaN -> fgt w b = true ->
  fgt w s = true \/ s = NaN.
Proof.
  destruct s, b, w; simpl; intros H1 Hb H2;
    try discriminate; try contradiction; auto.
  left. apply Rltb_spec in H2. apply Rltb_true.
  unfold Rltb in H1. destruct (Rlt_dec r0 r); [discriminate | lra].
Qed.

(** The selection loop from a best score that is not [nan]: either no
    item beats the best score and the best model is unchanged, or the
    result is the model of the first item that beats the best score, every
    item before it, and is beaten by no item after it. *)
Lemma select_best_loop {Model : Type} (items : performance_dict Model) :
  forall (best : pyfloat) (bm : option Model),
    best <> NaN ->
    (select_best items best bm = bm /\
     forall it, In it items -> fgt (score_of it) best = false) \/
    (exists pre q m s post,
        items = pre ++ (q, (m, s)) :: post /\
        select_best items best bm = Some m /\
        fgt s best = true /\
        (forall it, In it pre ->
                    fgt s (score_of it) = true \/ score_of it = NaN) /\
        (forall it, In it post -> fgt (score_of it) s = false)).
Proof.
  induction items as [| [q [m s]] items IH]; intros best bm Hbest.
  - left. split; [reflexivity | intros it []].
  - simpl. destruct (fgt s best) eqn:Hs.
    + destruct (IH s (Some m) (fgt_not_nan_l _ _ Hs))
        as [[Hres Hall]
           | (pre & q' & m' & s' & post & -> & Hres & Hw & Hpre & Hpost)].
      * right. exists [], q, m, s, items.
        split; [reflexivity |]. split; [exact Hres |].
        split; [exact Hs |]. split; [intros it [] | exact Hall].
      * right. exists ((q, (m, s)) :: pre), q', m', s', post.
        split; [reflexivity |]. split; [exact Hres |].
        split; [eapply fgt_trans; eauto |]. split; [| exact Hpost].
        intros it [<- | Hin]; [left; exact Hw | now apply Hpre].
    + destruct (IH best bm Hbest)
        as [[Hres Hall]
           | (pre & q' & m' & s' & post & -> & Hres & Hw & Hpre & Hpost)].
      * left. split; [assumption |].
        intros it [<- | Hin]; [exact Hs | now apply Hall].
      * right. exists ((q, (m, s)) :: pre), q', m', s', post.
        split; [reflexivity |]. split; [exact Hres |].
        split; [exact Hw |]. split; [| exact Hpost].
        intros it [<- | Hin]; [| now apply Hpre].
        unfold score_of; simpl. eapply fgt_le_lt; eauto.
Qed.

Lemma select_best_none {Model : Type} (items : performance_dict Model) :
  (forall it, In it items -> fgt (score_of it) NInf = false) ->
  select_best items NInf None = None.
Proof.
  intros Hall.
  destruct (select_best_loop items NInf None)
    as [[Hres _] | (pre & q & m & s & post & -> & _ & Hw & _)];
    [discriminate | assumption |].
  specialize (Hall (q, (m, s))). unfold score_of in Hall; simpl in Hall.
  rewrite Hall in Hw; [discriminate |].
  apply in_or_app. right. now left.
Qed.

Lemma select_best_some {Model : Type} (items : performance_dict Model) :
  (exists it, In it items /\ fgt (score_of it) NInf = true) ->
  exists pre q m s post,
    items = pre ++ (q, (m, s)) :: post /\
    select_best items NInf None = Some m /\
    fgt s NInf = true /\
    (forall it, In it pre ->
                fgt s (score_of it) = true \/ score_of it = NaN) /\
    (forall it, In it post -> fgt (score_of it) s = false).
Proof.
  intros (it & Hin & Hv).
  destruct (select_best_loop items NInf None) as [[_ Hall] | H];
    [discriminate | | exact H].
  rewrite (Hall it Hin) in Hv. discriminate.
Qed.

Lemma select_best_second {Model : Type} (q1 q2 : R) (m1 m2 : Model) :
  select_best [(q1, (m1, Fin 0.7)); (q2, (m2, Fin 0.9))] NInf None = Some m2.
Proof.
  simpl. now rewrite Rltb_true by lra.
Qed.

(** ** The per-domain sweep *)

Section SweepProperties.

Context {Input Model Optimizer : Type}.
Variable forward : bool -> Model -> list Input -> tensor.
Variable Adam : Model -> R -> Optimizer.
Variable optimizer_step :
  Optimizer -> Model -> list Input -> tensor -> R -> Model * Optimizer.
Variable validator : tensor -> pyfloat.
Implicit Types self : adapter Input Model.

Local Abbreviation train_eval :=
  (_adapt_train_eval forward Adam optimizer_step validator).
Local Abbreviation run_sweep := (sweep forward Adam optimizer_step validator).
Local Abbreviation run_adapt := (adapt forward Adam optimizer_step validator).

Lemma update_Z_frame self (domain_idx : int) u :
  _update_Z forward self domain_idx = Ok u ->
  same_settings self u /\ momentum u = momentum self /\
  pl_acc_list u = pl_acc_list self /\
  momentum_record_list u = momentum_record_list self.
Proof.
  apply (update_Z_preserves forward
           (fun s => same_settings self s /\ momentum s = momentum self /\
                     pl_acc_list s = pl_acc_list self /\
                     momentum_record_list s = momentum_record_list self)).
  - intros s b s' ((Hm & Hb & Hl & Hn) & Hmo & Hp & Hr) Hs.
    apply update_batch_frame in Hs.
    destruct Hs as (Hm' & Hmo' & Hb' & Hl' & Hn' & Hp' & Hr').
    unfold same_settings. repeat split; congruence.
  - unfold same_settings. repeat split.
Qed.

(** What a successful [_adapt_train_eval] did to the adapter: one
    [_update_Z], one entry appended to [pl_acc_list], one call of the
    scheduler. *)
Lemma adapt_train_eval_inv self (domain_idx : int) (q : R) (a : args)
    self' (m' : Model) (score : pyfloat) :
  train_eval self domain_idx q a = Ok (self', (m', score)) ->
  exists u pl_acc dist,
    _update_Z forward self domain_idx = Ok u /\
    py_getitem (norm_dist_list self) (domain_idx - 1)%Z = Ok dist /\
    self' = set_momentum (append_pl_acc u pl_acc)
              (momentum_of (beta self) dist).
Proof.
  unfold _adapt_train_eval. intros H.
  apply bind_Ok in H. destruct H as (u & Hu & H).
  apply bind_Ok in H. destruct H as (train_loader & Hl & H).
  apply bind_Ok in H. destruct H as (alpha & Ha & H).
  apply bind_Ok in H. destruct H as ([mo last] & He & H).
  destruct last as [[train_score pl_acc] |]; [| discriminate].
  apply bind_Ok in H. destruct H as (s & Hs & H).
  inversion H; subst s m' score; clear H.
  unfold _calc_momentum in Hs.
  apply bind_Ok in Hs. destruct Hs as (dist & Hd & Hs).
  inversion Hs; subst self'; clear Hs.
  destruct (update_Z_frame _ _ _ Hu) as ((_ & Hb & _ & Hn) & _).
  simpl in Hd. rewrite Hn in Hd.
  exists u, pl_acc, dist. simpl. now rewrite Hb.
Qed.

Lemma sweep_inv (domain_idx : int) (a : args) (qs : list R) :
  forall self perf self' perf',
    run_sweep self domain_idx qs a perf = Ok (self', perf') ->
    same_settings self self' /\
    (exists pls, pl_acc_list self' = pl_acc_list self ++ pls /\
                 length pls = length qs) /\
    (qs = [] \/
     exists dist,
       py_getitem (norm_dist_list self) (domain_idx - 1)%Z = Ok dist /\
       momentum self' = momentum_of (beta self) dist /\
       momentum_record_list self'
         = momentum_record_list self
           ++ repeat (momentum_of (beta self) dist) (length qs)).
Proof.
  induction qs as [| q qs IH]; intros self perf self' perf' H; simpl in H.
  - inversion H; subst.
    split; [unfold same_settings; repeat split |].
    split; [exists []; now rewrite app_nil_r | now left].
  - apply bind_Ok in H. destruct H as ([c [mo sc]] & Hc & H).
    destruct (adapt_train_eval_inv _ _ _ _ _ _ _ Hc)
      as (u & pl & dist & Hu & Hd & ->).
    destruct (update_Z_frame _ _ _ Hu)
      as ((Hm & Hb & Hl & Hn) & Hmo & Hp & Hr).
    destruct (IH _ _ _ _ H)
      as ((Hm' & Hb' & Hl' & Hn') & (pls & Hpls & Hlen) & Hrec).
    simpl in Hm', Hb', Hl', Hn', Hpls, Hrec.
    split; [| split].
    + unfold same_settings. repeat split; congruence.
    + exists (pl :: pls). split; [| simpl; congruence].
      rewrite Hpls, Hp, <- app_assoc. reflexivity.
    + right. exists dist. split; [exact Hd |].
      destruct Hrec as [-> | (dist' & Hd' & Hmo' & Hrec)].
      * simpl in H. inversion H; subst self'. simpl.
        rewrite Hr. auto.
      * rewrite Hn in Hd'. rewrite Hd in Hd'.
        inversion Hd'; subst dist'.
        rewrite Hmo', Hrec. simpl.
        rewrite Hb, Hr, <- app_assoc. simpl. auto.
Qed.

Lemma adapt_inv self (domain_idx : int) (qs : list R) (a : args) self' :
  run_adapt self domain_idx qs a = Ok self' ->
  exists last perf,
    run_sweep self domain_idx qs a [] = Ok (last, perf) /\
    select_best perf NInf None = Some (model self') /\
    self' = set_model last (model self').
Proof.
  unfold adapt. intros H.
  apply bind_Ok in H. destruct H as ([last perf] & Hs & H).
  destruct (select_best perf NInf None) as [best |] eqn:Hb; [| discriminate].
  inversion H; subst self'. exists last, perf. simpl. auto.
Qed.

(** An empty sweep selects nothing. *)
Lemma adapt_empty_sweep self (domain_idx : int) (a : args) :
  run_adapt self domain_idx [] a = Raise AttributeError.
Proof. reflexivity. Qed.

(** [_update_Z] reads the live model, the two tables, the momentum and
    the loaders only: on two adapters that agree on them it returns
    adapters that agree on them. *)
Lemma update_batch_same self t (b : batch Input) self' :
  same_run self t -> update_batch forward self b = Ok self' ->
  exists t', update_batch forward t b = Ok t' /\ same_run self' t'.
Proof.
  intros (Hm & HZ & Hz & Hmo & Hl) H. unfold update_batch in *.
  rewrite Hm, HZ, Hz, Hmo.
  apply bind_Ok in H. destruct H as (old & Ho & H). rewrite Ho. cbn [bind].
  apply bind_Ok in H. destruct H as (new & Hn & H). rewrite Hn. cbn [bind].
  apply bind_Ok in H. destruct H as (Z' & HZ' & H). rewrite HZ'. cbn [bind].
  apply bind_Ok in H. destruct H as (rows & Hr & H). rewrite Hr. cbn [bind].
  apply bind_Ok in H. destruct H as (z' & Hz' & H). rewrite Hz'. cbn [bind].
  inversion H; subst self'. eexists. split; [reflexivity |].
  unfold same_run. simpl. auto.
Qed.

Lemma update_loader_same (l : loader Input) :
  forall self t self',
    same_run self t -> update_loader forward self l = Ok self' ->
    exists t', update_loader forward t l = Ok t' /\ same_run self' t'.
Proof.
  induction l as [| b l IH]; intros self t self' Hs H; simpl in H.
  - inversion H; subst. exists t. auto.
  - apply bind_Ok in H. destruct H as (s1 & Hb & H).
    destruct (update_batch_same _ _ _ _ Hs Hb) as (t1 & Ht1 & Hs1).
    destruct (IH _ _ _ Hs1 H) as (t' & Ht' & Hs').
    exists t'. split; [| exact Hs']. simpl. rewrite Ht1. exact Ht'.
Qed.

Lemma update_loaders_same (domain_idx : int) (ls : list (loader Input)) :
  forall d self t self',
    same_run self t ->
    update_loaders forward self domain_idx d ls = Ok self' ->
    exists t',
      update_loaders forward t domain_idx d ls = Ok t' /\ same_run self' t'.
Proof.
  induction ls as [| l ls IH]; intros d self t self' Hs H; simpl in H.
  - inversion H; subst. exists t. auto.
  - simpl. destruct (Z.of_nat d <? domain_idx)%Z.
    + apply (IH _ _ _ _ Hs H).
    + apply bind_Ok in H. destruct H as (s1 & Hl & H).
      destruct (update_loader_same _ _ _ _ Hs Hl) as (t1 & Ht1 & Hs1).
      rewrite Ht1. cbn [bind]. apply (IH _ _ _ _ Hs1 H).
Qed.

Lemma update_Z_same self t (domain_idx : int) u :
  same_run self t -> _update_Z forward self domain_idx = Ok u ->
  exists u', _update_Z forward t domain_idx = Ok u' /\ same_run u u'.
Proof.
  intros Hs H. unfold _update_Z in *.
  destruct Hs as (Hm & HZ & Hz & Hmo & Hl). rewrite Hl.
  apply (update_loaders_same _ _ _ _ _ _ (conj Hm (conj HZ (conj Hz
           (conj Hmo Hl)))) H).
Qed.

Lemma same_run_refl self : same_run self self.
Proof. unfold same_run. auto. Qed.

(** The tables a sweep leaves are those of as many runs of [_update_Z] in
    a row as it has candidates, the later runs with the momentum of the
    scheduler. *)
Lemma sweep_tables (domain_idx : int) (a : args) (dist : R) (qs : list R) :
  forall self t perf self' perf',
    py_getitem (norm_dist_list self) (domain_idx - 1)%Z = Ok dist ->
    same_run self t ->
    run_sweep self domain_idx qs a perf = Ok (self', perf') ->
    exists last,
      update_Z_times forward (length qs) t domain_idx
        (momentum_of (beta self) dist) = Ok last /\
      same_run self' last.
Proof.
  induction qs as [| q qs IH]; intros self t perf self' perf' Hd Hs H;
    simpl in H.
  - inversion H; subst. exists t. auto.
  - apply bind_Ok in H. destruct H as ([c [mo sc]] & Hc & H).
    destruct (adapt_train_eval_inv _ _ _ _ _ _ _ Hc)
      as (u & pl & dist' & Hu & Hd' & ->).
    rewrite Hd in Hd'. inversion Hd'; subst dist'.
    destruct (update_Z_frame _ _ _ Hu) as ((_ & Hb & _ & Hn) & _).
    destruct (update_Z_same _ _ _ _ Hs Hu) as (u' & Hu' & Hsu).
    assert (Hd1 : py_getitem
                    (norm_dist_list
                       (set_momentum (append_pl_acc u pl)
                          (momentum_of (beta self) dist)))
                    (domain_idx - 1)%Z = Ok dist)
      by (simpl; now rewrite Hn).
    assert (Hs1 : same_run
                    (set_momentum (append_pl_acc u pl)
                       (momentum_of (beta self) dist))
                    (with_momentum u' (momentum_of (beta self) dist))).
    { destruct Hsu as (Hm1 & HZ1 & Hz1 & _ & Hl1).
      unfold same_run. simpl. auto. }
    destruct (IH _ _ _ _ _ Hd1 Hs1 H) as (last & Hlast & Hsl).
    { exists last. split; [| exact Hsl].
      cbn [length update_Z_times]. rewrite Hu'. cbn [bind].
      simpl in Hlast. rewrite Hb in Hlast. exact Hlast. }
Qed.

Lemma sweep_app (domain_idx : int) (a : args) (qs1 qs2 : list R) :
  forall self perf self' perf',
    run_sweep self domain_idx (qs1 ++ qs2) a perf = Ok (self', perf') ->
    exists s perf1,
      run_sweep self domain_idx qs1 a perf = Ok (s, perf1) /\
      run_sweep s domain_idx qs2 a perf1 = Ok (self', perf').
Proof.
  induction qs1 as [| q qs1 IH]; intros self perf self' perf' H.
  - exists self, perf. split; [reflexivity | exact H].
  - simpl in H. apply bind_Ok in H. destruct H as ([c [mo sc]] & Hc & H).
    destruct (IH _ _ _ _ H) as (s & perf1 & H1 & H2).
    exists s, perf1. split; [| exact H2].
    simpl. rewrite Hc. exact H1.
Qed.

(** C3, amended: during one call to [adapt], [_update_Z] runs once for
    every hyperparameter candidate, each time in place on the tables [Z],
    [z] the previous candidate left behind and with the momentum its
    scheduler call left (no snapshot is taken), while the live model is
    the same pre-domain model for every candidate.  The tables [adapt]
    leaves are those of as many updates in a row as the sweep has
    candidates; the candidate at position [k] starts from the pre-domain
    model and the tables of [k] updates, and trains against the tables of
    [k + 1] updates; the tables are updated exactly once when the sweep
    has a single candidate. *)
Theorem adapt_updates_per_candidate self (domain_idx : int) (qs : list R)
    (a : args) self' :
  run_adapt self domain_idx qs a = Ok self' ->
  exists dist,
    py_getitem (norm_dist_list self) (domain_idx - 1)%Z = Ok dist /\
    (exists last,
        update_Z_times forward (length qs) self domain_idx
          (momentum_of (beta self) dist) = Ok last /\
        Z self' = Z last /\ z self' = z last) /\
    (forall qs1 q qs2, qs = qs1 ++ q :: qs2 ->
       exists s perf s' r before after,
         run_sweep self domain_idx qs1 a [] = Ok (s, perf) /\
         train_eval s domain_idx q a = Ok (s', r) /\
         model s = model self /\ model s' = model self /\
         update_Z_times forward (length qs1) self domain_idx
           (momentum_of (beta self) dist) = Ok before /\
         Z s = Z before /\ z s = z before /\
         update_Z_times forward (S (length qs1)) self domain_idx
           (momentum_of (beta self) dist) = Ok after /\
         Z s' = Z after /\ z s' = z after) /\
    (forall q, qs = [q] ->
       exists u, _update_Z forward self domain_idx = Ok u /\
                 Z self' = Z u /\ z self' = z u).
Proof.
  intros H. destruct (adapt_inv _ _ _ _ _ H) as (last & perf & Hs & _ & ->).
  destruct (sweep_inv _ _ _ _ _ _ _ Hs) as (_ & _ & [-> | (dist & Hd & _)]).
  { simpl in Hs. inversion Hs; subst. discriminate. }
  exists dist. split; [exact Hd |].
  destruct (sweep_tables _ _ _ _ _ _ _ _ _ Hd (same_run_refl self) Hs)
    as (t & Ht & (_ & HZ & Hz & _)).
  split; [| split].
  - exists t. simpl. auto.
  - intros qs1 q qs2 ->.
    replace (qs1 ++ q :: qs2) with ((qs1 ++ [q]) ++ qs2) in Hs
      by (rewrite <- app_assoc; reflexivity).
    destruct (sweep_app _ _ _ _ _ _ _ _ Hs) as (s' & perf2 & Hpre & _).
    destruct (sweep_app _ _ _ _ _ _ _ _ Hpre) as (s & perf1 & Hqs1 & Hq).
    simpl in Hq. apply bind_Ok in Hq. destruct Hq as ([c r] & Hc & Hq).
    destruct r as [mo sc]. inversion Hq; subst c; clear Hq.
    destruct (sweep_inv _ _ _ _ _ _ _ Hqs1) as ((Hm1 & _) & _).
    destruct (sweep_inv _ _ _ _ _ _ _ Hpre) as ((Hm2 & _) & _).
    destruct (sweep_tables _ _ _ _ _ _ _ _ _ Hd (same_run_refl self) Hqs1)
      as (before & Hbefore & (_ & HZb & Hzb & _)).
    destruct (sweep_tables _ _ _ _ _ _ _ _ _ Hd (same_run_refl self) Hpre)
      as (after & Hafter & (_ & HZa & Hza & _)).
    rewrite length_app, Nat.add_1_r in Hafter.
    exists s, perf1, s', (mo, sc), before, after.
    repeat split; auto.
  - intros q ->. cbn [length update_Z_times] in Ht.
    apply bind_Ok in Ht. destruct Ht as (u & Hu & Ht).
    inversion Ht; subst t. exists u. simpl in HZ, Hz. simpl. auto.
Qed.

(** C4, amended: the momentum scheduler is invoked once per hyperparameter
    candidate, after the training of that candidate, so one call to
    [adapt] on a sweep of [n] candidates appends [n] entries (all equal to
    [exp(-beta * distance)]) to [momentum_record_list] and [n] entries to
    [pl_acc_list]: one entry each only for a sweep of one candidate. *)
Theorem adapt_appends_per_candidate self (domain_idx : int) (qs : list R)
    (a : args) self' :
  run_adapt self domain_idx qs a = Ok self' ->
  exists dist pls,
    py_getitem (norm_dist_list self) (domain_idx - 1)%Z = Ok dist /\
    momentum_record_list self'
      = momentum_record_list self
        ++ repeat (momentum_of (beta self) dist) (length qs) /\
    momentum self' = momentum_of (beta self) dist /\
    pl_acc_list self' = pl_acc_list self ++ pls /\
    length pls = length qs.
Proof.
  intros H. destruct (adapt_inv _ _ _ _ _ H) as (last & perf & Hs & _ & ->).
  destruct (sweep_inv _ _ _ _ _ _ _ Hs)
    as (_ & (pls & Hpls & Hlen) & [-> | (dist & Hd & Hmo & Hrec)]).
  - discriminate.
  - exists dist, pls. simpl. auto.
Qed.

End SweepProperties.

Section SelectionProperties.

Context {Input Model Optimizer : Type}.
Variable forward : bool -> Model -> list Input -> tensor.
Variable Adam : Model -> R -> Optimizer.
Variable optimizer_step :
  Optimizer -> Model -> list Input -> tensor -> R -> Model * Optimizer.
Variable validator : tensor -> pyfloat.
Implicit Types self : adapter Input Model.

Local Abbreviation run_sweep := (sweep forward Adam optimizer_step validator).
Local Abbreviation run_adapt := (adapt forward Adam optimizer_step validator).

(** C7, amended: after the sweep, when at least one candidate has a score
    greater than [-inf] (so neither [-inf] nor [nan]), the live model is
    the model of the first candidate, in the order of the dict, that has the
    highest score: it beats every earlier candidate that is not [nan] and no
    later candidate beats it; with the scores [0.7, 0.9] it is the second
    candidate.  When no candidate has a score greater than [-inf], no
    candidate is picked: the best model stays [None] and [adapt] raises. *)
Theorem adapt_selects_first_best self (domain_idx : int) (qs : list R)
    (a : args) last (perf : performance_dict Model) :
  run_sweep self domain_idx qs a [] = Ok (last, perf) ->
  ((exists it, In it perf /\ fgt (score_of it) NInf = true) ->
   exists pre q m s post,
     perf = pre ++ (q, (m, s)) :: post /\
     run_adapt self domain_idx qs a = Ok (set_model last m) /\
     fgt s NInf = true /\
     (forall it, In it pre ->
                 fgt s (score_of it) = true \/ score_of it = NaN) /\
     (forall it, In it post -> fgt (score_of it) s = false)) /\
  (forall q1 q2 m1 m2,
      perf = [(q1, (m1, Fin 0.7)); (q2, (m2, Fin 0.9))] ->
      run_adapt self domain_idx qs a = Ok (set_model last m2)) /\
  ((forall it, In it perf -> fgt (score_of it) NInf = false) ->
   run_adapt self domain_idx qs a = Raise AttributeError).
Proof.
  intros Hs. unfold adapt. rewrite Hs. cbn [bind].
  split; [| split].
  - intros Hv.
    destruct (select_best_some perf Hv)
      as (pre & q & m & s & post & Hperf & Hsel & Hrest).
    exists pre, q, m, s, post. now rewrite Hsel.
  - intros q1 q2 m1 m2 ->. now rewrite select_best_second.
  - intros Hnone. now rewrite (select_best_none perf Hnone).
Qed.

(** ** Loaders of one batch of one sample *)

Lemma calc_alpha_single self (i : nat) (x : Input) (y : nat) (q : R)
    (r : row) :
  nth_error (Z self) i = Some r -> 0 <= q <= 1 ->
  _calc_alpha self [[(i, x, y)]] q = Ok (confidence_of r).
Proof.
  intros Hr Hq. unfold _calc_alpha.
  cbn [gather_batches batch_idx map fst gather]. rewrite Hr.
  cbn [bind cat concat app map]. now apply quantile_singleton.
Qed.

Lemma train_epoch_single self (mo : Model) (opt : Optimizer) (alpha : R)
    (i : nat) (x : Input) (y : nat) (zr lg : row) :
  nth_error (z self) i = Some zr ->
  forward true mo [x] = [lg] ->
  (argmax zr < length lg)%nat ->
  alpha <= confidence_of zr ->
  exists train_loss,
    _adapt_train_epoch forward optimizer_step validator self mo
      [[(i, x, y)]] opt alpha
    = Ok (fst (optimizer_step opt mo [x] [zr] alpha),
          snd (optimizer_step opt mo [x] [zr] alpha),
          train_loss, validator [lg]).
Proof.
  intros Hz Hf Hlt Hm. unfold _adapt_train_epoch.
  cbn [train_batches batch_idx batch_data map fst snd gather].
  rewrite Hz, Hf. cbn [bind].
  rewrite pseudo_label_loss_eval
    by (unfold well_shaped; apply Forall2_cons; [exact Hlt | constructor]).
  cbn [bind map]. unfold masked_in. rewrite Rleb_true by assumption.
  destruct (optimizer_step opt mo [x] [zr] alpha) as [mo' opt'].
  cbn [mask_sum filter length Nat.add fadd fmul_nat bind fdiv_nat cat app
       concat fst snd].
  eexists. reflexivity.
Qed.

Lemma oracle_epoch_single self (mo : Model) (i : nat) (x : Input) (y : nat)
    (zr lg : row) :
  nth_error (z self) i = Some zr ->
  forward false mo [x] = [lg] ->
  _oracle_eval_epoch forward self mo [[(i, x, y)]]
  = Ok (INR (if Nat.eqb (argmax lg) y then 1 else 0) / INR 1,
        INR (if Nat.eqb (argmax zr) y then 1 else 0) / INR 1).
Proof.
  intros Hz Hf. unfold _oracle_eval_epoch.
  cbn [oracle_batches batch_idx batch_data batch_y map fst snd gather].
  rewrite Hz, Hf. cbn [map count_eq bind length Nat.add].
  destruct (Nat.eqb (argmax lg) y), (Nat.eqb (argmax zr) y); reflexivity.
Qed.

(** One candidate on a domain whose loader has one batch of one sample,
    trained for one epoch. *)
Lemma adapt_train_eval_single self (domain_idx : int) (q : R) (a : args)
    u (i : nat) (x : Input) (y : nat) (Zr zr lg lg' : row) (dist : R) :
  _update_Z forward self domain_idx = Ok u ->
  py_getitem (trainloader_list u) domain_idx = Ok [[(i, x, y)]] ->
  nth_error (Z u) i = Some Zr ->
  nth_error (z u) i = Some zr ->
  0 <= q <= 1 ->
  confidence_of Zr <= confidence_of zr ->
  adapt_epochs a = 1%Z ->
  forward true (model u) [x] = [lg] ->
  (argmax zr < length lg)%nat ->
  let trained :=
    fst (optimizer_step (Adam (model u) (adapt_lr a)) (model u) [x] [zr]
           (confidence_of Zr)) in
  forward false trained [x] = [lg'] ->
  py_getitem (norm_dist_list u) (domain_idx - 1)%Z = Ok dist ->
  _adapt_train_eval forward Adam optimizer_step validator self domain_idx q a
  = Ok (set_momentum
          (append_pl_acc u
             (INR (if Nat.eqb (argmax zr) y then 1 else 0) / INR 1))
          (momentum_of (beta u) dist),
        (trained, validator [lg])).
Proof.
  intros Hu Hl HZ Hz Hq Hc He Hf Hlt trained Hf' Hd.
  unfold _adapt_train_eval. rewrite Hu. cbn [bind]. rewrite Hl. cbn [bind].
  rewrite (calc_alpha_single u i x y q Zr HZ Hq). cbn [bind].
  rewrite He. change (Z.to_nat 1) with 1%nat. cbn [epochs_loop].
  destruct (train_epoch_single u (model u) (Adam (model u) (adapt_lr a))
              (confidence_of Zr) i x y zr lg Hz Hf Hlt Hc)
    as (train_loss & Hrun).
  rewrite Hrun. cbn [bind].
  fold trained.
  rewrite (oracle_epoch_single u trained i x y zr lg' Hz Hf').
  cbn [bind]. unfold _calc_momentum.
  cbn [norm_dist_list append_pl_acc beta]. rewrite Hd. reflexivity.
Qed.

End SelectionProperties.

(** ** Runs of the small instance *)

Lemma normalize_pair_sum_one (a b : R) :
  0 <= a -> 0 <= b -> a + b = 1 -> normalize [a; b] = [a; b].
Proof.
  intros Ha Hb Hs. pose proof normalize_eps_small.
  rewrite normalize_pair by lra. rewrite Hs. f_equal; [| f_equal]; lra.
Qed.

Lemma momentum_half : momentum_of 1 (ln 2) = 1 / 2.
Proof.
  rewrite momentum_of_exp, Rmult_1_l, exp_Ropp, exp_ln; lra.
Qed.

(** Equality of lists of real numbers, entry by entry. *)
Ltac list_eq :=
  repeat match goal with
         | |- _ :: _ = _ :: _ => apply (f_equal2 cons)
         | |- [] = [] => reflexivity
         | |- @eq R _ _ => lra
         end.

Lemma fresh_state :
  Toy.fresh = Toy.state [0; 0] [[0; 0]; [0; 0]] [[0; 0]; [0; 0]] 0 [] [].
Proof. reflexivity. Qed.

(** [_update_Z] at domain 1, with the classifier the adapter starts from:
    both target domains are updated. *)
Lemma toy_update_1 (a1 a2 b1 b2 m : R) (T' : tensor) (pl ml : list R) :
  length T' = 2%nat ->
  m * a1 + (1 - m) * (1 / 2) = 1 / 2 -> m * a2 + (1 - m) * (1 / 2) = 1 / 2 ->
  m * b1 + (1 - m) * (1 / 2) = 1 / 2 -> m * b2 + (1 - m) * (1 / 2) = 1 / 2 ->
  _update_Z Toy.forward (Toy.state [0; 0] [[a1; a2]; [b1; b2]] T' m pl ml) 1
  = Ok (Toy.state [0; 0] Toy.halves Toy.halves m pl ml).
Proof.
  intros HT Ha1 Ha2 Hb1 Hb2.
  destruct T' as [| s0 [| s1 [| ? ?]]]; try discriminate.
  run_update. rewrite Ha1, Ha2, Hb1, Hb2.
  rewrite !normalize_pair_sum_one by lra. reflexivity.
Qed.

(** [_update_Z] at domain 2, with the trained classifier and momentum
    1/2: only the sample of the second target domain is updated. *)
Lemma toy_update_2 (r0 s0 s1 : row) (b1 b2 : R) (pl ml : list R) :
  0 <= b2 -> 0 <= b1 -> b1 + b2 = 1 ->
  _update_Z Toy.forward
    (Toy.state Toy.trained [r0; [b1; b2]] [s0; s1] (1 / 2) pl ml) 2
  = Ok (Toy.state Toy.trained
          [r0; [b1 / 2 + 3 / 8; b2 / 2 + 1 / 8]]
          [s0; [b1 / 2 + 3 / 8; b2 / 2 + 1 / 8]] (1 / 2) pl ml).
Proof.
  intros H2 H1 Hs. run_update.
  replace (1 / 2 * b1 + (1 - 1 / 2) * (3 / 4)) with (b1 / 2 + 3 / 8) by lra.
  replace (1 / 2 * b2 + (1 - 1 / 2) * (1 / 4)) with (b2 / 2 + 1 / 8) by lra.
  rewrite normalize_pair_sum_one by lra. reflexivity.
Qed.

Section ToyRuns.

(** The runs hold for every validator. *)
Variable v : tensor -> pyfloat.

Local Abbreviation toy_train_eval :=
  (_adapt_train_eval Toy.forward Toy.Adam Toy.optimizer_step v).
Local Abbreviation toy_adapt :=
  (adapt Toy.forward Toy.Adam Toy.optimizer_step v).

Lemma toy_train_eval_1 (a1 a2 b1 b2 m q : R) (T' : tensor) (pl ml : list R) :
  length T' = 2%nat -> 0 <= q <= 1 ->
  m * a1 + (1 - m) * (1 / 2) = 1 / 2 -> m * a2 + (1 - m) * (1 / 2) = 1 / 2 ->
  m * b1 + (1 - m) * (1 / 2) = 1 / 2 -> m * b2 + (1 - m) * (1 / 2) = 1 / 2 ->
  toy_train_eval (Toy.state [0; 0] [[a1; a2]; [b1; b2]] T' m pl ml) 1 q
    Toy.one_epoch
  = Ok (Toy.state [0; 0] Toy.halves Toy.halves (1 / 2)
          (pl ++ [1]) (ml ++ [1 / 2]),
        (Toy.trained, v [[0; 0]])).
Proof.
  intros HT Hq Ha1 Ha2 Hb1 Hb2.
  rewrite (adapt_train_eval_single Toy.forward Toy.Adam Toy.optimizer_step v
             _ 1 q Toy.one_epoch
             (Toy.state [0; 0] Toy.halves Toy.halves m pl ml)
             0%nat tt 0%nat [1 / 2; 1 / 2] [1 / 2; 1 / 2] [0; 0] Toy.trained
             (ln 2)); try reflexivity; try assumption.
  - unfold set_momentum, append_pl_acc, Toy.state.
    cbn [model Z z beta trainloader_list norm_dist_list momentum pl_acc_list
         momentum_record_list fst Toy.optimizer_step].
    rewrite momentum_half, argmax_pair by lra.
    cbn [Nat.eqb]. replace (INR 1 / INR 1) with 1 by (simpl; lra).
    reflexivity.
  - now apply toy_update_1.
  - rewrite argmax_pair by lra. simpl. lia.
Qed.

Lemma toy_train_eval_2 (r0 s0 s1 : row) (b1 b2 q : R) (pl ml : list R) :
  0 <= q <= 1 -> 0 <= b2 <= b1 -> b1 + b2 = 1 ->
  toy_train_eval
    (Toy.state Toy.trained [r0; [b1; b2]] [s0; s1] (1 / 2) pl ml) 2 q
    Toy.one_epoch
  = Ok (Toy.state Toy.trained
          [r0; [b1 / 2 + 3 / 8; b2 / 2 + 1 / 8]]
          [s0; [b1 / 2 + 3 / 8; b2 / 2 + 1 / 8]] (1 / 2)
          (pl ++ [1]) (ml ++ [1 / 2]),
        (Toy.trained, v [Toy.trained])).
Proof.
  intros Hq Hb Hs.
  rewrite (adapt_train_eval_single Toy.forward Toy.Adam Toy.optimizer_step v
             _ 2 q Toy.one_epoch
             (Toy.state Toy.trained
                [r0; [b1 / 2 + 3 / 8; b2 / 2 + 1 / 8]]
                [s0; [b1 / 2 + 3 / 8; b2 / 2 + 1 / 8]] (1 / 2) pl ml)
             1%nat tt 0%nat
             [b1 / 2 + 3 / 8; b2 / 2 + 1 / 8]
             [b1 / 2 + 3 / 8; b2 / 2 + 1 / 8] Toy.trained Toy.trained
             (ln 2)); try reflexivity; try assumption.
  - unfold set_momentum, append_pl_acc, Toy.state.
    cbn [model Z z beta trainloader_list norm_dist_list momentum pl_acc_list
         momentum_record_list fst Toy.optimizer_step].
    rewrite momentum_half, argmax_pair by lra.
    cbn [Nat.eqb]. replace (INR 1 / INR 1) with 1 by (simpl; lra).
    reflexivity.
  - apply toy_update_2; lra.
  - rewrite argmax_pair by lra. simpl. lia.
Qed.

Lemma toy_sweep_fresh_one :
  sweep Toy.forward Toy.Adam Toy.optimizer_step v Toy.fresh 1 [0.1]
    Toy.one_epoch []
  = Ok (Toy.state [0; 0] Toy.halves Toy.halves (1 / 2) [1] [1 / 2],
        [(0.1, (Toy.trained, v [[0; 0]]))]).
Proof.
  cbn [sweep]. rewrite fresh_state.
  rewrite toy_train_eval_1 by (reflexivity || lra). reflexivity.
Qed.

Lemma toy_adapt_fresh_one :
  v [[0; 0]] = Fin 0 ->
  toy_adapt Toy.fresh 1 [0.1] Toy.one_epoch
  = Ok (Toy.state Toy.trained Toy.halves Toy.halves (1 / 2) [1] [1 / 2]).
Proof.
  intros Hv. unfold adapt. rewrite toy_sweep_fresh_one.
  cbn [bind select_best]. rewrite Hv. reflexivity.
Qed.

Lemma toy_adapt_fresh_two :
  v [[0; 0]] = Fin 0 ->
  toy_adapt Toy.fresh 1 [0.1; 0.5] Toy.one_epoch
  = Ok (Toy.state Toy.trained Toy.halves Toy.halves (1 / 2)
          [1; 1] [1 / 2; 1 / 2]).
Proof.
  intros Hv. unfold adapt. cbn [sweep]. rewrite fresh_state.
  rewrite toy_train_eval_1 by (reflexivity || lra).
  cbn [bind]. unfold Toy.halves.
  rewrite toy_train_eval_1 by (reflexivity || lra).
  cbn [bind dict_set app].
  destruct (Req_dec_T 0.1 0.5) as [Heq | _]; [exfalso; lra |].
  cbn [select_best]. rewrite Hv. cbn [fgt].
  rewrite Rltb_false by lra. reflexivity.
Qed.

Lemma toy_adapt_second_domain :
  v [Toy.trained] = Fin 0 ->
  toy_adapt (Toy.state Toy.trained Toy.halves Toy.halves (1 / 2) [1] [1 / 2])
    2 [0.1; 0.5] Toy.one_epoch
  = Ok (Toy.state Toy.trained
          [[1 / 2; 1 / 2]; [11 / 16; 5 / 16]]
          [[1 / 2; 1 / 2]; [11 / 16; 5 / 16]] (1 / 2)
          [1; 1; 1] [1 / 2; 1 / 2; 1 / 2]).
Proof.
  intros Hv. unfold adapt, Toy.halves. cbn [sweep].
  rewrite toy_train_eval_2 by lra. cbn [bind].
  rewrite toy_train_eval_2 by lra. cbn [bind dict_set app].
  destruct (Req_dec_T 0.1 0.5) as [Heq | _]; [exfalso; lra |].
  cbn [select_best]. rewrite Hv. cbn [fgt].
  rewrite Rltb_false by lra. unfold set_model, Toy.state.
  cbn [model Z z beta trainloader_list norm_dist_list momentum pl_acc_list
       momentum_record_list app].
  do 2 f_equal; list_eq.
Qed.

End ToyRuns.

Local Abbreviation toy_adapt :=
  (adapt Toy.forward Toy.Adam Toy.optimizer_step Toy.validator).

(** C3, as stated, fails: after the first target domain, a sweep of two
    candidates on the second one updates the tables twice.  The first
    candidate trains against the row [[5/8; 3/8]] that one [_update_Z]
    leaves for the sample of that domain; the second candidate runs
    [_update_Z] again and trains against [[11/16; 5/16]], which is the
    row the adapter keeps. *)
Lemma second_candidate_sees_updated_table :
  exists st1 u st2,
    toy_adapt Toy.fresh 1 [0.1] Toy.one_epoch = Ok st1 /\
    _update_Z Toy.forward st1 2 = Ok u /\
    toy_adapt st1 2 [0.1; 0.5] Toy.one_epoch = Ok st2 /\
    nth_error (Z u) 1 = Some [5 / 8; 3 / 8] /\
    nth_error (z u) 1 = Some [5 / 8; 3 / 8] /\
    nth_error (Z st2) 1 = Some [11 / 16; 5 / 16] /\
    nth_error (z st2) 1 = Some [11 / 16; 5 / 16] /\
    Z st2 <> Z u /\ z st2 <> z u.
Proof.
  eexists. eexists. eexists.
  split; [apply toy_adapt_fresh_one; reflexivity |].
  split; [unfold Toy.halves; apply toy_update_2; lra |].
  split; [apply toy_adapt_second_domain; reflexivity |].
  cbn [Z z Toy.state nth_error].
  split; [f_equal; list_eq |]. split; [f_equal; list_eq |].
  split; [reflexivity |]. split; [reflexivity |].
  split; intros H; inversion H; lra.
Qed.

Lemma adapt_updates_per_candidate_witness :
  exists dist last,
    py_getitem
      (norm_dist_list
         (Toy.state Toy.trained Toy.halves Toy.halves (1 / 2) [1] [1 / 2]))
      (2 - 1)%Z = Ok dist /\
    update_Z_times Toy.forward 2
      (Toy.state Toy.trained Toy.halves Toy.halves (1 / 2) [1] [1 / 2]) 2
      (momentum_of 1 dist) = Ok last /\
    nth_error (Z last) 1 = Some [11 / 16; 5 / 16] /\
    nth_error (z last) 1 = Some [11 / 16; 5 / 16].
Proof.
  destruct (adapt_updates_per_candidate Toy.forward Toy.Adam
              Toy.optimizer_step Toy.validator
              (Toy.state Toy.trained Toy.halves Toy.halves (1 / 2) [1]
                 [1 / 2]) 2 [0.1; 0.5] Toy.one_epoch _
              (toy_adapt_second_domain Toy.validator eq_refl))
    as (dist & Hd & (last & Hlast & HZ & Hz) & _).
  exists dist, last. split; [exact Hd |]. split; [exact Hlast |].
  rewrite <- HZ, <- Hz. split; reflexivity.
Defined.

(** C4, as stated, fails: one call to [adapt] for one domain with two
    candidates leaves two entries in [momentum_record_list] and two in
    [pl_acc_list], which were empty before. *)
Lemma two_candidates_two_entries :
  exists st,
    momentum_record_list Toy.fresh = [] /\ pl_acc_list Toy.fresh = [] /\
    toy_adapt Toy.fresh 1 [0.1; 0.5] Toy.one_epoch = Ok st /\
    length (momentum_record_list st) = 2%nat /\
    length (pl_acc_list st) = 2%nat.
Proof.
  eexists. split; [reflexivity |]. split; [reflexivity |].
  split; [apply toy_adapt_fresh_two; reflexivity |].
  split; reflexivity.
Qed.

Lemma adapt_appends_per_candidate_witness :
  exists dist pls,
    py_getitem (norm_dist_list Toy.fresh) (1 - 1)%Z = Ok dist /\
    momentum_record_list
      (Toy.state Toy.trained Toy.halves Toy.halves (1 / 2) [1] [1 / 2])
    = momentum_record_list Toy.fresh
      ++ repeat (momentum_of (beta Toy.fresh) dist) (length [0.1]) /\
    momentum (Toy.state Toy.trained Toy.halves Toy.halves (1 / 2) [1] [1 / 2])
    = momentum_of (beta Toy.fresh) dist /\
    pl_acc_list
      (Toy.state Toy.trained Toy.halves Toy.halves (1 / 2) [1] [1 / 2])
    = pl_acc_list Toy.fresh ++ pls /\
    length pls = length [0.1].
Proof.
  exact (adapt_appends_per_candidate Toy.forward Toy.Adam
           Toy.optimizer_step Toy.validator Toy.fresh 1 [0.1]
           Toy.one_epoch _ (toy_adapt_fresh_one Toy.validator eq_refl)).
Defined.

(** C7, as stated, fails: when the validator gives the only candidate the
    score [-inf], the strict comparison with the initial [-inf] never
    succeeds, the best model stays [None], and [adapt] raises instead of
    picking the candidate. *)
Lemma worst_score_selects_nothing :
  adapt Toy.forward Toy.Adam Toy.optimizer_step (fun _ => NInf)
    Toy.fresh 1 [0.1] Toy.one_epoch
  = Raise AttributeError.
Proof.
  unfold adapt. rewrite toy_sweep_fresh_one. reflexivity.
Qed.

Lemma adapt_selects_first_best_witness :
  exists pre q m s post,
    [(0.1, (Toy.trained, Toy.validator [[0; 0]]))]
      = pre ++ (q, (m, s)) :: post /\
    toy_adapt Toy.fresh 1 [0.1] Toy.one_epoch
      = Ok (set_model
              (Toy.state [0; 0] Toy.halves Toy.halves (1 / 2) [1] [1 / 2])
              m) /\
    fgt s NInf = true /\
    (forall it, In it pre ->
                fgt s (score_of it) = true \/ score_of it = NaN) /\
    (forall it, In it post -> fgt (score_of it) s = false).
Proof.
  apply (proj1 (adapt_selects_first_best Toy.forward Toy.Adam
                  Toy.optimizer_step Toy.validator Toy.fresh 1 [0.1]
                  Toy.one_epoch _ _ (toy_sweep_fresh_one Toy.validator))).
  eexists. split; [left; reflexivity | reflexivity].
Defined.

(** * Further properties of the code *)

(** ** What [_update_Z] writes *)

Lemma scatter_length (idx : list nat) :
  forall (t rows t' : tensor),
    scatter t idx rows = Ok t' -> length t' = length t.
Proof.
  induction idx as [| i0 idx IH]; intros t rows t' Hs.
  - destruct rows; simpl in Hs; [| discriminate]. now inversion Hs.
  - destruct rows as [| r rows]; simpl in Hs; [discriminate |].
    destruct (i0 <? length t)%nat; [| discriminate].
    rewrite (IH _ _ _ Hs). apply length_set_row.
Qed.

Section VisitedRows.

Context {Input Model : Type}.
Variable forward : bool -> Model -> list Input -> tensor.
Implicit Types self : adapter Input Model.

Lemma update_batch_lengths self (b : batch Input) self' :
  update_batch forward self b = Ok self' ->
  length (Z self') = length (Z self) /\ length (z self') = length (z self).
Proof.
  intros H. apply update_batch_inv in H.
  destruct H as (old & new & Z' & rows & z' & _ & _ & HZ & _ & Hz & ->).
  simpl. split; eapply scatter_length; eauto.
Qed.

Lemma update_batch_keeps_normalized self b self' (i : nat) :
  normalized_at self i -> update_batch forward self b = Ok self' ->
  normalized_at self' i.
Proof.
  intros Hn H.
  destruct (in_dec Nat.eq_dec i (batch_idx b)) as [Hi | Hi].
  - eapply update_batch_normalized; eauto.
  - destruct (update_batch_untouched _ _ _ _ _ H Hi) as [HZ Hz].
    intros r Hr. rewrite Hz. apply Hn. congruence.
Qed.

Lemma update_loader_rows (l : loader Input) :
  forall self self' (i : nat),
    update_loader forward self l = Ok self' ->
    (~ In i (concat (map batch_idx l)) ->
     nth_error (Z self') i = nth_error (Z self) i /\
     nth_error (z self') i = nth_error (z self) i) /\
    (In i (concat (map batch_idx l)) \/ normalized_at self i ->
     normalized_at self' i).
Proof.
  induction l as [| b l IH]; intros self self' i H; simpl in H.
  - inversion H; subst. split; [auto |]. intros [[] | Hn]. exact Hn.
  - apply bind_Ok in H. destruct H as (s1 & Hb & H).
    destruct (IH _ _ i H) as [Hout Hin]. simpl. split.
    + intros Hi. rewrite in_app_iff in Hi.
      destruct Hout as [HZ Hz]; [tauto |].
      destruct (update_batch_untouched _ _ _ _ i Hb) as [HZ1 Hz1]; [tauto |].
      split; congruence.
    + intros [Hi | Hn].
      * rewrite in_app_iff in Hi. destruct Hi as [Hi | Hi].
        -- apply Hin. right. eapply update_batch_normalized; eauto.
        -- apply Hin. now left.
      * apply Hin. right. eapply update_batch_keeps_normalized; eauto.
Qed.

Lemma update_loaders_rows (ls : list (loader Input)) :
  forall (domain_idx : int) (d : nat) self self' (i : nat),
    update_loaders forward self domain_idx d ls = Ok self' ->
    (~ In i (visited_from domain_idx d ls) ->
     nth_error (Z self') i = nth_error (Z self) i /\
     nth_error (z self') i = nth_error (z self) i) /\
    (In i (visited_from domain_idx d ls) \/ normalized_at self i ->
     normalized_at self' i).
Proof.
  induction ls as [| l ls IH]; intros di d self self' i H; simpl in H.
  - inversion H; subst. split; [auto |]. intros [[] | Hn]. exact Hn.
  - simpl. destruct (Z.of_nat d <? di)%Z.
    + apply (IH _ _ _ _ i H).
    + apply bind_Ok in H. destruct H as (s1 & Hl & H).
      destruct (IH _ _ _ _ i H) as [Hout Hin].
      destruct (update_loader_rows _ _ _ i Hl) as [Hout1 Hin1].
      split.
      * intros Hi. rewrite in_app_iff in Hi.
        destruct Hout as [HZ Hz]; [tauto |].
        destruct Hout1 as [HZ1 Hz1]; [tauto |].
        split; congruence.
      * intros [Hi | Hn].
        -- rewrite in_app_iff in Hi. destruct Hi as [Hi | Hi].
           ++ apply Hin. right. apply Hin1. now left.
           ++ apply Hin. now left.
        -- apply Hin. right. apply Hin1. now right.
Qed.

Lemma update_loaders_skip (ls : list (loader Input)) :
  forall (domain_idx : int) (d : nat) self,
    (Z.of_nat (d + length ls) <= domain_idx)%Z ->
    update_loaders forward self domain_idx d ls = Ok self.
Proof.
  induction ls as [| l ls IH]; intros di d self H; simpl.
  - reflexivity.
  - simpl in H. destruct (Z.ltb_spec (Z.of_nat d) di); [| lia].
    apply IH. rewrite <- Nat.add_succ_comm in H. exact H.
Qed.

Lemma update_Z_table_lengths self (domain_idx : int) self' :
  _update_Z forward self domain_idx = Ok self' ->
  length (Z self') = length (Z self) /\ length (z self') = length (z self).
Proof.
  intros H.
  apply (update_Z_preserves forward
           (fun s => length (Z s) = length (Z self) /\
                     length (z s) = length (z self)))
    with (self := self) (domain_idx := domain_idx);
    [| split; reflexivity | exact H].
  intros s b s' [H1 H2] Hb'.
  destruct (update_batch_lengths _ _ _ Hb') as [H3 H4].
  split; congruence.
Qed.

(** X1: [_update_Z] writes nothing but rows of the two tables: the live
    model, the momentum, [beta], the loaders, the distances and the two
    histories are as before, and the tables keep their numbers of rows. *)
Theorem update_Z_writes_only_rows self (domain_idx : int) self' :
  _update_Z forward self domain_idx = Ok self' ->
  model self' = model self /\ momentum self' = momentum self /\
  beta self' = beta self /\
  trainloader_list self' = trainloader_list self /\
  norm_dist_list self' = norm_dist_list self /\
  pl_acc_list self' = pl_acc_list self /\
  momentum_record_list self' = momentum_record_list self /\
  length (Z self') = length (Z self) /\ length (z self') = length (z self).
Proof.
  intros H.
  destruct (update_Z_frame forward _ _ _ H)
    as ((Hm & Hb & Hl & Hn) & Hmo & Hp & Hr).
  destruct (update_Z_table_lengths _ _ _ H).
  repeat split; assumption.
Qed.

(** X2: [_update_Z] touches only the samples of the domains at or after
    [domain_idx]: the rows of [Z] and [z] of every other sample id are as
    before, and when [domain_idx] is past the last loader nothing changes
    at all. *)
Theorem update_Z_skips_earlier_domains self (domain_idx : int) self'
    (i : nat) :
  _update_Z forward self domain_idx = Ok self' ->
  ~ In i (visited self domain_idx) ->
  nth_error (Z self') i = nth_error (Z self) i /\
  nth_error (z self') i = nth_error (z self) i /\
  ((Z.of_nat (length (trainloader_list self)) <= domain_idx)%Z ->
   self' = self).
Proof.
  intros H Hi. unfold _update_Z in H.
  destruct (update_loaders_rows _ _ _ _ _ i H) as [Hout _].
  destruct (Hout Hi) as [HZ Hz]. repeat split; try assumption.
  intros Hd. rewrite update_loaders_skip in H by (simpl; exact Hd).
  now inversion H.
Qed.

(** X3: at the end of [_update_Z], for every sample id it visited, the row
    of [z] is the L1 normalisation of the row of [Z], also when the id
    occurs in several batches or loaders. *)
Theorem update_Z_normalizes_visited self (domain_idx : int) self'
    (i : nat) (r : row) :
  _update_Z forward self domain_idx = Ok self' ->
  In i (visited self domain_idx) ->
  nth_error (Z self') i = Some r ->
  nth_error (z self') i = Some (normalize r).
Proof.
  intros H Hi Hr. unfold _update_Z in H.
  destruct (update_loaders_rows _ _ _ _ _ i H) as [_ Hin].
  apply Hin; [now left | exact Hr].
Qed.

End VisitedRows.

(** ** The update at the ends of the momentum range *)

Lemma gather_scatter_NoDup (idx : list nat) :
  forall (t rows t' : tensor),
    scatter t idx rows = Ok t' -> NoDup idx -> gather t' idx = Ok rows.
Proof.
  induction idx as [| i idx IH]; intros t rows t' Hs Hnd.
  - destruct rows; simpl in Hs; [reflexivity | discriminate].
  - destruct rows as [| r rows]; simpl in Hs; [discriminate |].
    destruct (Nat.ltb_spec i (length t)); [| discriminate].
    inversion Hnd as [| ? ? Hni Hnd']; subst.
    simpl. rewrite (scatter_other _ _ _ _ i Hs Hni).
    rewrite nth_error_set_row_eq by assumption.
    now rewrite (IH _ _ _ Hs Hnd').
Qed.

Lemma set_row_same (t : tensor) :
  forall (i : nat) (r : row), nth_error t i = Some r -> set_row t i r = t.
Proof.
  induction t as [| x t IH]; intros [| i] r H; simpl in *;
    try discriminate.
  - now inversion H.
  - now rewrite IH.
Qed.

Lemma scatter_gathered (idx : list nat) :
  forall (t rows : tensor), gather t idx = Ok rows -> scatter t idx rows = Ok t.
Proof.
  induction idx as [| i idx IH]; intros t rows Hg; simpl in Hg.
  - now inversion Hg.
  - destruct (nth_error t i) as [r |] eqn:Hi; [| discriminate].
    apply bind_Ok in Hg. destruct Hg as (rest & Hrest & Hg).
    inversion Hg; subst rows. simpl.
    assert (Hlt : (i < length t)%nat)
      by (apply nth_error_Some; rewrite Hi; discriminate).
    destruct (Nat.ltb_spec i (length t)); [| lia].
    rewrite (set_row_same t i r Hi). now apply IH.
Qed.

Lemma row_axpby_second (x : row) :
  forall (y out : row), row_axpby 0 x (1 - 0) y = Ok out -> out = y.
Proof.
  induction x as [| xi x IH]; intros [| yi y] out H; simpl in H;
    try discriminate.
  - now inversion H.
  - apply bind_Ok in H. destruct H as (rest & Hrest & H).
    inversion H; subst out. f_equal; [ring | now apply IH].
Qed.

Lemma rows_axpby_second (X : tensor) :
  forall (Y out : tensor), rows_axpby 0 X (1 - 0) Y = Ok out -> out = Y.
Proof.
  induction X as [| x X IH]; intros [| y Y] out H; simpl in H;
    try discriminate.
  - now inversion H.
  - apply bind_Ok in H. destruct H as (r & Hr & H).
    apply bind_Ok in H. destruct H as (rest & Hrest & H).
    inversion H; subst out.
    f_equal; [now apply (row_axpby_second x) | now apply IH].
Qed.

Lemma row_axpby_first (x : row) :
  forall (y out : row), row_axpby 1 x (1 - 1) y = Ok out -> out = x.
Proof.
  induction x as [| xi x IH]; intros [| yi y] out H; simpl in H;
    try discriminate.
  - now inversion H.
  - apply bind_Ok in H. destruct H as (rest & Hrest & H).
    inversion H; subst out. f_equal; [ring | now apply (IH y)].
Qed.

Lemma rows_axpby_first (X : tensor) :
  forall (Y out : tensor), rows_axpby 1 X (1 - 1) Y = Ok out -> out = X.
Proof.
  induction X as [| x X IH]; intros [| y Y] out H; simpl in H;
    try discriminate.
  - now inversion H.
  - apply bind_Ok in H. destruct H as (r & Hr & H).
    apply bind_Ok in H. destruct H as (rest & Hrest & H).
    inversion H; subst out.
    f_equal; [now apply (row_axpby_first x y) | now apply (IH Y)].
Qed.

Lemma sum_softmax (r : row) : r <> [] -> sum (softmax r) = 1.
Proof.
  intros Hr. unfold softmax.
  rewrite <- (map_map exp (fun e => e / sum (map exp r))), sum_map_div.
  destruct r as [| x r]; [contradiction |].
  pose proof (sum_map_exp_pos (x :: r) x (or_introl eq_refl)).
  field. lra.
Qed.

Lemma normalize_prob_row (r : row) :
  nonneg_row r -> sum r = 1 -> normalize r = r.
Proof.
  intros Hn Hs. pose proof normalize_eps_small.
  unfold normalize. rewrite (norm1_nonneg r Hn), Hs, Rmax_left by assumption.
  rewrite <- (map_id r) at 2. apply map_ext. intros x. field.
Qed.

Lemma normalize_softmax (r : row) : normalize (softmax r) = softmax r.
Proof.
  destruct r as [| x r]; [reflexivity |].
  apply normalize_prob_row; [apply softmax_nonneg | apply sum_softmax].
  discriminate.
Qed.

Section MomentumRange.

Context {Input Model : Type}.
Variable forward : bool -> Model -> list Input -> tensor.
Implicit Types self : adapter Input Model.

(** X4: with momentum 0 (as [__init__] leaves it) a batch update forgets
    the history: for a batch of distinct sample ids, the rows of [Z] and of
    [z] at these ids are exactly the softmax outputs of the live model. *)
Theorem update_batch_momentum_zero self (b : batch Input) self' :
  momentum self = 0 -> NoDup (batch_idx b) ->
  update_batch forward self b = Ok self' ->
  gather (Z self') (batch_idx b)
    = Ok (map softmax (forward false (model self) (batch_data b))) /\
  gather (z self') (batch_idx b)
    = Ok (map softmax (forward false (model self) (batch_data b))).
Proof.
  intros Hm Hnd H. apply update_batch_inv in H.
  destruct H as (old & new & Z' & rows & z' & Ho & Hn & HZ & Hg & Hz & ->).
  rewrite Hm in Hn. apply rows_axpby_second in Hn. subst new.
  pose proof (gather_scatter_NoDup _ _ _ _ HZ Hnd) as Hg'.
  rewrite Hg in Hg'. inversion Hg'; subst rows.
  simpl. split; [exact Hg |].
  rewrite (gather_scatter_NoDup _ _ _ _ Hz Hnd).
  f_equal. rewrite map_map. apply map_ext. intros l.
  apply normalize_softmax.
Qed.

Lemma update_batch_momentum_one self (b : batch Input) self' :
  momentum self = 1 -> update_batch forward self b = Ok self' ->
  Z self' = Z self.
Proof.
  intros Hm H. apply update_batch_inv in H.
  destruct H as (old & new & Z' & rows & z' & Ho & Hn & HZ & Hg & Hz & ->).
  rewrite Hm in Hn. apply rows_axpby_first in Hn. subst new.
  rewrite (scatter_gathered _ _ _ Ho) in HZ. now inversion HZ.
Qed.

(** X5: with momentum 1 (distance 0 or [beta] 0) [_update_Z] leaves the
    table [Z] as it is: the fresh predictions get weight 0. *)
Theorem update_Z_momentum_one self (domain_idx : int) self' :
  momentum self = 1 -> _update_Z forward self domain_idx = Ok self' ->
  Z self' = Z self.
Proof.
  intros Hm H.
  assert (HP : Z self' = Z self /\ momentum self' = 1).
  { apply (update_Z_preserves forward
             (fun s => Z s = Z self /\ momentum s = 1))
      with (self := self) (domain_idx := domain_idx);
      [| split; [reflexivity | exact Hm] | exact H].
    intros s b s' [HZ Hmo] Hb.
    destruct (update_batch_frame forward _ _ _ Hb) as (_ & Hmo' & _).
    split; [| congruence].
    rewrite (update_batch_momentum_one _ _ _ Hmo Hb). exact HZ. }
  apply HP.
Qed.

End MomentumRange.

(** ** Tables of probability vectors *)

Lemma row_axpby_sum (a b : R) (x : row) :
  forall (y out : row),
    row_axpby a x b y = Ok out ->
    sum out = a * sum x + b * sum y /\ length y = length x.
Proof.
  induction x as [| xi x IH]; intros [| yi y] out H; simpl in H;
    try discriminate.
  - inversion H. unfold sum; simpl. split; [ring | reflexivity].
  - apply bind_Ok in H. destruct H as (rest & Hrest & H).
    inversion H; subst out. destruct (IH _ _ Hrest) as [Hs Hl].
    rewrite !sum_cons, Hs. simpl. split; [ring | congruence].
Qed.

Lemma row_axpby_prob (m : R) (x l out : row) :
  0 <= m <= 1 -> prob_row x ->
  row_axpby m x (1 - m) (softmax l) = Ok out -> prob_row out.
Proof.
  intros Hm [Hnn Hs] H. split.
  - eapply row_axpby_nonneg; [| | exact Hnn | apply softmax_nonneg | exact H];
      lra.
  - destruct (row_axpby_sum _ _ _ _ _ H) as [Hsum Hlen].
    rewrite Hsum, Hs.
    destruct l as [| v l].
    + destruct x; [| discriminate].
      unfold sum in Hs; simpl in Hs. lra.
    + rewrite sum_softmax by discriminate. ring.
Qed.

Lemma rows_axpby_prob (m : R) (X : tensor) :
  forall (L out : tensor),
    0 <= m <= 1 -> Forall prob_row X ->
    rows_axpby m X (1 - m) (map softmax L) = Ok out -> Forall prob_row out.
Proof.
  induction X as [| x X IH]; intros [| l L] out Hm HX H; simpl in H;
    try discriminate.
  - inversion H. constructor.
  - apply bind_Ok in H. destruct H as (r & Hr & H).
    apply bind_Ok in H. destruct H as (rest & Hrest & H).
    inversion H; subst out. inversion HX as [| ? ? Hx HX']; subst.
    constructor.
    + eapply row_axpby_prob; eauto.
    + eapply IH; eauto.
Qed.

Lemma norm1_map_div (r : row) (d : R) :
  0 < d -> norm1 (map (fun x => x / d) r) = norm1 r / d.
Proof.
  intros Hd. unfold norm1. rewrite map_map.
  rewrite <- sum_map_div, map_map. f_equal. apply map_ext. intros x.
  unfold Rdiv. rewrite Rabs_mult, (Rabs_pos_eq (/ d)); [reflexivity |].
  apply Rlt_le. now apply Rinv_0_lt_compat.
Qed.

Lemma norm1_normalize (r : row) :
  normalize_eps <= norm1 r -> norm1 (normalize r) = 1.
Proof.
  intros H. pose proof normalize_eps_pos. unfold normalize.
  rewrite Rmax_left by assumption.
  rewrite norm1_map_div by lra. field. lra.
Qed.

Lemma normalize_idempotent (r : row) :
  normalize_eps <= norm1 r -> normalize (normalize r) = normalize r.
Proof.
  intros H. pose proof normalize_eps_small.
  unfold normalize at 1. rewrite (norm1_normalize r H).
  rewrite Rmax_left by assumption.
  rewrite <- (map_id (normalize r)) at 2. apply map_ext. intros x. field.
Qed.

Section ProbabilityTables.

Context {Input Model : Type}.
Variable forward : bool -> Model -> list Input -> tensor.
Implicit Types self : adapter Input Model.

Lemma update_batch_prob_tables self (b : batch Input) self' :
  0 <= momentum self <= 1 -> prob_tables self ->
  update_batch forward self b = Ok self' -> prob_tables self'.
Proof.
  intros Hm [Hz HP] H.
  assert (HP' : Forall prob_row (Z self')).
  { pose proof H as H'. apply update_batch_inv in H'.
    destruct H' as (old & new & Z' & rows & z' & Ho & Hn & HZ & _ & _ & ->).
    simpl. eapply scatter_Forall; [exact HZ | exact HP |].
    eapply rows_axpby_prob; [exact Hm | | exact Hn].
    eapply gather_Forall; eauto. }
  split; [| exact HP'].
  destruct (update_batch_lengths forward _ _ _ H) as [HlZ Hlz].
  apply nth_error_ext. intros i.
  destruct (in_dec Nat.eq_dec i (batch_idx b)) as [Hi | Hi].
  - destruct (nth_error (Z self') i) as [r |] eqn:Hr.
    + rewrite (update_batch_normalized forward _ _ _ _ H Hi r Hr).
      rewrite Forall_forall in HP'.
      destruct (HP' r (nth_error_In _ _ Hr)) as [Hnn Hs].
      now rewrite normalize_prob_row.
    + apply nth_error_None. apply nth_error_None in Hr.
      rewrite Hlz, Hz, <- HlZ. exact Hr.
  - destruct (update_batch_untouched forward _ _ _ i H Hi) as [HZ' Hz'].
    rewrite HZ', Hz', Hz. reflexivity.
Qed.

(** X6: on tables whose rows are probability vectors with [z] equal to
    [Z], and with a momentum in [0, 1], [_update_Z] keeps the tables so:
    every row of [Z] is again a probability vector and [z] is again equal
    to [Z], so the threshold computed from [Z] and the mask computed from
    [z] read the same confidences. *)
Theorem update_Z_prob_tables self (domain_idx : int) self' :
  0 <= momentum self <= 1 -> prob_tables self ->
  _update_Z forward self domain_idx = Ok self' -> prob_tables self'.
Proof.
  intros Hm HP H.
  assert (HQ : 0 <= momentum self' <= 1 /\ prob_tables self').
  { apply (update_Z_preserves forward
             (fun s => 0 <= momentum s <= 1 /\ prob_tables s))
      with (self := self) (domain_idx := domain_idx);
      [| split; assumption | exact H].
    intros s b s' [Hms HPs] Hb.
    destruct (update_batch_frame forward _ _ _ Hb) as (_ & Hmo & _).
    split; [now rewrite Hmo |].
    eapply update_batch_prob_tables; eauto. }
  apply HQ.
Qed.

(** X7: after [_update_Z], for every visited sample id whose row of [Z]
    has an L1 norm of at least [eps], the row of [z] has L1 norm 1,
    whatever the signs of its entries, and normalising it again returns
    it unchanged. *)
Theorem update_Z_unit_norm self (domain_idx : int) self' (i : nat)
    (r : row) :
  _update_Z forward self domain_idx = Ok self' ->
  In i (visited self domain_idx) ->
  nth_error (Z self') i = Some r ->
  normalize_eps <= norm1 r ->
  exists r',
    nth_error (z self') i = Some r' /\ norm1 r' = 1 /\ normalize r' = r'.
Proof.
  intros H Hi Hr Hn. exists (normalize r). split; [| split].
  - unfold _update_Z in H.
    destruct (update_loaders_rows forward _ _ _ _ _ i H) as [_ Hin].
    apply Hin; [now left | exact Hr].
  - now apply norm1_normalize.
  - now apply normalize_idempotent.
Qed.

End ProbabilityTables.

(** ** The scheduler at the ends of the distance list *)

Lemma py_getitem_negative {A : Type} (l : list A) (i : int) (a : A) :
  (i < 0)%Z -> (0 <= i + Z.of_nat (length l))%Z ->
  nth_error l (Z.to_nat (i + Z.of_nat (length l))) = Some a ->
  py_getitem l i = Ok a.
Proof.
  intros Hi Hj Hn. unfold py_getitem.
  destruct (Z.ltb_spec i 0); [| lia].
  destruct (Z.leb_spec 0 (i + Z.of_nat (length l))); [| lia].
  destruct (Z.ltb_spec (i + Z.of_nat (length l)) (Z.of_nat (length l)));
    [| lia].
  cbv [andb]. now rewrite Hn.
Qed.

Lemma py_getitem_out_of_range {A : Type} (l : list A) (i : int) :
  (Z.of_nat (length l) <= i \/ i < - Z.of_nat (length l))%Z ->
  py_getitem l i = Raise IndexError.
Proof.
  intros H. unfold py_getitem.
  destruct (Z.ltb_spec i 0).
  - destruct (Z.leb_spec 0 (i + Z.of_nat (length l))); [lia | reflexivity].
  - destruct (Z.leb_spec 0 i); [| lia].
    destruct (Z.ltb_spec i (Z.of_nat (length l))); [lia | reflexivity].
Qed.

Lemma py_getitem_in_range {A : Type} (l : list A) (i : int) :
  (- Z.of_nat (length l) <= i < Z.of_nat (length l))%Z ->
  exists a, py_getitem l i = Ok a.
Proof.
  intros H. destruct (Z.ltb_spec i 0).
  - destruct (nth_error l (Z.to_nat (i + Z.of_nat (length l)))) as [a |] eqn:Ha.
    + exists a. apply py_getitem_negative; (assumption || lia).
    + apply nth_error_None in Ha. lia.
  - destruct (nth_error l (Z.to_nat i)) as [a |] eqn:Ha.
    + exists a. now apply py_getitem_nonneg.
    + apply nth_error_None in Ha. lia.
Qed.

Section SchedulerEdges.

Context {Input Model : Type}.
Implicit Types self : adapter Input Model.

(** X8: for a domain index at or below 0, the index [domain_idx - 1] is
    negative and Python counts it from the end of the distance list: the
    scheduler does not fail but uses the distance at position
    [len + domain_idx - 1] (the last one for domain index 0). *)
Theorem calc_momentum_wraps_around self (domain_idx : int) (distance : R) :
  (domain_idx <= 0)%Z ->
  (0 <= domain_idx - 1 + Z.of_nat (length (norm_dist_list self)))%Z ->
  nth_error (norm_dist_list self)
    (Z.to_nat (domain_idx - 1 + Z.of_nat (length (norm_dist_list self))))
    = Some distance ->
  exists self',
    _calc_momentum self domain_idx = Ok self' /\
    momentum self' = exp (- (beta self * distance)).
Proof.
  intros Hd Hj Hn. unfold _calc_momentum.
  rewrite (py_getitem_negative _ _ distance) by (assumption || lia).
  eexists. split; [reflexivity |]. simpl. apply momentum_of_exp.
Qed.

(** X9: the scheduler returns exactly when [domain_idx - 1] is a valid
    Python index of the distance list, that is when
    [-len < domain_idx <= len]; otherwise it raises [IndexError] (always,
    when the list is empty). *)
Theorem calc_momentum_index_range self (domain_idx : int) :
  let len := Z.of_nat (length (norm_dist_list self)) in
  ((- len < domain_idx <= len)%Z ->
   exists self', _calc_momentum self domain_idx = Ok self') /\
  (~ (- len < domain_idx <= len)%Z ->
   _calc_momentum self domain_idx = Raise IndexError).
Proof.
  intros len. unfold _calc_momentum. split.
  - intros H.
    destruct (py_getitem_in_range (norm_dist_list self) (domain_idx - 1))
      as (a & Ha); [fold len; lia |].
    rewrite Ha. eexists. reflexivity.
  - intros H. rewrite py_getitem_out_of_range; [reflexivity |].
    fold len. lia.
Qed.

End SchedulerEdges.

(** ** The quantile *)


Lemma insert_sorted_In (x y : R) (l : list R) :
  In y (insert_sorted x l) <-> y = x \/ In y l.
Proof.
  induction l as [| z l IH]; simpl.
  - intuition.
  - destruct (Rleb x z); simpl; rewrite ?IH; intuition.
Qed.

Lemma insert_sorted_length (x : R) (l : list R) :
  length (insert_sorted x l) = S (length l).
Proof.
  induction l as [| z l IH]; simpl; [reflexivity |].
  destruct (Rleb x z); simpl; congruence.
Qed.

Lemma insert_sorted_sorted (x : R) (l : list R) :
  StronglySorted Rle l -> StronglySorted Rle (insert_sorted x l).
Proof.
  induction 1 as [| z l Hs IH Hz]; simpl.
  - repeat constructor.
  - unfold Rleb. destruct (Rle_dec x z) as [Hxz | Hxz].
    + constructor; [now constructor |].
      constructor; [exact Hxz |].
      rewrite Forall_forall in *. intros y Hy. specialize (Hz y Hy). lra.
    + constructor; [exact IH |].
      rewrite Forall_forall in *. intros y Hy.
      apply insert_sorted_In in Hy. destruct Hy as [-> | Hy]; [lra | auto].
Qed.

Lemma sort_In (y : R) (l : list R) : In y (sort l) <-> In y l.
Proof.
  unfold sort. induction l as [| x l IH]; simpl; [tauto |].
  rewrite insert_sorted_In, IH. intuition.
Qed.

Lemma sort_length (l : list R) : length (sort l) = length l.
Proof.
  unfold sort. induction l as [| x l IH]; simpl; [reflexivity |].
  now rewrite insert_sorted_length, IH.
Qed.

Lemma sort_sorted (l : list R) : StronglySorted Rle (sort l).
Proof.
  unfold sort. induction l as [| x l IH]; simpl; [constructor |].
  now apply insert_sorted_sorted.
Qed.

Lemma sorted_nth_le (s : list R) :
  StronglySorted Rle s ->
  forall i j, (i <= j < length s)%nat -> nth i s 0 <= nth j s 0.
Proof.
  induction 1 as [| x s Hs IH Hx]; intros i j Hij; simpl in Hij; [lia |].
  destruct i as [| i], j as [| j]; simpl; try lia.
  - lra.
  - rewrite Forall_forall in Hx. apply Hx. apply nth_In. lia.
  - apply IH. lia.
Qed.

Lemma lerp_between (a b w : R) :
  a <= b -> 0 <= w <= 1 -> a <= lerp a b w <= b.
Proof.
  intros Hab Hw. unfold lerp.
  assert (0 <= w * (b - a)) by (apply Rmult_le_pos; lra).
  assert (0 <= (1 - w) * (b - a)) by (apply Rmult_le_pos; lra).
  lra.
Qed.

Lemma lerp_monotone (a b w1 w2 : R) :
  a <= b -> w1 <= w2 -> lerp a b w1 <= lerp a b w2.
Proof.
  intros Hab Hw. unfold lerp.
  assert (0 <= (w2 - w1) * (b - a)) by (apply Rmult_le_pos; lra).
  lra.
Qed.

Lemma lerp_zero (a b : R) : lerp a b 0 = a.
Proof. unfold lerp. ring. Qed.

(** The two ranks and the weight [quantile] interpolates with. *)
Lemma quantile_shape (x : R) (l : list R) (q : R) :
  0 <= q <= 1 ->
  exists (below above : nat) (w : R),
    quantile (x :: l) q
      = Ok (lerp (nth below (sort (x :: l)) 0)
              (nth above (sort (x :: l)) 0) w) /\
    (below <= above <= length l)%nat /\
    0 <= w < 1 /\
    INR below + w = q * INR (length l) /\
    (above = below /\ w = 0 \/ above = S below).
Proof.
  intros Hq. set (rank := q * INR (length l)).
  assert (Hr0 : 0 <= rank).
  { unfold rank. apply Rmult_le_pos; [lra | apply pos_INR]. }
  assert (Hrn : rank <= INR (length l)).
  { unfold rank. pose proof (pos_INR (length l)). nra. }
  destruct (Zfloor_bound rank) as [Hf1 Hf2].
  destruct (Zceil_bound rank) as [Hc1 Hc2].
  assert (Hf0 : (0 <= Zfloor rank)%Z).
  { apply Z.lt_succ_r, lt_IZR. rewrite succ_IZR. simpl. lra. }
  assert (Hfc : (Zfloor rank <= Zceil rank)%Z) by (apply le_IZR; lra).
  assert (Hcf : (Zceil rank <= Zfloor rank + 1)%Z).
  { apply Z.lt_succ_r, lt_IZR. rewrite succ_IZR, plus_IZR. simpl. lra. }
  assert (Hcn : (Zceil rank <= Z.of_nat (length l))%Z).
  { apply Z.lt_succ_r, lt_IZR. rewrite succ_IZR, <- INR_IZR_INZ. lra. }
  assert (Hb : INR (Z.to_nat (Zfloor rank)) = IZR (Zfloor rank)).
  { rewrite INR_IZR_INZ, Z2Nat.id by assumption. reflexivity. }
  exists (Z.to_nat (Zfloor rank)), (Z.to_nat (Zceil rank)),
    (rank - INR (Z.to_nat (Zfloor rank))).
  split; [| split; [| split; [| split]]].
  - unfold quantile. rewrite !Rleb_true by lra. cbn [andb length].
    rewrite Nat.sub_succ, Nat.sub_0_r. reflexivity.
  - lia.
  - rewrite Hb. lra.
  - fold rank. ring.
  - destruct (Z.eq_dec (Zceil rank) (Zfloor rank)) as [He | He].
    + left. split; [now rewrite He |].
      rewrite Hb. rewrite He in Hc2. lra.
    + right. rewrite <- Z2Nat.inj_succ by assumption. f_equal. lia.
Qed.

Lemma quantile_between (x : R) (l : list R) (q alpha : R) :
  quantile (x :: l) q = Ok alpha ->
  exists lo hi, In lo (x :: l) /\ In hi (x :: l) /\ lo <= alpha <= hi.
Proof.
  intros H.
  assert (Hq : 0 <= q <= 1).
  { unfold quantile in H. unfold Rleb in H.
    destruct (Rle_dec 0 q), (Rle_dec q 1); try discriminate. lra. }
  destruct (quantile_shape x l q Hq)
    as (b & a & w & Hv & Hba & Hw & _ & _).
  rewrite Hv in H. inversion H; subst alpha; clear H.
  pose proof (sort_sorted (x :: l)) as Hs.
  assert (Hl : length (sort (x :: l)) = S (length l))
    by (rewrite sort_length; reflexivity).
  exists (nth b (sort (x :: l)) 0), (nth a (sort (x :: l)) 0).
  split; [apply sort_In, nth_In; rewrite Hl; lia |].
  split; [apply sort_In, nth_In; rewrite Hl; lia |].
  assert (Hle : nth b (sort (x :: l)) 0 <= nth a (sort (x :: l)) 0)
    by (apply sorted_nth_le; [exact Hs | rewrite Hl; lia]).
  apply lerp_between; [exact Hle | lra].
Qed.

Lemma quantile_monotone (input : list R) (q1 q2 a1 a2 : R) :
  q1 <= q2 ->
  quantile input q1 = Ok a1 -> quantile input q2 = Ok a2 -> a1 <= a2.
Proof.
  intros Hq H1 H2. destruct input as [| x l]; [discriminate |].
  assert (Hq1 : 0 <= q1 <= 1).
  { unfold quantile, Rleb in H1.
    destruct (Rle_dec 0 q1), (Rle_dec q1 1); try discriminate. lra. }
  assert (Hq2 : 0 <= q2 <= 1).
  { unfold quantile, Rleb in H2.
    destruct (Rle_dec 0 q2), (Rle_dec q2 1); try discriminate. lra. }
  destruct (quantile_shape x l q1 Hq1)
    as (b1 & c1 & w1 & Hv1 & Hb1 & Hw1 & Hr1 & Hc1).
  destruct (quantile_shape x l q2 Hq2)
    as (b2 & c2 & w2 & Hv2 & Hb2 & Hw2 & Hr2 & Hc2).
  rewrite Hv1 in H1. rewrite Hv2 in H2.
  inversion H1; subst a1. inversion H2; subst a2. clear H1 H2 Hv1 Hv2.
  pose proof (sort_sorted (x :: l)) as Hs.
  assert (Hl : length (sort (x :: l)) = S (length l))
    by (rewrite sort_length; reflexivity).
  assert (Hnth : forall i j, (i <= j <= length l)%nat ->
                             nth i (sort (x :: l)) 0
                             <= nth j (sort (x :: l)) 0).
  { intros i j Hij. apply sorted_nth_le; [exact Hs | rewrite Hl; lia]. }
  assert (Hrank : INR b1 + w1 <= INR b2 + w2).
  { rewrite Hr1, Hr2. apply Rmult_le_compat_r; [apply pos_INR | exact Hq]. }
  assert (Hw1' : 0 <= w1 <= 1) by lra.
  assert (Hw2' : 0 <= w2 <= 1) by lra.
  pose proof (Hnth b1 c1 ltac:(lia)) as Hs1.
  pose proof (Hnth b2 c2 ltac:(lia)) as Hs2.
  pose proof (lerp_between _ _ w1 Hs1 Hw1') as Hl1.
  pose proof (lerp_between _ _ w2 Hs2 Hw2') as Hl2.
  destruct (Nat.lt_trichotomy b1 b2) as [Hlt | [Heq | Hgt]].
  - pose proof (Hnth c1 b2 ltac:(lia)) as Hmid.
    eapply Rle_trans; [apply Hl1 |].
    eapply Rle_trans; [exact Hmid | apply Hl2].
  - subst b2.
    destruct Hc1 as [[-> ->] | ->], Hc2 as [[-> ->] | ->].
    + rewrite !lerp_zero. apply Rle_refl.
    + rewrite lerp_zero. apply Hl2.
    + assert (w1 = 0) by lra. subst w1. rewrite !lerp_zero. apply Rle_refl.
    + apply lerp_monotone; [exact Hs1 | lra].
  - exfalso.
    assert (INR b2 + 1 <= INR b1).
    { rewrite <- S_INR. apply le_INR. lia. }
    lra.
Qed.

Lemma masked_in_antitone (alpha1 alpha2 : R) (p : row) :
  alpha1 <= alpha2 -> masked_in alpha2 p = true -> masked_in alpha1 p = true.
Proof.
  unfold masked_in, Rleb. intros Ha H.
  destruct (Rle_dec alpha2 (confidence_of p)); [| discriminate].
  destruct (Rle_dec alpha1 (confidence_of p)); [reflexivity | lra].
Qed.

(** ** The threshold and the mask *)

Lemma gather_app (t : tensor) (idx1 idx2 : list nat) (r1 r2 : tensor) :
  gather t idx1 = Ok r1 -> gather t idx2 = Ok r2 ->
  gather t (idx1 ++ idx2) = Ok (r1 ++ r2).
Proof.
  revert r1. induction idx1 as [| i idx1 IH]; intros r1 H1 H2; simpl in *.
  - inversion H1. exact H2.
  - destruct (nth_error t i) as [r |]; [| discriminate].
    apply bind_Ok in H1. destruct H1 as (rest & Hrest & H1).
    inversion H1; subst r1. rewrite (IH rest Hrest H2). reflexivity.
Qed.

Lemma gather_batches_concat {Input : Type} (t : tensor) (l : loader Input) :
  forall rows, gather_batches t l = Ok rows ->
               gather t (concat (map batch_idx l)) = Ok (concat rows).
Proof.
  induction l as [| b l IH]; intros rows H; simpl in H.
  - inversion H. reflexivity.
  - apply bind_Ok in H. destruct H as (r & Hr & H).
    apply bind_Ok in H. destruct H as (more & Hmore & H).
    inversion H; subst rows. simpl. apply gather_app; auto.
Qed.

Lemma calc_alpha_inv {Input Model : Type} (self : adapter Input Model)
    (l : loader Input) (q alpha : R) :
  _calc_alpha self l q = Ok alpha ->
  exists rows,
    gather (Z self) (concat (map batch_idx l)) = Ok rows /\
    quantile (map confidence_of rows) q = Ok alpha.
Proof.
  unfold _calc_alpha. intros H.
  apply bind_Ok in H. destruct H as (rs & Hrs & H).
  apply bind_Ok in H. destruct H as (total & Ht & H).
  destruct rs as [| r rs]; [discriminate |]. inversion Ht; subst total.
  exists (concat (r :: rs)). split; [| exact H].
  now apply gather_batches_concat.
Qed.

(** X10: the threshold [_calc_alpha] returns lies between the confidences
    of two rows of [Z] of the domain; in particular some sample of the
    domain has a [Z]-row confidence of at least [alpha]. *)
Theorem calc_alpha_between_confidences {Input Model : Type}
    (self : adapter Input Model) (l : loader Input) (q alpha : R) :
  _calc_alpha self l q = Ok alpha ->
  exists rows lo hi,
    gather (Z self) (concat (map batch_idx l)) = Ok rows /\
    In lo rows /\ In hi rows /\
    confidence_of lo <= alpha <= confidence_of hi.
Proof.
  intros H. destruct (calc_alpha_inv self l q alpha H) as (rows & Hg & Hq).
  destruct (map confidence_of rows) as [| c cs] eqn:Hc; [discriminate |].
  destruct (quantile_between c cs q alpha Hq) as (lo & hi & Hlo & Hhi & Hb).
  rewrite <- Hc in Hlo, Hhi.
  apply in_map_iff in Hlo. destruct Hlo as (rlo & <- & Hlo).
  apply in_map_iff in Hhi. destruct Hhi as (rhi & <- & Hhi).
  exists rows, rlo, rhi. auto.
Qed.

(** X11: on the same tables and loader, a larger confidence quantile never
    gives a smaller threshold. *)
Theorem calc_alpha_monotone {Input Model : Type}
    (self : adapter Input Model) (l : loader Input) (q1 q2 a1 a2 : R) :
  q1 <= q2 ->
  _calc_alpha self l q1 = Ok a1 -> _calc_alpha self l q2 = Ok a2 ->
  a1 <= a2.
Proof.
  intros Hq H1 H2.
  destruct (calc_alpha_inv self l q1 a1 H1) as (rows1 & Hg1 & Hq1).
  destruct (calc_alpha_inv self l q2 a2 H2) as (rows2 & Hg2 & Hq2).
  rewrite Hg1 in Hg2. inversion Hg2; subst rows2.
  eapply quantile_monotone; eauto.
Qed.

Lemma mask_of_loss (sl ep : tensor) (alpha : R) (loss : pyfloat)
    (mask : list bool) :
  _pseudo_label_loss sl ep alpha = Ok (loss, mask) ->
  mask = map (masked_in alpha) ep.
Proof.
  unfold _pseudo_label_loss. intros H.
  apply bind_Ok in H. destruct H as (v & _ & H).
  inversion H. now rewrite map_map.
Qed.

(** X12: raising the threshold never adds a sample to the mask of the
    pseudo-label loss: every sample kept at the larger threshold is kept at
    the smaller one, and the number of kept samples does not grow. *)
Theorem mask_shrinks_with_alpha (sl ep : tensor) (alpha1 alpha2 : R)
    (loss1 loss2 : pyfloat) (mask1 mask2 : list bool) :
  alpha1 <= alpha2 ->
  _pseudo_label_loss sl ep alpha1 = Ok (loss1, mask1) ->
  _pseudo_label_loss sl ep alpha2 = Ok (loss2, mask2) ->
  Forall2 (fun kept2 kept1 => kept2 = true -> kept1 = true) mask2 mask1 /\
  (mask_sum mask2 <= mask_sum mask1)%nat.
Proof.
  intros Ha H1 H2.
  rewrite (mask_of_loss _ _ _ _ _ H1), (mask_of_loss _ _ _ _ _ H2).
  clear H1 H2. unfold mask_sum.
  induction ep as [| p ep [IH1 IH2]]; simpl.
  - split; [constructor | lia].
  - pose proof (masked_in_antitone alpha1 alpha2 p Ha) as Hp.
    split; [constructor; assumption |].
    destruct (masked_in alpha2 p); simpl.
    + rewrite Hp by reflexivity. simpl. lia.
    + destruct (masked_in alpha1 p); simpl; lia.
Qed.

(** ** Errors and sign of the pseudo-label loss *)

Lemma nll_loss_Ok_well_shaped (sl : tensor) :
  forall (ep : tensor) (v : list R),
    nll_loss (map log_softmax sl) (map argmax ep) = Ok v ->
    well_shaped sl ep.
Proof.
  induction sl as [| l sl IH]; intros [| p ep] v H; simpl in H;
    try discriminate.
  - constructor.
  - destruct (nth_error (log_softmax l) (argmax p)) as [x |] eqn:Hx;
      [| discriminate].
    apply bind_Ok in H. destruct H as (rest & Hrest & _).
    constructor; [| eapply IH; eauto].
    rewrite <- (length_log_softmax l). apply nth_error_Some.
    rewrite Hx. discriminate.
Qed.

(** X13: [_pseudo_label_loss] returns exactly when the two tensors have
    the same number of rows and every teacher label (the argmax of an
    ensemble row) is a class index of the student logits; the mask it
    returns then depends on the ensemble rows and the threshold only. *)
Theorem pseudo_label_loss_returns_iff (sl ep : tensor) (alpha : R) :
  ((exists r, _pseudo_label_loss sl ep alpha = Ok r) <-> well_shaped sl ep) /\
  (forall loss mask,
      _pseudo_label_loss sl ep alpha = Ok (loss, mask) ->
      mask = map (fun p => Rleb alpha (amax p - amin p)) ep).
Proof.
  split; [split |].
  - intros (r & H). unfold _pseudo_label_loss in H.
    apply bind_Ok in H. destruct H as (v & Hv & _).
    eapply nll_loss_Ok_well_shaped; eauto.
  - intros Hw. rewrite (pseudo_label_loss_eval sl ep alpha Hw).
    eexists. reflexivity.
  - intros loss mask H. apply (mask_of_loss _ _ _ _ _ H).
Qed.

Lemma exp_le_sum_map_exp (l : row) (x : R) :
  In x l -> exp x <= sum (map exp l).
Proof.
  induction l as [| y l IH]; [contradiction |].
  intros [-> | Hin]; rewrite map_cons, sum_cons.
  - pose proof (sum_map_exp_nonneg l). lra.
  - specialize (IH Hin). pose proof (exp_pos y). lra.
Qed.

Lemma teacher_nll_nonneg (l p : row) :
  (argmax p < length l)%nat -> 0 <= teacher_nll l p.
Proof.
  intros Hlt. unfold teacher_nll, log_softmax.
  set (s := sum (map exp l)).
  rewrite (nth_indep _ 0 (0 - ln s)) by (rewrite length_map; exact Hlt).
  rewrite (map_nth (fun x => x - ln s)).
  set (x := nth (argmax p) l 0).
  assert (Hin : In x l) by (apply nth_In; exact Hlt).
  pose proof (exp_le_sum_map_exp l x Hin) as Hle. fold s in Hle.
  pose proof (exp_pos x) as Hx.
  assert (x <= ln s).
  { rewrite <- (ln_exp x). destruct Hle as [Hlt' | Heq].
    - left. now apply ln_increasing.
    - right. now rewrite Heq. }
  lra.
Qed.

Lemma masked_nll_sum_nonneg (alpha : R) (sl ep : tensor) :
  well_shaped sl ep -> 0 <= masked_nll_sum alpha sl ep.
Proof.
  induction 1 as [| l p sl ep Hlt Hrest IH]; simpl; [lra |].
  pose proof (teacher_nll_nonneg l p Hlt).
  destruct (masked_in alpha p); lra.
Qed.

Lemma masked_count_le (alpha : R) (ep : tensor) :
  (masked_count alpha ep <= length ep)%nat.
Proof. unfold masked_count. apply filter_length_le. Qed.

Lemma well_shaped_rows (sl ep : tensor) :
  well_shaped sl ep -> length ep = length sl.
Proof. induction 1; simpl; congruence. Qed.

(** X14: on a non-empty, well-shaped batch the loss is a finite,
    non-negative number; when some sample is masked in, it is the mean
    over the masked-in samples scaled by the fraction of masked-in samples
    in the batch, hence never larger than that mean. *)
Theorem pseudo_label_loss_nonneg_scaled (sl ep : tensor) (alpha : R) :
  well_shaped sl ep -> sl <> [] ->
  exists v,
    _pseudo_label_loss sl ep alpha = Ok (Fin v, map (masked_in alpha) ep) /\
    0 <= v /\
    ((0 < masked_count alpha ep)%nat ->
     v = masked_mean_loss alpha sl ep
         * (INR (masked_count alpha ep) / INR (length sl)) /\
     v <= masked_mean_loss alpha sl ep).
Proof.
  intros Hw Hne.
  exists (masked_nll_sum alpha sl ep / INR (length sl)).
  assert (HB : 0 < INR (length sl)).
  { apply lt_0_INR. destruct sl; [contradiction | simpl; lia]. }
  pose proof (masked_nll_sum_nonneg alpha sl ep Hw) as HS.
  split; [| split].
  - rewrite (pseudo_label_loss_eval sl ep alpha Hw).
    destruct sl; [contradiction | reflexivity].
  - apply Rmult_le_pos; [exact HS |].
    apply Rlt_le. now apply Rinv_0_lt_compat.
  - intros Hc. unfold masked_mean_loss.
    assert (Hc' : 0 < INR (masked_count alpha ep)) by now apply lt_0_INR.
    assert (Hle : INR (masked_count alpha ep) <= INR (length sl)).
    { apply le_INR. rewrite <- (well_shaped_rows sl ep Hw).
      apply masked_count_le. }
    split; [field; lra |].
    unfold Rdiv. apply Rmult_le_compat_l; [exact HS |].
    apply Rinv_le_contravar; assumption.
Qed.

(** ** The threshold is read from [Z], the mask from [z] *)





Section MaskedOutCandidate.

Context {Input Model Optimizer : Type}.
Variable forward : bool -> Model -> list Input -> tensor.
Variable Adam : Model -> R -> Optimizer.
Variable optimizer_step :
  Optimizer -> Model -> list Input -> tensor -> R -> Model * Optimizer.
Variable validator : tensor -> pyfloat.
Implicit Types self : adapter Input Model.



End MaskedOutCandidate.






(** ** The oracle evaluation *)

Lemma count_eq_le (a : list nat) :
  forall (b : list nat) (n : nat),
    count_eq a b = Ok n -> (n <= length b)%nat.
Proof.
  induction a as [| x a IH]; intros [| y b] n H; simpl in H;
    try discriminate.
  - inversion H. simpl. lia.
  - apply bind_Ok in H. destruct H as (m & Hm & H).
    specialize (IH _ _ Hm). inversion H; subst n. simpl.
    destruct (Nat.eqb x y); lia.
Qed.

Section OracleProperties.

Context {Input Model : Type}.
Variable forward : bool -> Model -> list Input -> tensor.
Implicit Types self : adapter Input Model.

Lemma oracle_batches_counts self (mo : Model) (l : loader Input) :
  forall tc tp tn tc' tp' tn',
    oracle_batches forward self mo l tc tp tn = Ok (tc', tp', tn') ->
    (tc <= tn)%nat -> (tp <= tn)%nat ->
    (tc' <= tn')%nat /\ (tp' <= tn')%nat /\
    tn' = (tn + length (concat l))%nat.
Proof.
  induction l as [| b l IH]; intros tc tp tn tc' tp' tn' H Hc Hp;
    simpl in H.
  - inversion H; subst. simpl. lia.
  - apply bind_Ok in H. destruct H as (c & Hcount & H).
    apply bind_Ok in H. destruct H as (rows & Hrows & H).
    apply bind_Ok in H. destruct H as (p & Hpl & H).
    assert (Hcb : (c <= length b)%nat).
    { apply count_eq_le in Hcount. unfold batch_y in Hcount.
      rewrite length_map in Hcount. exact Hcount. }
    assert (Hpb : (p <= length b)%nat).
    { apply count_eq_le in Hpl. unfold batch_y in Hpl.
      rewrite length_map in Hpl. exact Hpl. }
    destruct (IH _ _ _ _ _ _ H) as (H1 & H2 & H3); [lia | lia |].
    cbn [concat]. rewrite length_app. lia.
Qed.

Lemma oracle_eval_epoch_range self (mo : Model) (l : loader Input)
    (acc pl_acc : R) :
  _oracle_eval_epoch forward self mo l = Ok (acc, pl_acc) ->
  0 <= acc <= 1 /\ 0 <= pl_acc <= 1 /\ concat l <> [].
Proof.
  unfold _oracle_eval_epoch. intros H.
  apply bind_Ok in H. destruct H as ([[tc tp] tn] & Hrun & H).
  destruct (oracle_batches_counts _ _ _ _ _ _ _ _ _ Hrun) as (Hc & Hp & Hn);
    try lia.
  destruct tn as [| tn]; [discriminate |].
  inversion H; subst acc pl_acc; clear H.
  assert (Hpos : 0 < INR (S tn)) by (apply lt_0_INR; lia).
  apply le_INR in Hc, Hp.
  pose proof (pos_INR tc). pose proof (pos_INR tp).
  assert (Hdiv : forall x, 0 <= x <= INR (S tn) -> 0 <= x / INR (S tn) <= 1).
  { intros x Hx. split.
    - apply Rmult_le_pos; [lra |].
      apply Rlt_le. now apply Rinv_0_lt_compat.
    - apply (Rmult_le_reg_r (INR (S tn))); [exact Hpos |].
      unfold Rdiv. rewrite Rmult_assoc, Rinv_l by lra. lra. }
  split; [apply Hdiv; lra |]. split; [apply Hdiv; lra |].
  intros Hnil. rewrite Hnil in Hn. simpl in Hn. lia.
Qed.

(** X15: [_oracle_eval_epoch] returns only when the loader holds at least
    one sample, and then both the accuracy of the model and the accuracy of
    the pseudo-labels lie between 0 and 1; on a loader without batches the
    division by [total_num] raises [ZeroDivisionError]. *)
Theorem oracle_eval_epoch_bounds self (mo : Model) (l : loader Input)
    (acc pl_acc : R) :
  _oracle_eval_epoch forward self mo l = Ok (acc, pl_acc) ->
  0 <= acc <= 1 /\ 0 <= pl_acc <= 1 /\ concat l <> [] /\
  _oracle_eval_epoch forward self mo [] = Raise ZeroDivisionError.
Proof.
  intros H.
  destruct (oracle_eval_epoch_range _ _ _ _ _ H) as (Ha & Hp & Hn).
  repeat split; (apply Ha || apply Hp || exact Hn).
Qed.

End OracleProperties.

(** ** Epochs, candidates and the dictionary of the sweep *)

Lemma dict_set_keys {V : Type} (d : list (R * V)) (k : R) (v : V) :
  (In k (map fst d) -> map fst (dict_set d k v) = map fst d) /\
  (~ In k (map fst d) -> map fst (dict_set d k v) = map fst d ++ [k]).
Proof.
  induction d as [| [k' v'] d [IH1 IH2]]; simpl.
  - split; [intros [] | reflexivity].
  - destruct (Req_dec_T k' k) as [-> | Hne]; simpl.
    + split; [reflexivity | intros H; exfalso; apply H; now left].
    + split.
      * intros [Heq | Hin]; [contradiction |]. now rewrite IH1.
      * intros Hn. rewrite IH2; [reflexivity |]. intros Hin. apply Hn.
        now right.
Qed.

Lemma dict_set_keys_spec {V : Type} (d : list (R * V)) (k : R) (v : V) :
  NoDup (map fst d) ->
  NoDup (map fst (dict_set d k v)) /\
  (forall q, In q (map fst (dict_set d k v)) <-> q = k \/ In q (map fst d)) /\
  (length (dict_set d k v) <= S (length d))%nat.
Proof.
  intros Hnd. destruct (dict_set_keys d k v) as [Hin Hout].
  destruct (in_dec Req_dec_T k (map fst d)) as [Hk | Hk].
  - assert (Hlen : length (dict_set d k v) = length d).
    { rewrite <- (length_map fst (dict_set d k v)), (Hin Hk).
      apply length_map. }
    rewrite (Hin Hk). split; [exact Hnd |]. split; [| lia].
    intros q. split; [auto | intros [-> | H]; assumption].
  - assert (Hlen : length (dict_set d k v) = S (length d)).
    { rewrite <- (length_map fst (dict_set d k v)), (Hout Hk).
      rewrite length_app, length_map. simpl. lia. }
    rewrite (Hout Hk). split; [| split; [| lia]].
    + apply NoDup_app; [exact Hnd | repeat constructor; intros [] |].
      intros x Hx [<- | []]. contradiction.
    + intros q. rewrite in_app_iff. simpl. intuition.
Qed.

Section SweepDictionary.

Context {Input Model Optimizer : Type}.
Variable forward : bool -> Model -> list Input -> tensor.
Variable Adam : Model -> R -> Optimizer.
Variable optimizer_step :
  Optimizer -> Model -> list Input -> tensor -> R -> Model * Optimizer.
Variable validator : tensor -> pyfloat.
Implicit Types self : adapter Input Model.

Local Abbreviation train_eval :=
  (_adapt_train_eval forward Adam optimizer_step validator).
Local Abbreviation run_sweep := (sweep forward Adam optimizer_step validator).
Local Abbreviation run_adapt := (adapt forward Adam optimizer_step validator).

Lemma epochs_loop_zero self (l : loader Input) (alpha : R) (mo : Model)
    (opt : Optimizer) :
  epochs_loop forward optimizer_step validator self l alpha O mo opt None
  = Ok (mo, None).
Proof. reflexivity. Qed.

Lemma train_eval_needs_an_epoch self (domain_idx : int) (q : R) (a : args) :
  (adapt_epochs a <= 0)%Z ->
  forall r, train_eval self domain_idx q a <> Ok r.
Proof.
  intros He r H. unfold _adapt_train_eval in H.
  apply bind_Ok in H. destruct H as (u & _ & H).
  apply bind_Ok in H. destruct H as (l & _ & H).
  apply bind_Ok in H. destruct H as (alpha & _ & H).
  replace (Z.to_nat (adapt_epochs a)) with O in H by lia.
  rewrite epochs_loop_zero in H. discriminate.
Qed.

(** X16: with [adapt_epochs] at or below 0 the loop over the epochs does
    not run, [pl_acc] is never bound, and a candidate whose ensemble
    update and threshold succeed raises [UnboundLocalError]; [adapt] then
    never returns, whatever the sweep. *)
Theorem adapt_needs_an_epoch self (domain_idx : int) (qs : list R)
    (a : args) :
  (adapt_epochs a <= 0)%Z ->
  (forall self', run_adapt self domain_idx qs a <> Ok self') /\
  (forall q u l alpha,
      _update_Z forward self domain_idx = Ok u ->
      py_getitem (trainloader_list u) domain_idx = Ok l ->
      _calc_alpha u l q = Ok alpha ->
      train_eval self domain_idx q a = Raise UnboundLocalError).
Proof.
  intros He. split.
  - intros self' H. unfold adapt in H.
    apply bind_Ok in H. destruct H as ([last perf] & Hs & H).
    destruct qs as [| q qs]; simpl in Hs.
    + inversion Hs; subst. discriminate.
    + apply bind_Ok in Hs. destruct Hs as (r & Hr & _).
      exact (train_eval_needs_an_epoch _ _ _ _ He r Hr).
  - intros q u l alpha Hu Hl Ha. unfold _adapt_train_eval.
    rewrite Hu. cbn [bind]. rewrite Hl. cbn [bind]. rewrite Ha. cbn [bind].
    replace (Z.to_nat (adapt_epochs a)) with O by lia.
    reflexivity.
Qed.

Lemma sweep_keys (domain_idx : int) (a : args) (qs : list R) :
  forall self perf self' perf',
    run_sweep self domain_idx qs a perf = Ok (self', perf') ->
    NoDup (map fst perf) ->
    NoDup (map fst perf') /\
    (forall q, In q (map fst perf') <-> In q (map fst perf) \/ In q qs) /\
    (length perf' <= length perf + length qs)%nat.
Proof.
  induction qs as [| q qs IH]; intros self perf self' perf' H Hnd;
    simpl in H.
  - inversion H; subst. split; [exact Hnd |]. split; [| lia].
    intros q. simpl. tauto.
  - apply bind_Ok in H. destruct H as ([c [mo sc]] & _ & H).
    destruct (dict_set_keys_spec perf q (mo, sc) Hnd) as (Hnd1 & Hk1 & Hl1).
    destruct (IH _ _ _ _ H Hnd1) as (Hnd2 & Hk2 & Hl2).
    split; [exact Hnd2 |]. split; [| simpl; lia].
    intros q'. rewrite Hk2, Hk1. simpl. intuition.
Qed.

(** X17: [performance_dict] holds one entry per distinct value of
    [confidence_q_list]: its keys are exactly the values of the list,
    without repetition, so a value that occurs twice contributes a single
    candidate to the selection. *)
Theorem sweep_one_entry_per_value self (domain_idx : int) (qs : list R)
    (a : args) last (perf : performance_dict Model) :
  run_sweep self domain_idx qs a [] = Ok (last, perf) ->
  NoDup (map fst perf) /\
  (forall q, In q (map fst perf) <-> In q qs) /\
  (length perf <= length qs)%nat.
Proof.
  intros H.
  destruct (sweep_keys _ _ _ _ _ _ _ H (NoDup_nil R)) as (Hnd & Hk & Hl).
  split; [exact Hnd |]. split; [| exact Hl].
  intros q. rewrite Hk. simpl. tauto.
Qed.

Lemma sweep_lengths (domain_idx : int) (a : args) (qs : list R) :
  forall self perf self' perf',
    run_sweep self domain_idx qs a perf = Ok (self', perf') ->
    length (Z self') = length (Z self) /\ length (z self') = length (z self).
Proof.
  induction qs as [| q qs IH]; intros self perf self' perf' H; simpl in H.
  - inversion H; subst. split; reflexivity.
  - apply bind_Ok in H. destruct H as ([c [mo sc]] & Hc & H).
    destruct (adapt_train_eval_inv forward Adam optimizer_step validator
                _ _ _ _ _ _ _ Hc) as (u & pl & dist & Hu & _ & ->).
    destruct (update_Z_table_lengths forward _ _ _ Hu) as [HZ Hz].
    destruct (IH _ _ _ _ H) as [HZ' Hz']. simpl in HZ', Hz'.
    split; congruence.
Qed.

(** X18: a call to [adapt] that returns has changed neither [beta], nor
    the loaders, nor the distance list, and has left the tables with the
    numbers of rows they had. *)
Theorem adapt_keeps_settings self (domain_idx : int) (qs : list R)
    (a : args) self' :
  run_adapt self domain_idx qs a = Ok self' ->
  beta self' = beta self /\
  trainloader_list self' = trainloader_list self /\
  norm_dist_list self' = norm_dist_list self /\
  length (Z self') = length (Z self) /\ length (z self') = length (z self).
Proof.
  intros H.
  destruct (adapt_inv forward Adam optimizer_step validator _ _ _ _ _ H)
    as (last & perf & Hs & _ & ->).
  destruct (sweep_inv forward Adam optimizer_step validator _ _ _ _ _ _ _ Hs)
    as ((_ & Hb & Hl & Hn) & _).
  destruct (sweep_lengths _ _ _ _ _ _ _ Hs) as [HZ Hz].
  simpl. repeat split; assumption.
Qed.

End SweepDictionary.

(** ** The validation epoch *)

Lemma mask_sum_pos_Exists (alpha : R) (ep : tensor) :
  mask_sum (map (masked_in alpha) ep) <> O ->
  Exists (fun p => alpha <= confidence_of p) ep.
Proof.
  unfold mask_sum. induction ep as [| p ep IH]; simpl; [congruence |].
  destruct (masked_in alpha p) eqn:Hp; simpl; intros H.
  - left. unfold masked_in, Rleb in Hp.
    destruct (Rle_dec alpha (confidence_of p)); [assumption | discriminate].
  - right. now apply IH.
Qed.

Section EvalEpochProperties.

Context {Input Model : Type}.
Variable forward : bool -> Model -> list Input -> tensor.
Variable validator : tensor -> pyfloat.
Implicit Types self : adapter Input Model.

Lemma eval_batches_inv self (alpha : R) (mo : Model) (l : loader Input) :
  forall tl tn tlog tl' tn' tlog',
    eval_batches forward self alpha l mo tl tn tlog = Ok (tl', tn', tlog') ->
    tlog' = tlog ++ map (fun b => forward false mo (batch_data b)) l /\
    (tn' = tn \/
     exists b ep,
       In b l /\ gather (z self) (batch_idx b) = Ok ep /\
       Exists (fun p => alpha <= confidence_of p) ep).
Proof.
  induction l as [| b l IH]; intros tl tn tlog tl' tn' tlog' H; simpl in H.
  - inversion H; subst. rewrite app_nil_r. auto.
  - apply bind_Ok in H. destruct H as (ep & Hep & H).
    apply bind_Ok in H. destruct H as ([loss mask] & Hloss & H).
    apply mask_of_loss in Hloss. subst mask.
    destruct (IH _ _ _ _ _ _ H) as (Hlog & Hnum).
    split.
    + rewrite Hlog, <- app_assoc. reflexivity.
    + destruct (Nat.eq_dec (mask_sum (map (masked_in alpha) ep)) O) as [H0 | H0].
      * destruct Hnum as [-> | (b' & ep' & Hin & Hg & Hex)].
        -- left. lia.
        -- right. exists b', ep'. split; [now right | auto].
      * right. exists b, ep. split; [now left |]. split; [exact Hep |].
        now apply mask_sum_pos_Exists.
Qed.

(** X19: when [_adapt_eval_epoch] returns, the score is the validator's
    answer on the logits of every sample of the loader, in the order of
    the batches and whether the sample is masked in or not; and it returns
    only if some sample of the loader is masked in at the threshold (with
    no such sample the division by [total_num] raises). *)
Theorem adapt_eval_epoch_scores_all_logits self (mo : Model)
    (l : loader Input) (alpha : R) (loss score : pyfloat) :
  _adapt_eval_epoch forward validator self mo l alpha = Ok (loss, score) ->
  score
  = validator (concat (map (fun b => forward false mo (batch_data b)) l)) /\
  exists b ep,
    In b l /\ gather (z self) (batch_idx b) = Ok ep /\
    Exists (fun p => alpha <= confidence_of p) ep.
Proof.
  unfold _adapt_eval_epoch. intros H.
  apply bind_Ok in H. destruct H as ([[tl tn] tlog] & Hrun & H).
  apply bind_Ok in H. destruct H as (tl' & Hdiv & H).
  apply bind_Ok in H. destruct H as (logits & Hcat & H).
  inversion H; subst loss score; clear H.
  destruct (eval_batches_inv _ _ _ _ _ _ _ _ _ _ Hrun) as (Hlog & Hnum).
  simpl in Hlog. split.
  - unfold cat in Hcat. destruct tlog; [discriminate |].
    inversion Hcat. now rewrite <- Hlog.
  - destruct Hnum as [-> | Hex]; [discriminate | exact Hex].
Qed.

End EvalEpochProperties.

(** ** Supervised training on the source domain *)

Section SourceTrainProperties.

Context {Input Encoder Head Optim : Type}.
Variable net_forward : Encoder * Head -> list Input -> tensor.
Variable sup_step :
  Optim -> Encoder * Head -> list Input -> list nat
  -> Encoder * Head * Optim.
Variable eval : Encoder * Head -> res R.

Local Abbreviation run_loop := (source_train_loop net_forward sup_step eval).

Lemma train_loop_counts (l : list (labelled_batch Input)) :
  forall net tl tc tn net' tl' tc' tn',
    train_loop net_forward sup_step l net tl tc tn
    = Ok (net', tl', tc', tn') ->
    (tc <= tn)%nat ->
    (tc' <= tn')%nat /\ tn' = (tn + length (concat l))%nat.
Proof.
  induction l as [| b l IH]; intros net tl tc tn net' tl' tc' tn' H Hc;
    simpl in H.
  - inversion H; subst. simpl. lia.
  - apply bind_Ok in H. destruct H as (v & _ & H).
    apply bind_Ok in H. destruct H as (c & Hcount & H).
    assert (Hcb : (c <= length b)%nat).
    { apply count_eq_le in Hcount. rewrite length_map in Hcount.
      exact Hcount. }
    destruct (IH _ _ _ _ _ _ _ _ H) as (H1 & H2); [lia |].
    cbn [concat]. rewrite length_app. lia.
Qed.

(** X20: [train] returns only when the loader holds at least one sample,
    and the accuracy it reports then lies between 0 and 1; on a loader
    without batches the division by [total_num] raises
    [ZeroDivisionError]. *)
Theorem train_accuracy_bounds (l : list (labelled_batch Input))
    (net net' : Encoder * Head * Optim) (loss : pyfloat) (acc : R) :
  train net_forward sup_step l net = Ok (net', loss, acc) ->
  0 <= acc <= 1 /\ concat l <> [] /\
  train net_forward sup_step [] net = Raise ZeroDivisionError.
Proof.
  unfold train. intros H.
  apply bind_Ok in H. destruct H as ([[[n tl] tc] tn] & Hrun & H).
  destruct (train_loop_counts _ _ _ _ _ _ _ _ _ Hrun) as (Hc & Hn); [lia |].
  apply bind_Ok in H. destruct H as (tl' & Hdiv & H).
  destruct tn as [| tn]; [discriminate |].
  inversion H; subst net' loss acc; clear H.
  assert (Hpos : 0 < INR (S tn)) by (apply lt_0_INR; lia).
  apply le_INR in Hc. pose proof (pos_INR tc).
  split; [split |]; [| | split; [| reflexivity]].
  - apply Rmult_le_pos; [lra |].
    apply Rlt_le. now apply Rinv_0_lt_compat.
  - apply (Rmult_le_reg_r (INR (S tn))); [exact Hpos |].
    unfold Rdiv. rewrite Rmult_assoc, Rinv_l by lra. lra.
  - intros Hnil. rewrite Hnil in Hn. simpl in Hn. lia.
Qed.

Lemma source_train_loop_best (l : list (labelled_batch Input)) :
  forall k net bva best s r,
    run_loop l k net bva best s = Ok r ->
    0 <= bva ->
    (forall b, best = Some b -> exists acc, eval b = Ok acc /\ 0 < acc) ->
    forall b, r = Some b -> exists acc, eval b = Ok acc /\ 0 < acc.
Proof.
  induction k as [| k IH]; intros net bva best s r H Hb Hbest; simpl in H.
  - inversion H; subst r. exact Hbest.
  - apply bind_Ok in H. destruct H as ([[n tl] ta] & _ & H).
    apply bind_Ok in H. destruct H as (val_acc & Hval & H).
    cbn beta iota in H.
    destruct (Rltb bva val_acc) eqn:Hlt.
    + apply Rltb_spec in Hlt.
      destruct (patience <? 0)%nat eqn:Hp; [discriminate |].
      apply (IH _ _ _ _ _ H); [lra |].
      intros b Hb'. inversion Hb'; subst b. exists val_acc.
      split; [exact Hval | lra].
    + destruct (patience <? S s)%nat.
      * inversion H; subst r. exact Hbest.
      * apply (IH _ _ _ _ _ H); assumption.
Qed.

Lemma source_train_loop_no_gain (l : list (labelled_batch Input)) :
  forall k net bva best s r,
    (forall n acc, eval n = Ok acc -> acc <= bva) ->
    run_loop l k net bva best s = Ok r -> r = best.
Proof.
  induction k as [| k IH]; intros net bva best s r Hno H; simpl in H.
  - now inversion H.
  - apply bind_Ok in H. destruct H as ([[n tl] ta] & _ & H).
    apply bind_Ok in H. destruct H as (val_acc & Hval & H).
    cbn beta iota in H.
    rewrite (Rltb_false bva val_acc (Hno _ _ Hval)) in H.
    destruct (patience <? S s)%nat.
    + now inversion H.
    + apply (IH _ _ _ _ _ Hno H).
Qed.

Lemma source_train_loop_stale (l : list (labelled_batch Input)) :
  forall k net bva best s,
    (forall n acc, eval n = Ok acc -> acc <= bva) ->
    (s <= patience)%nat -> (S patience - s <= k)%nat ->
    run_loop l k net bva best s
    = run_loop l (S patience - s) net bva best s.
Proof.
  induction k as [| k IH]; intros net bva best s Hno Hs Hk; [lia |].
  replace (S patience - s)%nat with (S (patience - s)) by lia.
  cbn [source_train_loop].
  destruct (train net_forward sup_step l net) as [[[n tl] ta] | e];
    [| reflexivity].
  cbn [bind]. destruct (eval (fst n)) as [val_acc | e] eqn:Hval;
    [| reflexivity].
  cbn [bind]. rewrite (Rltb_false bva val_acc (Hno _ _ Hval)).
  destruct (Nat.ltb_spec patience (S s)); [reflexivity |].
  rewrite (IH n bva best (S s) Hno) by lia.
  replace (S patience - S s)%nat with (patience - s)%nat by lia.
  reflexivity.
Qed.

(** X21: the pair [source_train] returns is either [None, None], or an
    encoder and head whose validation accuracy is positive (the snapshot
    taken at an epoch that improved on the best accuracy so far, which
    starts at 0).  It is [None, None] when [train_epochs] is at most 0 and
    when no validation accuracy is ever above 0. *)
Theorem source_train_best_validates (l : list (labelled_batch Input))
    (train_epochs : int) (net : Encoder * Head * Optim)
    (r : option (Encoder * Head)) :
  source_train net_forward sup_step eval l train_epochs net = Ok r ->
  (forall b, r = Some b -> exists acc, eval b = Ok acc /\ 0 < acc) /\
  ((train_epochs <= 0)%Z -> r = None) /\
  ((forall n acc, eval n = Ok acc -> acc <= 0) -> r = None).
Proof.
  unfold source_train. intros H. split; [| split].
  - apply (source_train_loop_best _ _ _ _ _ _ _ H); [lra |].
    intros b Hb. discriminate.
  - intros He. replace (Z.to_nat train_epochs) with O in H by lia.
    simpl in H. now inversion H.
  - intros Hno. apply (source_train_loop_no_gain _ _ _ _ _ _ _ Hno H).
Qed.

(** X22: early stopping.  From any state of the loop of [source_train]
    whose best validation accuracy is not improved upon any more, the loop
    runs [patience + 1 - staleness] further epochs at most: more epochs
    change nothing in what is returned.  In particular, when no validation
    accuracy is above 0, [source_train] with any [train_epochs] of at
    least 6 returns what it returns with 6. *)
Theorem source_train_stops_after_patience (l : list (labelled_batch Input))
    (net : Encoder * Head * Optim) (best_val_acc : R)
    (best : option (Encoder * Head)) (staleness k : nat) :
  (forall n acc, eval n = Ok acc -> acc <= best_val_acc) ->
  (staleness <= patience)%nat -> (S patience - staleness <= k)%nat ->
  run_loop l k net best_val_acc best staleness
  = run_loop l (S patience - staleness) net best_val_acc best staleness /\
  (best_val_acc = 0 ->
   forall train_epochs, (6 <= train_epochs)%Z ->
     source_train net_forward sup_step eval l train_epochs net
     = source_train net_forward sup_step eval l 6 net).
Proof.
  intros Hno Hs Hk. split.
  - now apply source_train_loop_stale.
  - intros -> train_epochs He. unfold source_train.
    rewrite (source_train_loop_stale l (Z.to_nat train_epochs) net 0 None O Hno)
      by (unfold patience; lia).
    reflexivity.
Qed.

End SourceTrainProperties.

(** ** Invariants of a whole call to [adapt] *)

Lemma momentum_of_range (b d : R) :
  0 <= b -> 0 <= d -> 0 < momentum_of b d <= 1.
Proof.
  intros Hb Hd. rewrite momentum_of_exp. split; [apply exp_pos |].
  assert (H : 0 <= b * d) by now apply Rmult_le_pos.
  destruct (Req_dec (b * d) 0) as [-> | Hne].
  - rewrite Ropp_0, exp_0. lra.
  - rewrite <- exp_0. apply Rlt_le, exp_increasing. lra.
Qed.

Lemma py_getitem_In {A : Type} (l : list A) (i : int) (a : A) :
  py_getitem l i = Ok a -> In a l.
Proof.
  unfold py_getitem.
  destruct (_ && _)%bool; [| discriminate].
  destruct (nth_error l _) as [x |] eqn:Hx; [| discriminate].
  intros H. inversion H; subst x. eapply nth_error_In; eauto.
Qed.

Section AdaptInvariants.

Context {Input Model Optimizer : Type}.
Variable forward : bool -> Model -> list Input -> tensor.
Variable Adam : Model -> R -> Optimizer.
Variable optimizer_step :
  Optimizer -> Model -> list Input -> tensor -> R -> Model * Optimizer.
Variable validator : tensor -> pyfloat.
Implicit Types self : adapter Input Model.

Local Abbreviation train_eval :=
  (_adapt_train_eval forward Adam optimizer_step validator).
Local Abbreviation run_sweep := (sweep forward Adam optimizer_step validator).
Local Abbreviation run_adapt := (adapt forward Adam optimizer_step validator).

Lemma epochs_loop_pl_acc self (l : loader Input) (alpha : R) :
  forall n mo opt last mo' ts pl,
    epochs_loop forward optimizer_step validator self l alpha n mo opt last
    = Ok (mo', Some (ts, pl)) ->
    (forall ts0 p, last = Some (ts0, p) -> 0 <= p <= 1) ->
    0 <= pl <= 1.
Proof.
  induction n as [| n IH]; intros mo opt last mo' ts pl H Hlast; simpl in H.
  - inversion H; subst. eapply Hlast; reflexivity.
  - apply bind_Ok in H. destruct H as ([[[m1 o1] tl] sc] & _ & H).
    apply bind_Ok in H. destruct H as ([acc p] & Ho & H).
    apply (IH _ _ _ _ _ _ H).
    intros ts0 p0 Heq. inversion Heq; subst.
    apply (oracle_eval_epoch_range forward _ _ _ _ _ Ho).
Qed.

(** What one candidate leaves behind: the tables of its ensemble update,
    one pseudo-label accuracy and one momentum. *)
Lemma train_eval_effect self (domain_idx : int) (q : R) (a : args) self'
    (r : Model * pyfloat) :
  train_eval self domain_idx q a = Ok (self', r) ->
  exists u pl dist,
    _update_Z forward self domain_idx = Ok u /\
    py_getitem (norm_dist_list self) (domain_idx - 1)%Z = Ok dist /\
    0 <= pl <= 1 /\
    self' = set_momentum (append_pl_acc u pl) (momentum_of (beta self) dist).
Proof.
  unfold _adapt_train_eval. intros H.
  apply bind_Ok in H. destruct H as (u & Hu & H).
  apply bind_Ok in H. destruct H as (train_loader & Hl & H).
  apply bind_Ok in H. destruct H as (alpha & Ha & H).
  apply bind_Ok in H. destruct H as ([mo last] & He & H).
  destruct last as [[train_score pl_acc] |]; [| discriminate].
  apply bind_Ok in H. destruct H as (s & Hs & H).
  inversion H; subst s r; clear H.
  unfold _calc_momentum in Hs.
  apply bind_Ok in Hs. destruct Hs as (dist & Hd & Hs).
  inversion Hs; subst self'; clear Hs.
  destruct (update_Z_frame forward _ _ _ Hu) as ((_ & Hb & _ & Hn) & _).
  simpl in Hd. rewrite Hn in Hd.
  exists u, pl_acc, dist. simpl. rewrite Hb.
  repeat split; try assumption;
    apply (epochs_loop_pl_acc _ _ _ _ _ _ _ _ _ _ He); discriminate.
Qed.

Lemma sweep_preserves (P : adapter Input Model -> Prop) (domain_idx : int)
    (a : args) :
  (forall s q s' r,
      P s -> train_eval s domain_idx q a = Ok (s', r) -> P s') ->
  forall qs self perf self' perf',
    P self -> run_sweep self domain_idx qs a perf = Ok (self', perf') ->
    P self'.
Proof.
  intros Hstep. induction qs as [| q qs IH];
    intros self perf self' perf' HP H; simpl in H.
  - now inversion H; subst.
  - apply bind_Ok in H. destruct H as ([s1 [mo sc]] & Hc & H).
    apply (IH _ _ _ _ (Hstep _ _ _ _ HP Hc) H).
Qed.

Lemma adapt_preserves (P : adapter Input Model -> Prop) (domain_idx : int)
    (a : args) :
  (forall s q s' r,
      P s -> train_eval s domain_idx q a = Ok (s', r) -> P s') ->
  (forall s m, P s -> P (set_model s m)) ->
  forall qs self self',
    P self -> run_adapt self domain_idx qs a = Ok self' -> P self'.
Proof.
  intros Hstep Hset qs self self' HP H.
  destruct (adapt_inv forward Adam optimizer_step validator _ _ _ _ _ H)
    as (last & perf & Hs & _ & ->).
  apply Hset. eapply sweep_preserves; eauto.
Qed.

(** X23: every pseudo-label accuracy that [adapt] records lies between 0
    and 1: a list [pl_acc_list] with entries in that range is left with
    entries in that range. *)
Theorem adapt_pl_acc_in_range self (domain_idx : int) (qs : list R)
    (a : args) self' :
  Forall (fun p => 0 <= p <= 1) (pl_acc_list self) ->
  run_adapt self domain_idx qs a = Ok self' ->
  Forall (fun p => 0 <= p <= 1) (pl_acc_list self').
Proof.
  apply (adapt_preserves
           (fun s => Forall (fun p => 0 <= p <= 1) (pl_acc_list s))).
  - intros s q s' r HP H.
    destruct (train_eval_effect _ _ _ _ _ _ H)
      as (u & pl & dist & Hu & _ & Hpl & ->).
    destruct (update_Z_frame forward _ _ _ Hu) as (_ & _ & Hp & _).
    simpl. rewrite Hp. apply Forall_app. split; [exact HP |].
    constructor; [exact Hpl | constructor].
  - intros s m HP. exact HP.
Qed.

(** X24: with a non-negative [beta] and non-negative distances, every
    momentum that [adapt] records lies in (0, 1], and so does the momentum
    the adapter holds when [adapt] returns, whatever it held before: it
    is a weight of a convex combination in the next ensemble update. *)
Theorem adapt_momentum_in_range self (domain_idx : int) (qs : list R)
    (a : args) self' :
  0 <= beta self ->
  Forall (fun d => 0 <= d) (norm_dist_list self) ->
  Forall (fun m => 0 < m <= 1) (momentum_record_list self) ->
  run_adapt self domain_idx qs a = Ok self' ->
  0 < momentum self' <= 1 /\
  Forall (fun m => 0 < m <= 1) (momentum_record_list self').
Proof.
  intros Hb Hd Hr H.
  assert (Hrange : forall dist,
             py_getitem (norm_dist_list self) (domain_idx - 1)%Z = Ok dist ->
             0 < momentum_of (beta self) dist <= 1).
  { intros dist Hg. apply momentum_of_range; [exact Hb |].
    rewrite Forall_forall in Hd. apply Hd. eapply py_getitem_In; eauto. }
  destruct (adapt_inv forward Adam optimizer_step validator _ _ _ _ _ H)
    as (last & perf & Hs & Hsel & ->).
  destruct (sweep_inv forward Adam optimizer_step validator _ _ _ _ _ _ _ Hs)
    as (_ & _ & [-> | (dist & Hg & Hm & Hrec)]).
  - simpl in Hs. inversion Hs; subst. discriminate.
  - simpl. rewrite Hm, Hrec. split; [now apply Hrange |].
    apply Forall_app. split; [exact Hr |].
    apply Forall_forall. intros m Hin. apply repeat_spec in Hin. subst m.
    now apply Hrange.
Qed.

Lemma update_Z_keeps_prob_tables self (domain_idx : int) u :
  0 <= momentum self <= 1 -> prob_tables self ->
  _update_Z forward self domain_idx = Ok u -> prob_tables u.
Proof.
  intros Hm HP H.
  assert (HQ : 0 <= momentum u <= 1 /\ prob_tables u).
  { apply (update_Z_preserves forward
             (fun s => 0 <= momentum s <= 1 /\ prob_tables s))
      with (self := self) (domain_idx := domain_idx);
      [| split; assumption | exact H].
    intros s b s' [Hms HPs] Hb.
    destruct (update_batch_frame forward _ _ _ Hb) as (_ & Hmo & _).
    split; [now rewrite Hmo |].
    eapply update_batch_prob_tables; eauto. }
  apply HQ.
Qed.

(** X25: the tables stay probability tables across whole calls to
    [adapt]: with a non-negative [beta], non-negative distances and a
    momentum in [0, 1], if every row of [Z] is a probability vector and
    [z] is equal to [Z] before [adapt], the same holds when it returns,
    after as many ensemble updates as the sweep has candidates, and the
    momentum is again in [0, 1] for the next call. *)
Theorem adapt_keeps_prob_tables self (domain_idx : int) (qs : list R)
    (a : args) self' :
  0 <= beta self ->
  Forall (fun d => 0 <= d) (norm_dist_list self) ->
  0 <= momentum self <= 1 ->
  prob_tables self ->
  run_adapt self domain_idx qs a = Ok self' ->
  prob_tables self' /\ 0 <= momentum self' <= 1 /\
  0 <= beta self' /\ Forall (fun d => 0 <= d) (norm_dist_list self').
Proof.
  intros Hb Hd Hm HP.
  apply (adapt_preserves
           (fun s => prob_tables s /\ 0 <= momentum s <= 1 /\
                     0 <= beta s /\ Forall (fun d => 0 <= d) (norm_dist_list s))).
  - intros s q s' r (HPs & Hms & Hbs & Hds) H.
    destruct (train_eval_effect _ _ _ _ _ _ H)
      as (u & pl & dist & Hu & Hg & _ & ->).
    destruct (update_Z_frame forward _ _ _ Hu) as ((_ & Hbu & _ & Hnu) & _).
    pose proof (update_Z_keeps_prob_tables _ _ _ Hms HPs Hu) as HPu.
    assert (Hrange : 0 < momentum_of (beta s) dist <= 1).
    { apply momentum_of_range; [exact Hbs |].
      rewrite Forall_forall in Hds. apply Hds. eapply py_getitem_In; eauto. }
    unfold prob_tables in *. simpl. rewrite Hbu, Hnu.
    repeat split; try tauto; lra.
  - intros s m H. exact H.
  - split; [exact HP |]. split; [exact Hm |]. split; [exact Hb | exact Hd].
Qed.

End AdaptInvariants.

(** * Instances of the further properties

    Each property with a precondition is applied to a run of the small
    instances. *)

Lemma toy_well_shaped : well_shaped [[0; 0]] [[1; 0]].
Proof.
  unfold well_shaped. apply Forall2_cons; [| apply Forall2_nil].
  rewrite argmax_pair by lra. simpl. lia.
Qed.

Lemma toy_update_fresh :
  _update_Z Toy.forward Toy.fresh 1
  = Ok (Toy.state [0; 0] Toy.halves Toy.halves 0 [] []).
Proof. rewrite fresh_state. apply toy_update_1; (reflexivity || lra). Qed.

Lemma toy_update_halves :
  _update_Z Toy.forward
    (Toy.state Toy.trained Toy.halves Toy.halves (1 / 2) [] []) 2
  = Ok (Toy.state Toy.trained
          [[1 / 2; 1 / 2]; [1 / 2 / 2 + 3 / 8; 1 / 2 / 2 + 1 / 8]]
          [[1 / 2; 1 / 2]; [1 / 2 / 2 + 3 / 8; 1 / 2 / 2 + 1 / 8]]
          (1 / 2) [] []).
Proof. unfold Toy.halves. apply toy_update_2; lra. Qed.

Lemma toy_update_momentum_one :
  _update_Z Toy.forward (Toy.state [0; 0] Toy.halves Toy.halves 1 [] []) 1
  = Ok (Toy.state [0; 0] Toy.halves Toy.halves 1 [] []).
Proof. unfold Toy.halves at 1 2. apply toy_update_1; (reflexivity || lra). Qed.

Lemma toy_halves_prob (m : row) (mom : R) (pl ml : list R) :
  prob_tables (Toy.state m Toy.halves Toy.halves mom pl ml).
Proof.
  split; [reflexivity |]. simpl.
  assert (H : prob_row [1 / 2; 1 / 2]).
  { split.
    - unfold nonneg_row. repeat constructor; lra.
    - rewrite !sum_cons. unfold sum. simpl. lra. }
  unfold Toy.halves.
  apply Forall_cons; [exact H |]. apply Forall_cons; [exact H |].
  apply Forall_nil.
Qed.

Lemma ln_2_nonneg : 0 <= ln 2.
Proof. rewrite <- ln_1. apply Rlt_le, ln_increasing; lra. Qed.

Lemma update_Z_writes_only_rows_witness :
  model (Toy.state [0; 0] Toy.halves Toy.halves 0 [] []) = model Toy.fresh /\
  momentum (Toy.state [0; 0] Toy.halves Toy.halves 0 [] [])
    = momentum Toy.fresh /\
  beta (Toy.state [0; 0] Toy.halves Toy.halves 0 [] []) = beta Toy.fresh /\
  trainloader_list (Toy.state [0; 0] Toy.halves Toy.halves 0 [] [])
    = trainloader_list Toy.fresh /\
  norm_dist_list (Toy.state [0; 0] Toy.halves Toy.halves 0 [] [])
    = norm_dist_list Toy.fresh /\
  pl_acc_list (Toy.state [0; 0] Toy.halves Toy.halves 0 [] [])
    = pl_acc_list Toy.fresh /\
  momentum_record_list (Toy.state [0; 0] Toy.halves Toy.halves 0 [] [])
    = momentum_record_list Toy.fresh /\
  length (Z (Toy.state [0; 0] Toy.halves Toy.halves 0 [] []))
    = length (Z Toy.fresh) /\
  length (z (Toy.state [0; 0] Toy.halves Toy.halves 0 [] []))
    = length (z Toy.fresh).
Proof.
  exact (update_Z_writes_only_rows Toy.forward Toy.fresh 1 _ toy_update_fresh).
Defined.

Lemma update_Z_skips_earlier_domains_witness :
  exists self',
    _update_Z Toy.forward
      (Toy.state Toy.trained Toy.halves Toy.halves (1 / 2) [] []) 2
    = Ok self' /\
    nth_error (Z self') 0 = Some [1 / 2; 1 / 2] /\
    nth_error (z self') 0 = Some [1 / 2; 1 / 2].
Proof.
  eexists. split; [exact toy_update_halves |].
  destruct (update_Z_skips_earlier_domains Toy.forward _ 2 _ 0%nat
              toy_update_halves) as (HZ & Hz & _).
  - cbv. intros [H | []]. discriminate.
  - split; [exact HZ | exact Hz].
Defined.

Lemma update_Z_normalizes_visited_witness :
  nth_error
    (z (Toy.state Toy.trained
          [[1 / 2; 1 / 2]; [1 / 2 / 2 + 3 / 8; 1 / 2 / 2 + 1 / 8]]
          [[1 / 2; 1 / 2]; [1 / 2 / 2 + 3 / 8; 1 / 2 / 2 + 1 / 8]]
          (1 / 2) [] [])) 1
  = Some (normalize [1 / 2 / 2 + 3 / 8; 1 / 2 / 2 + 1 / 8]).
Proof.
  apply (update_Z_normalizes_visited Toy.forward _ 2 _ 1%nat _
           toy_update_halves).
  - cbv. left. reflexivity.
  - reflexivity.
Defined.

Lemma update_batch_momentum_zero_witness :
  exists self',
    update_batch Toy.forward Toy.fresh [(0%nat, tt, 0%nat)] = Ok self' /\
    gather (Z self') [0%nat]
      = Ok (map softmax (Toy.forward false [0; 0] [tt])) /\
    gather (z self') [0%nat]
      = Ok (map softmax (Toy.forward false [0; 0] [tt])).
Proof.
  eexists. split; [run_update; reflexivity |].
  apply (update_batch_momentum_zero Toy.forward Toy.fresh
           [(0%nat, tt, 0%nat)]).
  - reflexivity.
  - repeat constructor. intros [].
  - run_update. reflexivity.
Defined.

Lemma update_Z_momentum_one_witness :
  exists self',
    _update_Z Toy.forward (Toy.state [0; 0] Toy.halves Toy.halves 1 [] []) 1
    = Ok self' /\
    Z self' = Z (Toy.state [0; 0] Toy.halves Toy.halves 1 [] []).
Proof.
  eexists. split; [exact toy_update_momentum_one |].
  apply (update_Z_momentum_one Toy.forward
           (Toy.state [0; 0] Toy.halves Toy.halves 1 [] []) 1).
  - reflexivity.
  - exact toy_update_momentum_one.
Defined.

Lemma update_Z_prob_tables_witness :
  prob_tables
    (Toy.state Toy.trained
       [[1 / 2; 1 / 2]; [1 / 2 / 2 + 3 / 8; 1 / 2 / 2 + 1 / 8]]
       [[1 / 2; 1 / 2]; [1 / 2 / 2 + 3 / 8; 1 / 2 / 2 + 1 / 8]]
       (1 / 2) [] []).
Proof.
  apply (update_Z_prob_tables Toy.forward
           (Toy.state Toy.trained Toy.halves Toy.halves (1 / 2) [] []) 2).
  - simpl. lra.
  - apply toy_halves_prob.
  - exact toy_update_halves.
Defined.

Lemma update_Z_unit_norm_witness :
  exists r',
    nth_error
      (z (Toy.state Toy.trained
            [[1 / 2; 1 / 2]; [1 / 2 / 2 + 3 / 8; 1 / 2 / 2 + 1 / 8]]
            [[1 / 2; 1 / 2]; [1 / 2 / 2 + 3 / 8; 1 / 2 / 2 + 1 / 8]]
            (1 / 2) [] [])) 1 = Some r' /\
    norm1 r' = 1 /\ normalize r' = r'.
Proof.
  apply (update_Z_unit_norm Toy.forward _ 2 _ 1%nat
           [1 / 2 / 2 + 3 / 8; 1 / 2 / 2 + 1 / 8] toy_update_halves).
  - cbv. left. reflexivity.
  - reflexivity.
  - unfold norm1, normalize_eps. cbn [map]. rewrite !sum_cons.
    rewrite !Rabs_pos_eq by lra. unfold sum. simpl. lra.
Defined.

Lemma calc_momentum_wraps_around_witness :
  exists self',
    _calc_momentum Toy.fresh 0 = Ok self' /\
    momentum self' = exp (- (beta Toy.fresh * ln 2)).
Proof.
  apply (calc_momentum_wraps_around Toy.fresh 0 (ln 2)).
  - lia.
  - simpl. lia.
  - reflexivity.
Defined.

Lemma calc_momentum_index_range_witness :
  (exists self', _calc_momentum Toy.fresh 2 = Ok self') /\
  _calc_momentum Toy.fresh 3 = Raise IndexError.
Proof.
  split.
  - apply (proj1 (calc_momentum_index_range Toy.fresh 2)). simpl. lia.
  - apply (proj2 (calc_momentum_index_range Toy.fresh 3)). simpl. lia.
Defined.

Lemma calc_alpha_between_confidences_witness :
  exists rows lo hi,
    gather (Z (Toy.state [0; 0] Toy.halves Toy.halves 0 [] []))
      (concat (map batch_idx [[(0%nat, tt, 0%nat)]])) = Ok rows /\
    In lo rows /\ In hi rows /\
    confidence_of lo <= confidence_of [1 / 2; 1 / 2] <= confidence_of hi.
Proof.
  apply (calc_alpha_between_confidences
           (Toy.state [0; 0] Toy.halves Toy.halves 0 [] [])
           [[(0%nat, tt, 0%nat)]] 0.1).
  apply calc_alpha_single; [reflexivity | lra].
Defined.

Lemma calc_alpha_monotone_witness :
  confidence_of [1 / 2; 1 / 2] <= confidence_of [1 / 2; 1 / 2].
Proof.
  apply (calc_alpha_monotone
           (Toy.state [0; 0] Toy.halves Toy.halves 0 [] [])
           [[(0%nat, tt, 0%nat)]] 0.1 0.5).
  - lra.
  - apply calc_alpha_single; [reflexivity | lra].
  - apply calc_alpha_single; [reflexivity | lra].
Defined.

Lemma mask_shrinks_with_alpha_witness :
  Forall2 (fun kept2 kept1 => kept2 = true -> kept1 = true)
    (map (masked_in 2) [[1; 0]]) (map (masked_in (1 / 2)) [[1; 0]]) /\
  le (mask_sum (map (masked_in 2) [[1; 0]]))
     (mask_sum (map (masked_in (1 / 2)) [[1; 0]])).
Proof.
  refine (mask_shrinks_with_alpha [[0; 0]] [[1; 0]] (1 / 2) 2 _ _ _ _ _
            (pseudo_label_loss_eval _ _ _ toy_well_shaped)
            (pseudo_label_loss_eval _ _ _ toy_well_shaped)).
  lra.
Defined.

Lemma pseudo_label_loss_returns_iff_witness :
  exists r, _pseudo_label_loss [[0; 0]] [[1; 0]] (1 / 2) = Ok r.
Proof.
  apply (proj2 (proj1 (pseudo_label_loss_returns_iff
                         [[0; 0]] [[1; 0]] (1 / 2)))).
  exact toy_well_shaped.
Defined.

Lemma pseudo_label_loss_nonneg_scaled_witness :
  exists v,
    _pseudo_label_loss [[0; 0]] [[1; 0]] (1 / 2)
    = Ok (Fin v, map (masked_in (1 / 2)) [[1; 0]]) /\
    0 <= v /\
    (lt O (masked_count (1 / 2) [[1; 0]]) ->
     v = masked_mean_loss (1 / 2) [[0; 0]] [[1; 0]]
         * (INR (masked_count (1 / 2) [[1; 0]]) / INR (length [[0; 0]])) /\
     v <= masked_mean_loss (1 / 2) [[0; 0]] [[1; 0]]).
Proof.
  apply (pseudo_label_loss_nonneg_scaled [[0; 0]] [[1; 0]] (1 / 2)).
  - exact toy_well_shaped.
  - discriminate.
Defined.

Lemma oracle_eval_epoch_bounds_witness :
  exists acc pl_acc,
    _oracle_eval_epoch Toy.forward
      (Toy.state [0; 0] Toy.halves Toy.halves 0 [] []) [0; 0]
      [[(0%nat, tt, 0%nat)]] = Ok (acc, pl_acc) /\
    0 <= acc <= 1 /\ 0 <= pl_acc <= 1.
Proof.
  do 2 eexists. split.
  - apply (oracle_epoch_single Toy.forward _ [0; 0] 0%nat tt 0%nat
             [1 / 2; 1 / 2] [0; 0]); reflexivity.
  - refine (let H := oracle_eval_epoch_bounds Toy.forward
                       (Toy.state [0; 0] Toy.halves Toy.halves 0 [] [])
                       [0; 0] [[(0%nat, tt, 0%nat)]] _ _ _ in
            conj (proj1 H) (proj1 (proj2 H))).
    apply (oracle_epoch_single Toy.forward _ [0; 0] 0%nat tt 0%nat
             [1 / 2; 1 / 2] [0; 0]); reflexivity.
Defined.

Lemma adapt_needs_an_epoch_witness :
  _adapt_train_eval Toy.forward Toy.Adam Toy.optimizer_step Toy.validator
    Toy.fresh 1 0.1 {| adapt_lr := 1e-3; adapt_epochs := 0 |}
  = Raise UnboundLocalError.
Proof.
  refine (proj2 (adapt_needs_an_epoch Toy.forward Toy.Adam
                   Toy.optimizer_step Toy.validator Toy.fresh 1 [0.1]
                   {| adapt_lr := 1e-3; adapt_epochs := 0 |} _)
            0.1 _ [[(0%nat, tt, 0%nat)]] (confidence_of [1 / 2; 1 / 2])
            toy_update_fresh _ _).
  - simpl. lia.
  - reflexivity.
  - apply calc_alpha_single; [reflexivity | lra].
Defined.

Lemma toy_sweep_fresh_twice :
  sweep Toy.forward Toy.Adam Toy.optimizer_step Toy.validator Toy.fresh 1
    [0.1; 0.1] Toy.one_epoch []
  = Ok (Toy.state [0; 0] Toy.halves Toy.halves (1 / 2) [1; 1] [1 / 2; 1 / 2],
        [(0.1, (Toy.trained, Toy.validator [[0; 0]]))]).
Proof.
  cbn [sweep]. rewrite fresh_state.
  rewrite toy_train_eval_1 by (reflexivity || lra).
  cbn [bind]. unfold Toy.halves.
  rewrite toy_train_eval_1 by (reflexivity || lra).
  cbn [bind dict_set app].
  destruct (Req_dec_T 0.1 0.1) as [_ | Hne]; [| exfalso; lra].
  reflexivity.
Qed.

Lemma sweep_one_entry_per_value_witness :
  NoDup (map fst [(0.1, (Toy.trained, Toy.validator [[0; 0]]))]) /\
  (forall q,
      In q (map fst [(0.1, (Toy.trained, Toy.validator [[0; 0]]))])
      <-> In q [0.1; 0.1]) /\
  le (length [(0.1, (Toy.trained, Toy.validator [[0; 0]]))])
     (length [0.1; 0.1]).
Proof.
  exact (sweep_one_entry_per_value Toy.forward Toy.Adam Toy.optimizer_step
           Toy.validator Toy.fresh 1 [0.1; 0.1] Toy.one_epoch _ _
           toy_sweep_fresh_twice).
Defined.

Lemma adapt_keeps_settings_witness :
  beta (Toy.state Toy.trained Toy.halves Toy.halves (1 / 2) [1] [1 / 2])
    = beta Toy.fresh /\
  trainloader_list
    (Toy.state Toy.trained Toy.halves Toy.halves (1 / 2) [1] [1 / 2])
    = trainloader_list Toy.fresh /\
  norm_dist_list
    (Toy.state Toy.trained Toy.halves Toy.halves (1 / 2) [1] [1 / 2])
    = norm_dist_list Toy.fresh /\
  length
    (Z (Toy.state Toy.trained Toy.halves Toy.halves (1 / 2) [1] [1 / 2]))
    = length (Z Toy.fresh) /\
  length
    (z (Toy.state Toy.trained Toy.halves Toy.halves (1 / 2) [1] [1 / 2]))
    = length (z Toy.fresh).
Proof.
  exact (adapt_keeps_settings Toy.forward Toy.Adam Toy.optimizer_step
           Toy.validator Toy.fresh 1 [0.1] Toy.one_epoch _
           (toy_adapt_fresh_one Toy.validator eq_refl)).
Defined.

Lemma toy_eval_epoch :
  exists loss,
    _adapt_eval_epoch Toy.forward Toy.validator
      (Toy.state [0; 0] [[1; 0]; [1; 0]] [[1; 0]; [1; 0]] 0 [] []) [0; 0]
      [[(0%nat, tt, 0%nat)]] (1 / 2)
    = Ok (loss, Toy.validator [[0; 0]]).
Proof.
  unfold _adapt_eval_epoch.
  cbn [eval_batches batch_idx batch_data map fst snd gather nth_error z
       Toy.state Toy.forward bind].
  rewrite (pseudo_label_loss_eval _ _ _ toy_well_shaped).
  cbn [bind map]. unfold masked_in.
  rewrite confidence_of_pair, Rleb_true by lra.
  cbn [mask_sum filter length fmul_nat fadd fdiv_nat Nat.add bind cat app
       concat].
  eexists. reflexivity.
Qed.

Lemma adapt_eval_epoch_scores_all_logits_witness :
  Toy.validator [[0; 0]]
  = Toy.validator
      (concat (map (fun b => Toy.forward false [0; 0] (batch_data b))
                 [[(0%nat, tt, 0%nat)]])) /\
  exists b ep,
    In b [[(0%nat, tt, 0%nat)]] /\
    gather (z (Toy.state [0; 0] [[1; 0]; [1; 0]] [[1; 0]; [1; 0]] 0 [] []))
      (batch_idx b) = Ok ep /\
    Exists (fun p => 1 / 2 <= confidence_of p) ep.
Proof.
  destruct toy_eval_epoch as [loss H].
  exact (adapt_eval_epoch_scores_all_logits Toy.forward Toy.validator
           _ _ _ _ _ _ H).
Defined.

Lemma toy_train_once :
  exists loss,
    train ToySource.net_forward ToySource.sup_step ToySource.train_loader
      (tt, tt, tt)
    = Ok ((tt, tt, tt), loss, INR 1 / INR 1).
Proof.
  unfold train.
  cbn [train_loop ToySource.train_loader ToySource.net_forward
       ToySource.sup_step map fst snd log_softmax nll_loss nth_error bind].
  rewrite argmax_pair by lra.
  cbn [count_eq Nat.eqb bind length Nat.add mean fmul_nat fadd fdiv_nat].
  eexists. reflexivity.
Qed.

Lemma train_accuracy_bounds_witness :
  0 <= INR 1 / INR 1 <= 1 /\ concat ToySource.train_loader <> [] /\
  train ToySource.net_forward ToySource.sup_step [] (tt, tt, tt)
  = Raise ZeroDivisionError.
Proof.
  destruct toy_train_once as [loss H].
  exact (train_accuracy_bounds ToySource.net_forward ToySource.sup_step
           _ _ _ _ _ H).
Defined.

Lemma toy_source_train_once :
  source_train ToySource.net_forward ToySource.sup_step ToySource.eval_one
    ToySource.train_loader 1 (tt, tt, tt)
  = Ok (Some (tt, tt)).
Proof.
  unfold source_train. change (Z.to_nat 1) with 1%nat.
  cbn [source_train_loop].
  destruct toy_train_once as [loss ->].
  cbn [bind fst ToySource.eval_one].
  rewrite Rltb_true by lra. reflexivity.
Qed.

Lemma source_train_best_validates_witness :
  exists acc, ToySource.eval_one (tt, tt) = Ok acc /\ 0 < acc.
Proof.
  exact (proj1 (source_train_best_validates ToySource.net_forward
                  ToySource.sup_step ToySource.eval_one
                  ToySource.train_loader 1 (tt, tt, tt) _
                  toy_source_train_once) (tt, tt) eq_refl).
Defined.

Lemma source_train_stops_after_patience_witness :
  source_train ToySource.net_forward ToySource.sup_step ToySource.eval_zero
    ToySource.train_loader 7 (tt, tt, tt)
  = source_train ToySource.net_forward ToySource.sup_step
      ToySource.eval_zero ToySource.train_loader 6 (tt, tt, tt).
Proof.
  refine (proj2 (source_train_stops_after_patience ToySource.net_forward
                   ToySource.sup_step ToySource.eval_zero
                   ToySource.train_loader (tt, tt, tt) 0 None 0%nat 6%nat
                   _ _ _) eq_refl 7%Z _).
  - intros n acc H. inversion H. lra.
  - unfold patience. lia.
  - unfold patience. lia.
  - lia.
Defined.

Lemma adapt_pl_acc_in_range_witness :
  Forall (fun p => 0 <= p <= 1)
    (pl_acc_list
       (Toy.state Toy.trained Toy.halves Toy.halves (1 / 2) [1] [1 / 2])).
Proof.
  apply (adapt_pl_acc_in_range Toy.forward Toy.Adam Toy.optimizer_step
           Toy.validator Toy.fresh 1 [0.1] Toy.one_epoch).
  - apply Forall_nil.
  - exact (toy_adapt_fresh_one Toy.validator eq_refl).
Defined.

Lemma adapt_momentum_in_range_witness :
  0 < momentum
        (Toy.state Toy.trained Toy.halves Toy.halves (1 / 2) [1] [1 / 2])
    <= 1 /\
  Forall (fun m => 0 < m <= 1)
    (momentum_record_list
       (Toy.state Toy.trained Toy.halves Toy.halves (1 / 2) [1] [1 / 2])).
Proof.
  apply (adapt_momentum_in_range Toy.forward Toy.Adam Toy.optimizer_step
           Toy.validator Toy.fresh 1 [0.1] Toy.one_epoch).
  - simpl. lra.
  - simpl. repeat apply Forall_cons; try apply Forall_nil; apply ln_2_nonneg.
  - apply Forall_nil.
  - exact (toy_adapt_fresh_one Toy.validator eq_refl).
Defined.

Lemma adapt_keeps_prob_tables_witness :
  exists self',
    adapt Toy.forward Toy.Adam Toy.optimizer_step Toy.validator
      (Toy.state Toy.trained Toy.halves Toy.halves (1 / 2) [1] [1 / 2]) 2
      [0.1; 0.5] Toy.one_epoch = Ok self' /\
    prob_tables self' /\ 0 <= momentum self' <= 1.
Proof.
  eexists. split; [exact (toy_adapt_second_domain Toy.validator eq_refl) |].
  refine (let H := adapt_keeps_prob_tables Toy.forward Toy.Adam
                     Toy.optimizer_step Toy.validator
                     (Toy.state Toy.trained Toy.halves Toy.halves (1 / 2)
                        [1] [1 / 2]) 2 [0.1; 0.5] Toy.one_epoch _ _ _ _ _
                     (toy_adapt_second_domain Toy.validator eq_refl) in
          conj (proj1 H) (proj1 (proj2 H))).
  - simpl. lra.
  - simpl. repeat apply Forall_cons; try apply Forall_nil; apply ln_2_nonneg.
  - simpl. lra.
  - apply toy_halves_prob.
Defined.
